(** * lab3: a chained hash table under a table-wide lock (v1) and under
      per-bucket locks (v2)

    A shallow embedding of [hash-table-v1.c] and [hash-table-v2.c], the
    properties of the calls of one thread, and the insertions of several
    threads as an interleaving of the steps of [add_entry].

    Conventions of the embedding.
    - A [const char *] is an address ([Z], [NULL] is 0).  The strings the
      caller owns live in a [memory]: a finite map from the address of a
      buffer to the string stored there (its bytes up to the terminator).
      The table keeps the caller's pointer, so every string comparison goes
      through the memory that is current at the time of the call.
    - An [SLIST] chain is the list of its nodes, head first; a pointer to a
      node of a chain is the position of the node in the chain; a pointer
      [&entries[index]] is the index.
    - A C function that may stop the process, or wait for a mutex, returns
      an [outcome].
    - The results of the calls into libc whose answer is decided by the
      system ([calloc], [pthread_mutex_init]) are arguments of the function
      that makes the call. *)

From Stdlib Require Import ZArith String Ascii Lia.
From stdpp Require Import base option list gmap strings.

Local Open Scope Z_scope.

(** ** Process outcomes *)

Inductive outcome (A : Type) : Type :=
  | Returns (a : A)   (* the call returns *)
  | Aborted           (* a failed [assert] *)
  | Exited            (* [perror(...); exit(EXIT_FAILURE)] *)
  | Undefined         (* undefined behaviour: an invalid pointer is read or written *)
  | Blocked.          (* the call waits for a mutex that is held *)
Arguments Returns {A} a.
Arguments Aborted {A}.
Arguments Exited {A}.
Arguments Undefined {A}.
Arguments Blocked {A}.

#[global] Instance outcome_ret : MRet outcome := @Returns.
#[global] Instance outcome_bind : MBind outcome := λ A B f c,
  match c with
  | Returns a => f a
  | Aborted => Aborted
  | Exited => Exited
  | Undefined => Undefined
  | Blocked => Blocked
  end.

Definition assert (b : bool) : outcome unit :=
  if b then Returns () else Aborted.

(** ** Strings in the caller's memory *)

Abbreviation memory := (gmap Z string).

Definition NULL : Z := 0.

(** The string a [const char *] points to, when it points to one. *)
Definition string_at (m : memory) (p : Z) : option string :=
  if decide (p = NULL) then None else m !! p.

(** Reading through a [const char *]. *)
Definition load_string (m : memory) (p : Z) : outcome string :=
  match string_at m p with
  | Some s => Returns s
  | None => Undefined
  end.

(** [strcmp] of <string.h>, up to the sign of its result. *)
Definition strcmp (s1 s2 : string) : Z :=
  match String.compare s1 s2 with
  | Eq => 0
  | Lt => -1
  | Gt => 1
  end.

Definition strcmp_at (m : memory) (p q : Z) : outcome Z :=
  s1 ← load_string m p;
  s2 ← load_string m q;
  mret (strcmp s1 s2).

(** ** Mutexes, as one thread sees them

    Both files make their mutexes with [pthread_mutex_init(&mutex, NULL)]:
    default mutexes.  [pthread_mutex_lock] returns 0 with the mutex held
    when it finds the mutex free.  When it finds the mutex held it does not
    return before the holder unlocks it, and among the calls of one thread
    there is no one to do so: the call waits.  [pthread_mutex_unlock] of a
    held mutex returns 0 with the mutex free; of a mutex that is not held
    it is undefined behaviour. *)

Inductive pthread_mutex_t : Type := mutex_free | mutex_held.

#[global] Instance pthread_mutex_t_eq_dec : EqDecision pthread_mutex_t.
Proof. solve_decision. Defined.

Definition pthread_mutex_lock (mu : pthread_mutex_t)
  : outcome (Z * pthread_mutex_t) :=
  match mu with
  | mutex_free => Returns (0, mutex_held)
  | mutex_held => Blocked
  end.

Definition pthread_mutex_unlock (mu : pthread_mutex_t)
  : outcome (Z * pthread_mutex_t) :=
  match mu with
  | mutex_held => Returns (0, mutex_free)
  | mutex_free => Undefined
  end.

(** The statement [if (pthread_mutex_lock(&mu) != 0) { perror(...);
    exit(EXIT_FAILURE); }] and its twin for unlock. *)
Definition lock_or_exit (mu : pthread_mutex_t) : outcome pthread_mutex_t :=
  r ← pthread_mutex_lock mu;
  if decide (r.1 ≠ 0) then Exited else mret r.2.

Definition unlock_or_exit (mu : pthread_mutex_t) : outcome pthread_mutex_t :=
  r ← pthread_mutex_unlock mu;
  if decide (r.1 ≠ 0) then Exited else mret r.2.

(** ** hash-table-base.h

    Both variants include this header for the capacity constant and the
    hash function; neither is defined in the two source files, so they are
    parameters of the development. *)

Class hash_table_base : Type := {
  HASH_TABLE_CAPACITY : Z;
  bernstein_hash : string → Z;
}.

(** ** The chain of a bucket (the same declarations in both files) *)

Record list_entry : Type := {
  key : Z;       (* const char *key *)
  value : Z;     (* uint32_t value *)
}.

#[global] Instance list_entry_eq_dec : EqDecision list_entry.
Proof. solve_decision. Defined.

(** [calloc(1, sizeof(struct list_entry))]: a zeroed node, or [NULL]. *)
Definition calloc_list_entry (calloc_ok : bool) : option list_entry :=
  if calloc_ok then Some {| key := NULL; value := 0 |} else None.

(** The loop [SLIST_FOREACH(entry, list_head, pointers) { if
    (strcmp(entry->key, key) == 0) return entry; } return NULL;] that both
    files write: the position of the first node whose key compares equal,
    [None] for [NULL]. *)
Fixpoint list_foreach (m : memory) (key : Z) (l : list list_entry)
  : outcome (option nat) :=
  match l with
  | [] => mret None
  | {| key := entry_key |} :: rest =>
      c ← strcmp_at m entry_key key;
      if decide (c = 0) then mret (Some 0%nat)
      else r ← list_foreach m key rest; mret (S <$> r)
  end.

(** The assignments [list_entry->key = key] and [list_entry->value = value]
    through a node pointer. *)
Definition store_key (key : Z) (entry : list_entry) : list_entry :=
  let '{| value := entry_value |} := entry in
  {| key := key; value := entry_value |}.

Definition store_value (value : Z) (entry : list_entry) : list_entry :=
  let '{| key := entry_key |} := entry in
  {| key := entry_key; value := value |}.

(** Reading [list_entry->value] through a node pointer. *)
Definition load_value (l : list list_entry) (pos : nat) : outcome Z :=
  match l !! pos with
  | Some entry => Returns (value entry)
  | None => Undefined
  end.

(** * Variant 1: one mutex for the whole table *)

Module V1.
Section Code.
Context {base : hash_table_base}.

Record hash_table_entry : Type := { list_head : list list_entry }.

Record hash_table_v1 : Type := {
  entries : list hash_table_entry;
  mutex : pthread_mutex_t;
}.

Definition hash_table_v1_create (calloc_ok : bool) (mutex_init : Z)
  : outcome hash_table_v1 :=
  _ ← assert calloc_ok;
  let entries :=
    replicate (Z.to_nat HASH_TABLE_CAPACITY) {| list_head := [] |} in
  if decide (mutex_init ≠ 0) then Exited
  else mret {| entries := entries; mutex := mutex_free |}.

(** Returns the index [i] of the bucket, for the pointer [&entries[i]]. *)
Definition get_hash_table_entry (m : memory) (hash_table : hash_table_v1)
    (key : Z) : outcome nat :=
  _ ← assert (bool_decide (key ≠ NULL));
  s ← load_string m key;
  let index := bernstein_hash s `mod` HASH_TABLE_CAPACITY in
  mret (Z.to_nat index).

(** Reading through [&entries[index]]. *)
Definition bucket (hash_table : hash_table_v1) (index : nat)
  : outcome hash_table_entry :=
  match entries hash_table !! index with
  | Some b => Returns b
  | None => Undefined
  end.

Definition get_list_entry (m : memory) (hash_table : hash_table_v1)
    (key : Z) (list_head : list list_entry) : outcome (option nat) :=
  _ ← assert (bool_decide (key ≠ NULL));
  list_foreach m key list_head.

Definition hash_table_v1_contains (m : memory) (hash_table : hash_table_v1)
    (key : Z) : outcome bool :=
  index ← get_hash_table_entry m hash_table key;
  hash_table_entry ← bucket hash_table index;
  list_entry ← get_list_entry m hash_table key (list_head hash_table_entry);
  mret (bool_decide (list_entry ≠ None)).

(** The table after the chain of bucket [index] became [l]. *)
Definition with_chain (hash_table : hash_table_v1) (index : nat)
    (l : list list_entry) : hash_table_v1 :=
  {| entries := <[index := {| list_head := l |}]> (entries hash_table);
     mutex := mutex hash_table |}.

Definition with_mutex (hash_table : hash_table_v1) (mu : pthread_mutex_t)
  : hash_table_v1 :=
  {| entries := entries hash_table; mutex := mu |}.

Definition hash_table_v1_add_entry (m : memory) (calloc_ok : bool)
    (hash_table : hash_table_v1) (key value : Z) : outcome hash_table_v1 :=
  mu ← lock_or_exit (mutex hash_table);
  let hash_table := with_mutex hash_table mu in
  index ← get_hash_table_entry m hash_table key;
  hash_table_entry ← bucket hash_table index;
  list_entry ← get_list_entry m hash_table key (list_head hash_table_entry);
  match list_entry with
  | Some pos =>
      (* Update the value if it already exists *)
      let hash_table :=
        with_chain hash_table index
          (alter (store_value value) pos (list_head hash_table_entry)) in
      mu ← unlock_or_exit (mutex hash_table);
      mret (with_mutex hash_table mu)
  | None =>
      match calloc_list_entry calloc_ok with
      | None => Undefined   (* [list_entry->key = key] through [NULL] *)
      | Some list_entry =>
          let list_entry := store_value value (store_key key list_entry) in
          let hash_table :=
            with_chain hash_table index
              (list_entry :: list_head hash_table_entry) in
          mu ← unlock_or_exit (mutex hash_table);
          mret (with_mutex hash_table mu)
      end
  end.

Definition hash_table_v1_get_value (m : memory) (hash_table : hash_table_v1)
    (key : Z) : outcome Z :=
  index ← get_hash_table_entry m hash_table key;
  hash_table_entry ← bucket hash_table index;
  list_entry ← get_list_entry m hash_table key (list_head hash_table_entry);
  _ ← assert (bool_decide (list_entry ≠ None));
  match list_entry with
  | Some pos => load_value (list_head hash_table_entry) pos
  | None => Undefined
  end.

End Code.
End V1.

(** * Variant 2: one mutex per bucket *)

Module V2.
Section Code.
Context {base : hash_table_base}.

Record hash_table_entry : Type := {
  list_head : list list_entry;
  mutex : pthread_mutex_t;
}.

Record hash_table_v2 : Type := {
  entries : list hash_table_entry;
}.

(** [mutex_init i] is the result of [pthread_mutex_init] for bucket [i];
    the loop stops at the first bucket whose mutex cannot be made. *)
Definition hash_table_v2_create (calloc_ok : bool) (mutex_init : nat → Z)
  : outcome hash_table_v2 :=
  _ ← assert calloc_ok;
  let indices := seq 0 (Z.to_nat HASH_TABLE_CAPACITY) in
  if decide (Forall (λ i, mutex_init i = 0) indices)
  then mret {| entries :=
                 (λ _, {| list_head := []; mutex := mutex_free |}) <$> indices |}
  else Exited.

Definition get_hash_table_entry (m : memory) (hash_table : hash_table_v2)
    (key : Z) : outcome nat :=
  _ ← assert (bool_decide (key ≠ NULL));
  s ← load_string m key;
  let index := bernstein_hash s `mod` HASH_TABLE_CAPACITY in
  mret (Z.to_nat index).

(** Reading through [&entries[index]]. *)
Definition bucket (hash_table : hash_table_v2) (index : nat)
  : outcome hash_table_entry :=
  match entries hash_table !! index with
  | Some b => Returns b
  | None => Undefined
  end.

Definition get_list_entry (m : memory) (hash_table : hash_table_v2)
    (key : Z) (list_head : list list_entry) : outcome (option nat) :=
  _ ← assert (bool_decide (key ≠ NULL));
  list_foreach m key list_head.

Definition hash_table_v2_contains (m : memory) (hash_table : hash_table_v2)
    (key : Z) : outcome bool :=
  index ← get_hash_table_entry m hash_table key;
  hash_table_entry ← bucket hash_table index;
  list_entry ← get_list_entry m hash_table key (list_head hash_table_entry);
  mret (bool_decide (list_entry ≠ None)).

(** Writing through [&entries[index]]. *)
Definition with_bucket (hash_table : hash_table_v2) (index : nat)
    (b : hash_table_entry) : hash_table_v2 :=
  {| entries := <[index := b]> (entries hash_table) |}.

Definition hash_table_v2_add_entry (m : memory) (calloc_ok : bool)
    (hash_table : hash_table_v2) (key value : Z) : outcome hash_table_v2 :=
  index ← get_hash_table_entry m hash_table key;
  hash_table_entry ← bucket hash_table index;
  mu ← lock_or_exit (mutex hash_table_entry);
  let hash_table_entry :=
    {| list_head := list_head hash_table_entry; mutex := mu |} in
  let hash_table := with_bucket hash_table index hash_table_entry in
  list_entry ← get_list_entry m hash_table key (list_head hash_table_entry);
  match list_entry with
  | Some pos =>
      (* Update the value if it already exists *)
      let l := alter (store_value value) pos (list_head hash_table_entry) in
      mu ← unlock_or_exit (mutex hash_table_entry);
      mret (with_bucket hash_table index {| list_head := l; mutex := mu |})
  | None =>
      match calloc_list_entry calloc_ok with
      | None => Undefined   (* [list_entry->key = key] through [NULL] *)
      | Some list_entry =>
          let list_entry := store_value value (store_key key list_entry) in
          let l := list_entry :: list_head hash_table_entry in
          mu ← unlock_or_exit (mutex hash_table_entry);
          mret (with_bucket hash_table index {| list_head := l; mutex := mu |})
      end
  end.

Definition hash_table_v2_get_value (m : memory) (hash_table : hash_table_v2)
    (key : Z) : outcome Z :=
  index ← get_hash_table_entry m hash_table key;
  hash_table_entry ← bucket hash_table index;
  list_entry ← get_list_entry m hash_table key (list_head hash_table_entry);
  _ ← assert (bool_decide (list_entry ≠ None));
  match list_entry with
  | Some pos => load_value (list_head hash_table_entry) pos
  | None => Undefined
  end.

End Code.
End V2.

(** * The hash function *)

Definition uint32 (z : Z) : Z := z `mod` 2 ^ 32.

Definition byte_of (c : ascii) : Z := Z.of_N (N_of_ascii c).

(** Modelled from the spec: the loop of [bernstein_hash], which is declared
    in hash-table-base.h and defined outside the two source files.  The
    spec has it keep a 32-bit accumulator that is updated, for each byte of
    the key in turn, as [accumulator = accumulator * 33 + byte]. *)
Fixpoint bernstein_loop (accumulator : Z) (s : string) : Z :=
  match s with
  | EmptyString => accumulator
  | String c rest => bernstein_loop (uint32 (accumulator * 33 + byte_of c)) rest
  end.

(** Modelled from the spec: [bernstein_hash], which is declared in
    hash-table-base.h and defined outside the two source files.  The spec
    has the accumulator start from a fixed non-zero seed, which it does not
    name: the seed is a parameter. *)
Definition bernstein_hash_spec (seed : Z) (s : string) : Z :=
  bernstein_loop seed s.

(** The header, with the capacity and the seed chosen. *)
Definition spec_base (capacity seed : Z) : hash_table_base :=
  {| HASH_TABLE_CAPACITY := capacity;
     bernstein_hash := bernstein_hash_spec seed |}.

(** * Notions used to state the properties *)

(** The bucket a string is routed to. *)
Definition bucket_index {base : hash_table_base} (s : string) : nat :=
  Z.to_nat (bernstein_hash s `mod` HASH_TABLE_CAPACITY).

(** The node [entry] holds a pointer to the string [s]. *)
Definition key_is (m : memory) (s : string) (entry : list_entry) : Prop :=
  string_at m (key entry) = Some s.

#[global] Instance key_is_dec m s entry : Decision (key_is m s entry).
Proof. unfold key_is. apply _. Defined.

(** Every key pointer of the chain points to a string. *)
Definition readable (m : memory) (l : list list_entry) : Prop :=
  Forall (λ entry, is_Some (string_at m (key entry))) l.

#[global] Instance readable_dec m l : Decision (readable m l).
Proof. unfold readable. apply _. Defined.

(** The strings the nodes of a chain point to, head first. *)
Definition chain_strings (m : memory) (l : list list_entry)
  : list (option string) :=
  (λ entry, string_at m (key entry)) <$> l.

(** The key pointers of the nodes of a chain, head first. *)
Definition chain_keys (l : list list_entry) : list Z := key <$> l.

(** What find-or-insert makes of a chain, for a key pointing to [s]. *)
Definition chain_put (m : memory) (s : string) (key value : Z)
    (l : list list_entry) : list list_entry :=
  match list_find (key_is m s) l with
  | Some (pos, _) => alter (store_value value) pos l
  | None => {| key := key; value := value |} :: l
  end.

(** The number of nodes of the table whose key points to [s]. *)
Definition entries_for (m : memory) (s : string)
    (chains : list (list list_entry)) : nat :=
  sum_list ((λ l, length (filter (key_is m s) l)) <$> chains).

(** The invariant of the data model on the chains of a table: every node
    sits in the bucket its string is routed to, and no two nodes of a
    bucket point to equal strings. *)
Definition chain_ok {base : hash_table_base} (m : memory) (i : nat)
    (l : list list_entry) : Prop :=
  Forall (λ o, bucket_index <$> o = Some i) (chain_strings m l)
  ∧ NoDup (chain_strings m l).

#[global] Instance chain_ok_dec {base : hash_table_base} m i l :
  Decision (chain_ok m i l).
Proof. unfold chain_ok. apply _. Defined.

Definition chains_ok {base : hash_table_base} (m : memory)
    (chains : list (list list_entry)) : Prop :=
  ∀ i l, chains !! i = Some l → chain_ok m i l.

#[global] Instance chains_ok_dec {base : hash_table_base} m chains :
  Decision (chains_ok m chains).
Proof.
  refine (cast_if
    (decide (Forall (λ il, chain_ok m il.1 il.2) (imap pair chains))));
    unfold chains_ok; rewrite Forall_lookup in *.
  - intros i l Hl. apply (f i (i, l)). by rewrite list_lookup_imap, Hl.
  - intros Hok. apply n. intros i [j l]. rewrite list_lookup_imap.
    destruct (chains !! i) as [l'|] eqn:Hl'; intros [= <- <-]. by apply Hok.
Defined.

(** The key pointers a table holds. *)
Definition stored_keys (chains : list (list list_entry)) : list Z :=
  mjoin (chain_keys <$> chains).

(** ** The interface of hash-table-base.h

    The header declares the same five functions for each variant; the
    properties that do not depend on where the mutexes live are stated once,
    over this record, and read off for each variant. *)

Record table_api {base : hash_table_base} : Type := {
  table : Type;
  add_entry : memory → bool → table → Z → Z → outcome table;
  contains : memory → table → Z → outcome bool;
  get_value : memory → table → Z → outcome Z;
  chains : table → list (list list_entry);
  guards_free : table → Prop;
  guards_free_dec t : Decision (guards_free t);
}.

Definition v1_chains (t : V1.hash_table_v1) : list (list list_entry) :=
  V1.list_head <$> V1.entries t.

Definition v2_chains (t : V2.hash_table_v2) : list (list list_entry) :=
  V2.list_head <$> V2.entries t.

Definition v1_api {base : hash_table_base} : table_api := {|
  table := V1.hash_table_v1;
  add_entry := V1.hash_table_v1_add_entry;
  contains := V1.hash_table_v1_contains;
  get_value := V1.hash_table_v1_get_value;
  chains := v1_chains;
  guards_free := λ t, V1.mutex t = mutex_free;
  guards_free_dec := λ t, decide (V1.mutex t = mutex_free);
|}.

Definition v2_api {base : hash_table_base} : table_api := {|
  table := V2.hash_table_v2;
  add_entry := V2.hash_table_v2_add_entry;
  contains := V2.hash_table_v2_contains;
  get_value := V2.hash_table_v2_get_value;
  chains := v2_chains;
  guards_free := λ t, Forall (λ b, V2.mutex b = mutex_free) (V2.entries t);
  guards_free_dec := λ t,
    decide (Forall (λ b, V2.mutex b = mutex_free) (V2.entries t));
|}.

Section Api.
Context {base : hash_table_base} (api : table_api).

(** A table as [create] lays it out, between two calls of a client whose
    key buffers are live: the array has its buckets, no mutex is held,
    and every key pointer points to a string. *)
Definition wf (m : memory) (t : table api) : Prop :=
  length (chains api t) = Z.to_nat HASH_TABLE_CAPACITY
  ∧ guards_free api t
  ∧ Forall (readable m) (chains api t).

#[global] Instance wf_dec m t : Decision (wf m t).
Proof. unfold wf. pose proof (guards_free_dec api t). apply _. Defined.

(** The invariant of the data model, on a table. *)
Definition table_ok (m : memory) (t : table api) : Prop :=
  wf m t ∧ chains_ok m (chains api t).

#[global] Instance table_ok_dec m t : Decision (table_ok m t).
Proof. unfold table_ok. apply _. Defined.

(** The calls a sequential client makes on a table, and what it sees. *)
Inductive call : Type :=
  | AddEntry (calloc_ok : bool) (key value : Z)
  | Contains (key : Z)
  | GetValue (key : Z).

Inductive answer : Type :=
  | Added
  | Found (b : bool)
  | Value (v : Z).

Definition do_call (m : memory) (t : table api) (c : call)
  : outcome (table api * answer) :=
  match c with
  | AddEntry calloc_ok key value =>
      t' ← add_entry api m calloc_ok t key value; mret (t', Added)
  | Contains key =>
      b ← contains api m t key; mret (t, Found b)
  | GetValue key =>
      v ← get_value api m t key; mret (t, Value v)
  end.

(** What the client observes: the answer of every call, up to and
    including the one that stops the process or waits.  Each call comes
    with the memory of the client at the time of the call. *)
Fixpoint run (t : table api) (calls : list (memory * call))
  : list (outcome answer) :=
  match calls with
  | [] => []
  | (m, c) :: rest =>
      match do_call m t c with
      | Returns (t', a) => Returns a :: run t' rest
      | Aborted => [Aborted]
      | Exited => [Exited]
      | Undefined => [Undefined]
      | Blocked => [Blocked]
      end
  end.

Definition run_from (created : outcome (table api))
    (calls : list (memory * call)) : list (outcome answer) :=
  match created with
  | Returns t => run t calls
  | Aborted => [Aborted]
  | Exited => [Exited]
  | Undefined => [Undefined]
  | Blocked => [Blocked]
  end.

(** A sequence of insertions, the allocations succeeding. *)
Fixpoint add_entries (m : memory) (t : table api) (kvs : list (Z * Z))
  : outcome (table api) :=
  match kvs with
  | [] => mret t
  | (key, value) :: rest =>
      t' ← add_entry api m true t key value; add_entries m t' rest
  end.

(** What the properties need to know of a variant: on a well-formed table
    [add_entry] returns after find-or-insert on the chain of the bucket
    of the key, and asks for memory only for a new key; without memory
    for a new key it runs into undefined behaviour; [contains] and
    [get_value] search the same chain. *)
Record table_laws : Prop := {
  add_entry_returns m calloc_ok t k v s l :
    wf m t → string_at m k = Some s →
    chains api t !! bucket_index s = Some l →
    calloc_ok = true ∨ is_Some (list_find (key_is m s) l) →
    ∃ t', add_entry api m calloc_ok t k v = Returns t'
          ∧ guards_free api t'
          ∧ chains api t' = <[bucket_index s := chain_put m s k v l]> (chains api t);
  add_entry_no_memory m t k v s l :
    wf m t → string_at m k = Some s →
    chains api t !! bucket_index s = Some l →
    list_find (key_is m s) l = None →
    add_entry api m false t k v = Undefined;
  contains_find m t k s l :
    string_at m k = Some s →
    chains api t !! bucket_index s = Some l → readable m l →
    contains api m t k
    = Returns (bool_decide (is_Some (list_find (key_is m s) l)));
  get_value_find m t k s l :
    string_at m k = Some s →
    chains api t !! bucket_index s = Some l → readable m l →
    get_value api m t k
    = match list_find (key_is m s) l with
      | Some (_, entry) => Returns (value entry)
      | None => Aborted
      end;
}.
End Api.

(** ** Comparing the two variants *)

(** The tables of the two variants hold the same chains, and no mutex is
    held. *)
Definition same_chains (t1 : V1.hash_table_v1) (t2 : V2.hash_table_v2)
  : Prop :=
  V1.mutex t1 = mutex_free
  ∧ Forall (λ b, V2.mutex b = mutex_free) (V2.entries t2)
  ∧ v1_chains t1 = v2_chains t2.

Definition same_outcome {base : hash_table_base}
    (o1 : outcome (V1.hash_table_v1 * answer))
    (o2 : outcome (V2.hash_table_v2 * answer)) : Prop :=
  match o1, o2 with
  | Returns (t1, a1), Returns (t2, a2) => a1 = a2 ∧ same_chains t1 t2
  | Aborted, Aborted | Exited, Exited | Undefined, Undefined
  | Blocked, Blocked => True
  | _, _ => False
  end.

(** ** A small instance, to run the definitions on

    Four buckets, the seed 5381, and a client with the string alice in two
    buffers and the string bob in a third. *)

Definition example_base : hash_table_base := spec_base 4 5381.

Definition example_memory : memory :=
  {[ 100 := "alice"%string; 200 := "alice"%string; 300 := "bob"%string ]}.

Definition example_v1 : V1.hash_table_v1 :=
  {| V1.entries := replicate 4 {| V1.list_head := [] |};
     V1.mutex := mutex_free |}.

Definition example_v2 : V2.hash_table_v2 :=
  {| V2.entries :=
       replicate 4 {| V2.list_head := []; V2.mutex := mutex_free |} |}.

(** * Several threads inserting at once

    The calls of [add_entry] that several threads make on one table, as an
    interleaving of the steps of the function that read or write what the
    threads share: the mutexes and the chains.  Every access to a chain is
    made inside [pthread_mutex_lock] ... [pthread_mutex_unlock] of the mutex
    that guards its bucket, so the insertions are free of data races and
    their executions are the interleavings of these steps.  A mutex is the
    entry of [owners] at its number: the table-wide mutex of variant 1 is
    number 0, the mutex of bucket [i] of variant 2 is number [i].  A thread
    that finds its mutex held waits: it cannot move.  What [calloc] returns
    is decided by the system: the schedule gives it with every step. *)

Inductive locking : Type :=
  | table_lock     (* hash-table-v1.c *)
  | bucket_lock.   (* hash-table-v2.c *)

(** The places of [add_entry] between two such steps. *)
Inductive point : Type :=
  | at_lock                             (* before [pthread_mutex_lock] *)
  | at_find                             (* before [get_list_entry] *)
  | at_update (pos : nat)               (* before [list_entry->value = value] *)
  | at_insert                           (* before [calloc] and the reading of
                                           the head in [SLIST_INSERT_HEAD] *)
  | at_link (next : list list_entry)    (* before the writing of the head in
                                           [SLIST_INSERT_HEAD] *)
  | at_unlock.                          (* before [pthread_mutex_unlock] *)

#[global] Instance point_eq_dec : EqDecision point.
Proof. solve_decision. Defined.

(** A thread: where it is in the call it is making, and the calls it still
    has to make, the one in progress first.  With no call left the thread
    waits at the barrier. *)
Record thread : Type := {
  point_of : point;
  calls : list (Z * Z);
}.

Record machine : Type := {
  buckets : list (list list_entry);
  owners : gmap nat nat;
  threads : list thread;
}.

(** [get_hash_table_entry], which reads the key and not the table. *)
Definition bucket_of {base : hash_table_base} (m : memory) (key : Z)
  : outcome nat :=
  _ ← assert (bool_decide (key ≠ NULL));
  s ← load_string m key;
  let index := bernstein_hash s `mod` HASH_TABLE_CAPACITY in
  mret (Z.to_nat index).

(** The mutex [add_entry] takes: variant 1 locks before it looks at the
    key, variant 2 after it has found the bucket. *)
Definition guard_of {base : hash_table_base} (d : locking) (m : memory)
    (key : Z) : outcome nat :=
  match d with
  | table_lock => mret 0%nat
  | bucket_lock => bucket_of m key
  end.

Definition chain_at (σ : machine) (index : nat)
  : outcome (list list_entry) :=
  match buckets σ !! index with
  | Some l => Returns l
  | None => Undefined
  end.

Definition put_chain (σ : machine) (index : nat) (l : list list_entry)
  : machine :=
  {| buckets := <[index := l]> (buckets σ);
     owners := owners σ; threads := threads σ |}.

Definition put_owners (σ : machine) (o : gmap nat nat) : machine :=
  {| buckets := buckets σ; owners := o; threads := threads σ |}.

Definition move (σ : machine) (i : nat) (p : point) (cs : list (Z * Z))
  : machine :=
  {| buckets := buckets σ; owners := owners σ;
     threads := <[i := {| point_of := p; calls := cs |}]> (threads σ) |}.

(** One step of thread [i]: [None] when the thread cannot move (it waits
    for a mutex or at the barrier, or there is no such thread), else the
    machine after the step or the way the process stops.  [calloc_ok] says
    whether [calloc] has memory, should the step call it. *)
Definition step {base : hash_table_base} (d : locking) (m : memory)
    (calloc_ok : bool) (i : nat) (σ : machine) : option (outcome machine) :=
  match threads σ !! i with
  | None => None
  | Some th =>
      match calls th with
      | [] => None
      | (key, value) :: rest =>
          match point_of th with
          | at_lock =>
              match guard_of d m key with
              | Returns mu =>
                  match owners σ !! mu with
                  | Some _ => None
                  | None =>
                      Some (Returns
                        (move (put_owners σ (<[mu := i]> (owners σ)))
                           i at_find (calls th)))
                  end
              | Aborted => Some Aborted
              | Exited => Some Exited
              | Undefined => Some Undefined
              | Blocked => Some Blocked
              end
          | at_find =>
              Some (index ← bucket_of m key;
                    l ← chain_at σ index;
                    r ← list_foreach m key l;
                    match r with
                    | Some pos => mret (move σ i (at_update pos) (calls th))
                    | None => mret (move σ i at_insert (calls th))
                    end)
          | at_update pos =>
              Some (index ← bucket_of m key;
                    l ← chain_at σ index;
                    mret (move
                      (put_chain σ index (alter (store_value value) pos l))
                      i at_unlock (calls th)))
          | at_insert =>
              Some (index ← bucket_of m key;
                    match calloc_list_entry calloc_ok with
                    | None =>
                        Undefined   (* [list_entry->key = key] through [NULL] *)
                    | Some _ =>
                        l ← chain_at σ index;
                        mret (move σ i (at_link l) (calls th))
                    end)
          | at_link next =>
              Some (index ← bucket_of m key;
                    let list_entry := {| key := key; value := value |} in
                    mret (move (put_chain σ index (list_entry :: next))
                            i at_unlock (calls th)))
          | at_unlock =>
              Some (mu ← guard_of d m key;
                    if decide (owners σ !! mu = Some i)
                    then mret (move (put_owners σ (delete mu (owners σ)))
                                 i at_lock rest)
                    else Undefined)
          end
      end
  end.

(** The machine under a schedule: the threads move in the order the
    schedule names them, each step with the answer [calloc] has for it; a
    thread that cannot move when it is named is passed over. *)
Fixpoint exec {base : hash_table_base} (d : locking) (m : memory)
    (schedule : list (nat * bool)) (σ : machine) : outcome machine :=
  match schedule with
  | [] => Returns σ
  | (i, calloc_ok) :: rest =>
      match step d m calloc_ok i σ with
      | None => exec d m rest σ
      | Some o => σ' ← o; exec d m rest σ'
      end
  end.

(** No allocation of the schedule fails. *)
Definition allocations_succeed (schedule : list (nat * bool)) : Prop :=
  Forall (λ st, st.2 = true) schedule.

#[global] Instance allocations_succeed_dec schedule :
  Decision (allocations_succeed schedule).
Proof. unfold allocations_succeed. apply _. Defined.

(** The threads before their first call, on a table with the given chains
    and all mutexes free. *)
Definition start (chains : list (list list_entry))
    (todo : list (list (Z * Z))) : machine :=
  {| buckets := chains; owners := ∅;
     threads := (λ cs, {| point_of := at_lock; calls := cs |}) <$> todo |}.

(** All threads are at the barrier. *)
Definition finished (σ : machine) : Prop :=
  Forall (λ th, calls th = []) (threads σ).

#[global] Instance finished_dec σ : Decision (finished σ).
Proof. unfold finished. apply _. Defined.

(** The tables the two variants have when the chains are these and no
    mutex is held. *)
Definition v1_table (chains : list (list list_entry)) : V1.hash_table_v1 :=
  {| V1.entries := (λ l, {| V1.list_head := l |}) <$> chains;
     V1.mutex := mutex_free |}.

Definition v2_table (chains : list (list list_entry)) : V2.hash_table_v2 :=
  {| V2.entries :=
       (λ l, {| V2.list_head := l; V2.mutex := mutex_free |}) <$> chains |}.

(** The strings of the keys of a list of calls. *)
Definition call_strings (m : memory) (cs : list (Z * Z))
  : list (option string) :=
  (λ kv, string_at m kv.1) <$> cs.

(** The chains hold a node for the key of the call, with its value. *)
Definition has_value {base : hash_table_base} (m : memory)
    (chains : list (list list_entry)) (kv : Z * Z) : Prop :=
  ∃ s l pos entry,
    string_at m kv.1 = Some s
    ∧ chains !! bucket_index s = Some l
    ∧ list_find (key_is m s) l = Some (pos, entry)
    ∧ value entry = kv.2.

(** The value the chains hold for the string [s], if any. *)
Definition lookup_value {base : hash_table_base} (m : memory)
    (chains : list (list list_entry)) (s : string) : option Z :=
  l ← chains !! bucket_index s;
  (λ found, value found.2) <$> list_find (key_is m s) l.

(** The number of the mutex [add_entry] takes for a key that reads [s]. *)
Definition mutex_no {base : hash_table_base} (d : locking) (s : string)
  : nat :=
  match d with
  | table_lock => 0%nat
  | bucket_lock => bucket_index s
  end.

(** What a thread at a point of [add_entry] knows of the chain [l] of its
    bucket, for a key that reads [s] and the value [v]. *)
Definition point_ok (m : memory) (l : list list_entry) (s : string) (v : Z)
    (p : point) : Prop :=
  match p with
  | at_lock | at_find => True
  | at_update pos => ∃ entry, list_find (key_is m s) l = Some (pos, entry)
  | at_insert => list_find (key_is m s) l = None
  | at_link next => next = l ∧ list_find (key_is m s) l = None
  | at_unlock =>
      ∃ pos entry,
        list_find (key_is m s) l = Some (pos, entry) ∧ value entry = v
  end.

(** Thread [i], which started with the calls [c0]: the calls it has made
    are in the table, and past [at_lock] it owns the mutex of its bucket. *)
Definition thread_ok {base : hash_table_base} (d : locking) (m : memory)
    (σ : machine) (i : nat) (c0 : list (Z * Z)) (th : thread) : Prop :=
  ∃ made,
    c0 = made ++ calls th
    ∧ Forall (has_value m (buckets σ)) made
    ∧ match calls th with
      | [] => point_of th = at_lock
      | (k, v) :: _ =>
          ∃ s l,
            string_at m k = Some s
            ∧ buckets σ !! bucket_index s = Some l
            ∧ (point_of th ≠ at_lock →
               owners σ !! mutex_no d s = Some i)
            ∧ point_ok m l s v (point_of th)
      end.

(** The thread is between the locking and the unlocking of mutex [mu]. *)
Definition inside {base : hash_table_base} (d : locking) (m : memory)
    (mu : nat) (th : thread) : Prop :=
  point_of th ≠ at_lock
  ∧ ∃ k v rest s,
      calls th = (k, v) :: rest
      ∧ string_at m k = Some s ∧ mutex_no d s = mu.

(** The invariant of the machine, for threads that started with the calls
    [todo] on a table with the chains [chains0]. *)
Record invariant {base : hash_table_base} (d : locking) (m : memory)
    (chains0 : list (list list_entry)) (todo : list (list (Z * Z)))
    (σ : machine) : Prop := {
  inv_length : length (buckets σ) = Z.to_nat HASH_TABLE_CAPACITY;
  inv_readable : Forall (readable m) (buckets σ);
  inv_chains : chains_ok m (buckets σ);
  inv_count : length (threads σ) = length todo;
  inv_thread i th :
    threads σ !! i = Some th →
    ∃ c0, todo !! i = Some c0 ∧ thread_ok d m σ i c0 th;
  inv_owner mu i :
    owners σ !! mu = Some i →
    ∃ th, threads σ !! i = Some th ∧ inside d m mu th;
  inv_others s :
    Some s ∉ call_strings m (mjoin todo) →
    lookup_value m (buckets σ) s = lookup_value m chains0 s;
}.

(** The steps a thread has left: five for each call, less those made of
    the call in progress. *)
Definition steps_made (p : point) : nat :=
  match p with
  | at_lock => 0
  | at_find => 1
  | at_update _ | at_insert => 2
  | at_link _ => 3
  | at_unlock => 4
  end.

Definition steps_left (σ : machine) : nat :=
  sum_list ((λ th, 5 * length (calls th) - steps_made (point_of th))%nat
            <$> threads σ).

(** What a client sees of the call [kv] on the table [t]: the key is
    there, with the value of the call, in exactly one node. *)
Definition inserted {base : hash_table_base} (api : table_api) (m : memory)
    (t : table api) (kv : Z * Z) : Prop :=
  contains api m t kv.1 = Returns true
  ∧ get_value api m t kv.1 = Returns kv.2
  ∧ ∃ s, string_at m kv.1 = Some s
         ∧ entries_for m s (chains api t) = 1%nat.

(** The threads of a small instance: two threads, one call each. *)
Definition example_todo : list (list (Z * Z)) := [[(100, 1)]; [(300, 2)]].

(** The machine runs safely under a schedule: the process does not stop,
    some thread can move as long as a call is left, the threads can be
    scheduled on to the barrier, and [at_barrier] holds if they are
    there. *)
Definition runs_safely {base : hash_table_base} (d : locking) (m : memory)
    (σ0 : machine) (schedule : list (nat * bool))
    (at_barrier : machine → Prop) : Prop :=
  ∃ σ, exec d m schedule σ0 = Returns σ
       ∧ (¬ finished σ → ∃ i, ∀ calloc_ok, is_Some (step d m calloc_ok i σ))
       ∧ (∃ more σ', exec d m more σ = Returns σ' ∧ finished σ')
       ∧ (finished σ → at_barrier σ).

(** What the client finds at the barrier on the table [t] with the chains
    of the machine: the invariant of the data model, every call of every
    thread, and for the strings no thread inserted what the table held for
    them at the start. *)
Definition all_present {base : hash_table_base} (api : table_api)
    (m : memory) (chains0 : list (list list_entry))
    (todo : list (list (Z * Z))) (t : table api) : Prop :=
  chains_ok m (chains api t)
  ∧ Forall (inserted api m t) (mjoin todo)
  ∧ ∀ s, Some s ∉ call_strings m (mjoin todo) →
         lookup_value m (chains api t) s = lookup_value m chains0 s.

(** * Tearing a table down *)

Definition EBUSY : Z := 16.

(** [pthread_mutex_destroy], as one thread sees it: a free mutex is
    destroyed, a held one is refused. *)
Definition pthread_mutex_destroy (mu : pthread_mutex_t) : Z :=
  match mu with
  | mutex_free => 0
  | mutex_held => EBUSY
  end.

(** The loop [while (!SLIST_EMPTY(list_head)) { list_entry =
    SLIST_FIRST(list_head); SLIST_REMOVE_HEAD(list_head, pointers);
    free(list_entry); }] that both files write: the nodes handed to [free],
    in the order of the calls. *)
Fixpoint free_chain (l : list list_entry) : list list_entry :=
  match l with
  | [] => []
  | list_entry :: rest => list_entry :: free_chain rest
  end.

(** The [for] loop of [hash_table_v1_destroy] over the indices of the
    array. *)
Fixpoint v1_destroy_loop (hash_table : V1.hash_table_v1)
    (indices : list nat) : outcome (list list_entry) :=
  match indices with
  | [] => mret []
  | i :: rest =>
      entry ← V1.bucket hash_table i;
      let freed := free_chain (V1.list_head entry) in
      more ← v1_destroy_loop hash_table rest;
      mret (freed ++ more)
  end.

(** [hash_table_v1_destroy]: the nodes it frees, when it returns (and then
    it has freed the table too). *)
Definition hash_table_v1_destroy {base : hash_table_base}
    (hash_table : V1.hash_table_v1) : outcome (list list_entry) :=
  freed ← v1_destroy_loop hash_table (seq 0 (Z.to_nat HASH_TABLE_CAPACITY));
  if decide (pthread_mutex_destroy (V1.mutex hash_table) ≠ 0) then Exited
  else mret freed.

(** The [for] loop of [hash_table_v2_destroy]: each round frees a chain and
    then destroys the mutex of the bucket. *)
Fixpoint v2_destroy_loop (hash_table : V2.hash_table_v2)
    (indices : list nat) : outcome (list list_entry) :=
  match indices with
  | [] => mret []
  | i :: rest =>
      entry ← V2.bucket hash_table i;
      let freed := free_chain (V2.list_head entry) in
      if decide (pthread_mutex_destroy (V2.mutex entry) ≠ 0) then Exited
      else more ← v2_destroy_loop hash_table rest; mret (freed ++ more)
  end.

Definition hash_table_v2_destroy {base : hash_table_base}
    (hash_table : V2.hash_table_v2) : outcome (list list_entry) :=
  v2_destroy_loop hash_table (seq 0 (Z.to_nat HASH_TABLE_CAPACITY)).

(** * Notions for the further properties *)

(** The value a sequence of insertions leaves for the string [s], over
    what was there before: that of the last insertion whose key reads
    [s]. *)
Definition last_value (m : memory) (s : string) (before : option Z)
    (kvs : list (Z * Z)) : option Z :=
  foldl (λ found kv,
           if decide (string_at m kv.1 = Some s) then Some kv.2 else found)
    before kvs.

(** The strings of all the nodes of a table, bucket by bucket. *)
Definition all_strings (m : memory) (chains : list (list list_entry))
  : list (option string) :=
  mjoin (chain_strings m <$> chains).

(** What a lookup of the string [s] answers on these chains. *)
Definition contains_answer {base : hash_table_base} (m : memory)
    (chains : list (list list_entry)) (s : string) : outcome bool :=
  Returns (bool_decide (is_Some (lookup_value m chains s))).

Definition get_value_answer {base : hash_table_base} (m : memory)
    (chains : list (list list_entry)) (s : string) : outcome Z :=
  match lookup_value m chains s with
  | Some v => Returns v
  | None => Aborted
  end.

(** Thread [i] is between the locking and the unlocking of the mutex with
    number [mu]. *)
Definition holds {base : hash_table_base} (d : locking) (m : memory)
    (σ : machine) (i mu : nat) : Prop :=
  ∃ th k v rest,
    threads σ !! i = Some th
    ∧ point_of th ≠ at_lock
    ∧ calls th = (k, v) :: rest
    ∧ guard_of d m k = Returns mu.

(** The mutexes, for the threads that hold them. *)
Definition owners_ok {base : hash_table_base} (d : locking) (m : memory)
    (σ : machine) : Prop :=
  ∀ i mu, holds d m σ i mu → owners σ !! mu = Some i.

(** Where thread [i] is. *)
Definition point_at (σ : machine) (i : nat) : option point :=
  point_of <$> threads σ !! i.

(** A table of the small instance with bob and alice in it, and the same
    chains while another thread holds the mutexes. *)
Definition example_chains : list (list list_entry) :=
  [[{| key := 300; value := 2 |}]; []; [];
   [{| key := 100; value := 1 |}]].

Definition example_v1_held : V1.hash_table_v1 :=
  {| V1.entries := (λ l, {| V1.list_head := l |}) <$> example_chains;
     V1.mutex := mutex_held |}.

Definition example_v2_held : V2.hash_table_v2 :=
  {| V2.entries :=
       (λ l, {| V2.list_head := l; V2.mutex := mutex_held |})
       <$> example_chains |}.

(** The machine with the chains [b] and the owners [o] in which thread [i]
    is at the point [p] of the calls [cs], the other threads as in
    [ths]. *)
Definition at_point (b : list (list list_entry)) (o : gmap nat nat)
    (ths : list thread) (i : nat) (p : point) (cs : list (Z * Z))
  : machine :=
  {| buckets := b; owners := o;
     threads := <[i := {| point_of := p; calls := cs |}]> ths |}.
Arguments at_point : simpl never.

(** The calls of a thread that started with the calls [c0] whose write to
    the chain has been made: the calls that are over, and the call in
    progress once it is past its write. *)
Definition written_by (c0 : list (Z * Z)) (th : thread) : list (Z * Z) :=
  take (length c0 - length (calls th)
        + (if decide (point_of th = at_unlock) then 1 else 0))%nat c0.

Definition written (todo : list (list (Z * Z))) (σ : machine)
  : list (Z * Z) :=
  mjoin (zip_with written_by todo (threads σ)).

(** The chains are those one thread gets on the table [t0] by making the
    calls one after the other with [add_entry], in some order. *)
Definition sequential {base : hash_table_base} (api : table_api)
    (m : memory) (t0 : table api) (calls : list (Z * Z))
    (result : list (list list_entry)) : Prop :=
  ∃ order t,
    order ≡ₚ calls
    ∧ add_entries api m t0 order = Returns t
    ∧ chains api t = result.

(** The chains of the machine are those one thread gets on the table [t0]
    by making, in some order, the calls whose write has been made. *)
Definition linearised {base : hash_table_base} (api : table_api)
    (m : memory) (t0 : table api) (todo : list (list (Z * Z)))
    (σ : machine) : Prop :=
  ∃ order t,
    order ≡ₚ written todo σ
    ∧ add_entries api m t0 order = Returns t
    ∧ wf api m t
    ∧ chains api t = buckets σ.

(** The table holds the string [s] with the value [v]: a node of one of
    its chains has a key that reads [s], and the value [v]. *)
Definition stored (m : memory) (chains : list (list list_entry))
    (s : string) (v : Z) : Prop :=
  ∃ l entry, l ∈ chains ∧ entry ∈ l ∧ key_is m s entry ∧ value entry = v.

(** The string [s] is absent from the table: no node of any chain has a
    key that reads [s]. *)
Definition absent (m : memory) (chains : list (list list_entry))
    (s : string) : Prop :=
  ∀ l entry, l ∈ chains → entry ∈ l → ¬ key_is m s entry.

(** * Lemmas on the environment and on chains *)

Lemma strcmp_0 (s1 s2 : string) : strcmp s1 s2 = 0 ↔ s1 = s2.
Proof.
  unfold strcmp. split.
  - intros H. apply String.compare_eq_iff.
    by destruct (String.compare s1 s2).
  - intros ->. pose proof (String.compare_antisym s2 s2) as H.
    by destruct (String.compare s2 s2).
Qed.

Lemma load_string_Some (m : memory) (p : Z) (s : string) :
  string_at m p = Some s → load_string m p = Returns s.
Proof. unfold load_string. by intros ->. Qed.

Lemma string_at_not_NULL (m : memory) (p : Z) :
  is_Some (string_at m p) → p ≠ NULL.
Proof.
  unfold string_at. intros [s Hs]. by destruct (decide (p = NULL)).
Qed.

Lemma lock_free : lock_or_exit mutex_free = Returns mutex_held.
Proof. reflexivity. Qed.

Lemma unlock_held : unlock_or_exit mutex_held = Returns mutex_free.
Proof. reflexivity. Qed.

Lemma store_value_key (v : Z) (entry : list_entry) :
  key (store_value v entry) = key entry.
Proof. by destruct entry. Qed.

Lemma store_value_value (v : Z) (entry : list_entry) :
  value (store_value v entry) = v.
Proof. by destruct entry. Qed.

(** The loop of [get_list_entry] finds the first node pointing to the
    string of the key, provided every string it has to read is there. *)
Lemma list_foreach_find (m : memory) (k : Z) (s : string)
    (l : list list_entry) :
  string_at m k = Some s → readable m l →
  list_foreach m k l = Returns (fst <$> list_find (key_is m s) l).
Proof.
  intros Hk. induction 1 as [|[p v] l [s' Hp] Hl IH]; [done|].
  cbn in Hp. cbn [list_foreach list_find]. unfold strcmp_at.
  rewrite (load_string_Some _ _ _ Hp), (load_string_Some _ _ _ Hk). cbn.
  destruct (decide (strcmp s' s = 0)) as [Heq|Hne].
  - apply strcmp_0 in Heq as ->.
    rewrite decide_True by done. done.
  - rewrite decide_False; last first.
    { unfold key_is; cbn. rewrite Hp. intros [= ->]. by apply Hne, strcmp_0. }
    rewrite IH. cbn. by destruct (list_find _ l) as [[??]|].
Qed.

Lemma alter_store_value_keys (v : Z) (pos : nat) (l : list list_entry) :
  chain_keys (alter (store_value v) pos l) = chain_keys l.
Proof.
  unfold chain_keys. revert pos. induction l as [|e l IH]; intros [|pos]; cbn; [done..| |].
  - by rewrite store_value_key.
  - f_equal. apply IH.
Qed.

Lemma alter_store_value_strings (m : memory) (v : Z) (pos : nat)
    (l : list list_entry) :
  chain_strings m (alter (store_value v) pos l) = chain_strings m l.
Proof.
  unfold chain_strings.
  change (λ entry, string_at m (key entry)) with (string_at m ∘ key).
  rewrite !list_fmap_compose. fold (chain_keys l).
  by rewrite <- (alter_store_value_keys v pos l).
Qed.

Lemma readable_strings (m : memory) (l : list list_entry) :
  readable m l ↔ Forall is_Some (chain_strings m l).
Proof. unfold readable, chain_strings. by rewrite Forall_fmap. Qed.

Lemma key_is_strings (m : memory) (s : string) (l : list list_entry) :
  Forall (λ entry, ¬ key_is m s entry) l ↔ Some s ∉ chain_strings m l.
Proof.
  unfold chain_strings, key_is. rewrite list_elem_of_fmap, Forall_forall.
  split.
  - intros H (e & He & Hin). by apply (H e).
  - intros H e Hin He. apply H. by exists e.
Qed.

Section ChainPut.
Context (m : memory) (s : string) (k v : Z).
Hypothesis Hk : string_at m k = Some s.

Lemma chain_put_keys (l : list list_entry) :
  chain_keys (chain_put m s k v l)
  = match list_find (key_is m s) l with
    | Some _ => chain_keys l
    | None => k :: chain_keys l
    end.
Proof.
  unfold chain_put. destruct (list_find _ l) as [[pos e]|]; [|done].
  apply alter_store_value_keys.
Qed.

Lemma chain_put_strings (l : list list_entry) :
  chain_strings m (chain_put m s k v l)
  = match list_find (key_is m s) l with
    | Some _ => chain_strings m l
    | None => Some s :: chain_strings m l
    end.
Proof.
  unfold chain_put. destruct (list_find _ l) as [[pos e]|].
  - apply alter_store_value_strings.
  - unfold chain_strings. cbn. by rewrite Hk.
Qed.

Lemma chain_put_readable (l : list list_entry) :
  readable m l → readable m (chain_put m s k v l).
Proof.
  rewrite !readable_strings, chain_put_strings.
  destruct (list_find _ l); [done|]. constructor; [by eexists|done].
Qed.

(** After find-or-insert the first node for [s] carries [v]. *)
Lemma chain_put_find (l : list list_entry) :
  ∃ pos entry,
    list_find (key_is m s) (chain_put m s k v l) = Some (pos, entry)
    ∧ value entry = v.
Proof.
  unfold chain_put.
  destruct (list_find _ l) as [[pos e]|] eqn:Hfind.
  - apply list_find_Some in Hfind as (Hpos & He & Hfirst).
    exists pos, (store_value v e). split; [|apply store_value_value].
    apply list_find_Some. split_and!.
    + by rewrite list_lookup_alter_eq, Hpos.
    + unfold key_is in *. by rewrite store_value_key.
    + intros j y Hj Hlt. rewrite list_lookup_alter_ne in Hj by lia. eauto.
  - exists 0%nat, {| key := k; value := v |}. split; [|done].
    cbn. by rewrite decide_True.
Qed.

Lemma chain_put_ok {base : hash_table_base} (l : list list_entry) :
  chain_ok m (bucket_index s) l →
  chain_ok m (bucket_index s) (chain_put m s k v l).
Proof.
  intros [Hplace Hnodup]. split.
  - rewrite chain_put_strings. destruct (list_find _ l); [done|].
    by constructor.
  - rewrite chain_put_strings.
    destruct (list_find _ l) eqn:Hfind; [done|].
    apply NoDup_cons. split; [|done].
    by rewrite <- key_is_strings, <- list_find_None.
Qed.

Lemma chain_put_elem (l : list list_entry) :
  Some s ∈ chain_strings m (chain_put m s k v l).
Proof.
  rewrite chain_put_strings.
  destruct (list_find _ l) as [[pos e]|] eqn:Hfind; [|by left].
  apply list_find_Some in Hfind as (Hpos & He & _).
  apply list_elem_of_fmap. exists e. split; [done|].
  by eapply list_elem_of_lookup_2.
Qed.

Lemma chain_put_NoDup (l : list list_entry) :
  NoDup (chain_strings m l) → NoDup (chain_strings m (chain_put m s k v l)).
Proof.
  intros Hnodup. rewrite chain_put_strings.
  destruct (list_find _ l) eqn:Hfind; [done|].
  apply NoDup_cons. split; [|done].
  by rewrite <- key_is_strings, <- list_find_None.
Qed.
End ChainPut.

Lemma filter_key_is_length (m : memory) (s : string) (l : list list_entry) :
  length (filter (key_is m s) l)
  = length (filter (λ o, o = Some s) (chain_strings m l)).
Proof.
  induction l as [|e l IH]; [done|].
  unfold chain_strings in *. rewrite fmap_cons, !filter_cons.
  unfold key_is at 1.
  destruct (decide (string_at m (key e) = Some s)); cbn; by rewrite IH.
Qed.

Lemma filter_none {A} (P : A → Prop) `{!∀ x, Decision (P x)} (l : list A) :
  Forall (λ x, ¬ P x) l → filter P l = [].
Proof.
  induction 1 as [|x l Hx Hl IH]; [done|].
  by rewrite filter_cons_False.
Qed.

Lemma NoDup_filter_eq_length {A} `{EqDecision A} (x : A) (xs : list A) :
  NoDup xs → x ∈ xs → length (filter (λ y, y = x) xs) = 1%nat.
Proof.
  induction 1 as [|y xs Hy Hxs IH]; [by intros ?%elem_of_nil|].
  rewrite filter_cons. intros [->|Hin]%elem_of_cons.
  - rewrite decide_True by done. cbn. f_equal.
    apply length_zero_iff_nil, filter_none, Forall_forall.
    intros z Hz ->. contradiction.
  - rewrite decide_False; [by apply IH|]. intros ->. contradiction.
Qed.

Lemma sum_list_zero (ns : list nat) :
  Forall (λ x, x = 0%nat) ns → sum_list ns = 0%nat.
Proof. induction 1 as [|x ns -> _ IH]; [done|]. cbn. by rewrite IH. Qed.

Lemma sum_list_single (ns : list nat) (i n : nat) :
  ns !! i = Some n →
  (∀ j x, ns !! j = Some x → j ≠ i → x = 0%nat) →
  sum_list ns = n.
Proof.
  revert i. induction ns as [|x ns IH]; intros [|i] Hi Hrest; try done.
  - injection Hi as ->. cbn. rewrite sum_list_zero; [lia|].
    apply Forall_lookup. intros j y Hj. by apply (Hrest (S j) y).
  - cbn. rewrite (Hrest 0%nat x) by done. cbn.
    apply (IH i); [done|]. intros j y Hj Hne. apply (Hrest (S j) y); [done|lia].
Qed.

(** In a table that satisfies the invariant, the nodes for [s] are those of
    the bucket [s] is routed to. *)
Lemma entries_for_bucket {base : hash_table_base} (m : memory) (s : string)
    (chains : list (list list_entry)) (l : list list_entry) :
  chains_ok m chains → chains !! bucket_index s = Some l →
  entries_for m s chains = length (filter (key_is m s) l).
Proof.
  intros Hok Hl. unfold entries_for.
  apply (sum_list_single _ (bucket_index s)).
  - by rewrite list_lookup_fmap, Hl.
  - intros j x Hj Hne. rewrite list_lookup_fmap in Hj.
    destruct (chains !! j) as [l'|] eqn:Hl'; [|done]. injection Hj as <-.
    apply length_zero_iff_nil, filter_none, Forall_forall.
    intros e He Hs. destruct (Hok j l' Hl') as [Hplace _].
    rewrite Forall_forall in Hplace.
    specialize (Hplace (string_at m (key e))). unfold key_is in Hs.
    rewrite Hs in Hplace. cbn in Hplace.
    assert (Some (bucket_index s) = Some j) as [= ?]; [|done].
    apply Hplace. rewrite <- Hs. apply list_elem_of_fmap. by exists e.
Qed.

Lemma bucket_index_lt {base : hash_table_base} (s : string) :
  0 < HASH_TABLE_CAPACITY →
  (bucket_index s < Z.to_nat HASH_TABLE_CAPACITY)%nat.
Proof.
  intros Hcap. unfold bucket_index.
  pose proof (Z.mod_pos_bound (bernstein_hash s) HASH_TABLE_CAPACITY Hcap).
  lia.
Qed.

Lemma chains_ok_insert {base : hash_table_base} (m : memory)
    (chains : list (list list_entry)) (i : nat) (l : list list_entry) :
  chains_ok m chains → chain_ok m i l → chains_ok m (<[i := l]> chains).
Proof.
  intros Hok Hl j l' Hj. destruct (decide (i = j)) as [->|Hne].
  - rewrite list_lookup_insert in Hj. case_decide as Hc.
    + by injection Hj as <-.
    + by apply Hok.
  - rewrite list_lookup_insert_ne in Hj by done. by apply Hok.
Qed.

(** * Variant 1 against the interface *)

Section V1Facts.
Context {base : hash_table_base}.
Import V1.

Lemma v1_get_hash_table_entry (m : memory) (t : hash_table_v1) (k : Z)
    (s : string) :
  string_at m k = Some s →
  get_hash_table_entry m t k = Returns (bucket_index s).
Proof.
  intros Hk. unfold get_hash_table_entry.
  rewrite bool_decide_eq_true_2 by (apply (string_at_not_NULL m); eauto).
  cbn. by rewrite (load_string_Some _ _ _ Hk).
Qed.

Lemma v1_get_list_entry (m : memory) (t : hash_table_v1) (k : Z)
    (s : string) (l : list list_entry) :
  string_at m k = Some s → readable m l →
  get_list_entry m t k l = Returns (fst <$> list_find (key_is m s) l).
Proof.
  intros Hk Hl. unfold get_list_entry.
  rewrite bool_decide_eq_true_2 by (apply (string_at_not_NULL m); eauto).
  cbn. by apply list_foreach_find.
Qed.

Lemma v1_chain_bucket (t : hash_table_v1) (i : nat) (l : list list_entry) :
  v1_chains t !! i = Some l →
  bucket t i = Returns {| list_head := l |}.
Proof.
  unfold v1_chains, bucket. rewrite list_lookup_fmap.
  destruct (entries t !! i) as [[l']|]; [|done]. by intros [= ->].
Qed.

Lemma v1_laws : table_laws v1_api.
Proof.
  split.
  - intros m calloc_ok t k v s l (Hlen & Hmu & Hread) Hk Hl Halloc.
    cbn in Hmu, Hread, Hl |- *.
    assert (readable m l) as Hrl
      by apply (proj1 (Forall_lookup _ _) Hread _ _ Hl).
    exists (with_chain t (bucket_index s) (chain_put m s k v l)).
    split_and!; [|done|].
    + unfold hash_table_v1_add_entry. rewrite Hmu, lock_free. cbn.
      rewrite (v1_get_hash_table_entry _ _ _ _ Hk). cbn.
      rewrite (v1_chain_bucket (with_mutex t mutex_held) _ _ Hl). cbn.
      rewrite (v1_get_list_entry _ _ _ _ _ Hk Hrl). cbn.
      unfold chain_put, with_chain, with_mutex in *. cbn.
      destruct (list_find _ l) as [[pos e]|]; cbn; [by rewrite Hmu|].
      destruct Halloc as [->|[? [=]]]. cbn. by rewrite Hmu.
    + unfold v1_chains, with_chain. cbn. by rewrite list_fmap_insert.
  - intros m t k v s l (Hlen & Hmu & Hread) Hk Hl Hnew.
    cbn in Hmu, Hread, Hl |- *.
    assert (readable m l) as Hrl
      by apply (proj1 (Forall_lookup _ _) Hread _ _ Hl).
    unfold hash_table_v1_add_entry. rewrite Hmu, lock_free. cbn.
    rewrite (v1_get_hash_table_entry _ _ _ _ Hk). cbn.
    rewrite (v1_chain_bucket (with_mutex t mutex_held) _ _ Hl). cbn.
    rewrite (v1_get_list_entry _ _ _ _ _ Hk Hrl). cbn.
    by rewrite Hnew.
  - intros m t k s l Hk Hl Hrl. cbn in Hl |- *.
    unfold hash_table_v1_contains.
    rewrite (v1_get_hash_table_entry _ _ _ _ Hk). cbn.
    rewrite (v1_chain_bucket _ _ _ Hl). cbn.
    rewrite (v1_get_list_entry _ _ _ _ _ Hk Hrl). cbn.
    f_equal. apply bool_decide_ext.
    destruct (list_find _ l); cbn; split; intros Hx;
      first [done | by eexists | by destruct Hx].
  - intros m t k s l Hk Hl Hrl. cbn in Hl |- *.
    unfold hash_table_v1_get_value.
    rewrite (v1_get_hash_table_entry _ _ _ _ Hk). cbn.
    rewrite (v1_chain_bucket _ _ _ Hl). cbn.
    rewrite (v1_get_list_entry _ _ _ _ _ Hk Hrl). cbn.
    destruct (list_find _ l) as [[pos e]|] eqn:Hfind; cbn; [|done].
    apply list_find_Some in Hfind as (Hpos & _).
    unfold load_value. by rewrite Hpos.
Qed.
End V1Facts.

(** * Variant 2 against the interface *)

Section V2Facts.
Context {base : hash_table_base}.
Import V2.

Lemma v2_get_hash_table_entry (m : memory) (t : hash_table_v2) (k : Z)
    (s : string) :
  string_at m k = Some s →
  get_hash_table_entry m t k = Returns (bucket_index s).
Proof.
  intros Hk. unfold get_hash_table_entry.
  rewrite bool_decide_eq_true_2 by (apply (string_at_not_NULL m); eauto).
  cbn. by rewrite (load_string_Some _ _ _ Hk).
Qed.

Lemma v2_get_list_entry (m : memory) (t : hash_table_v2) (k : Z)
    (s : string) (l : list list_entry) :
  string_at m k = Some s → readable m l →
  get_list_entry m t k l = Returns (fst <$> list_find (key_is m s) l).
Proof.
  intros Hk Hl. unfold get_list_entry.
  rewrite bool_decide_eq_true_2 by (apply (string_at_not_NULL m); eauto).
  cbn. by apply list_foreach_find.
Qed.

Lemma v2_chain_bucket (t : hash_table_v2) (i : nat) (l : list list_entry) :
  v2_chains t !! i = Some l →
  ∃ b, entries t !! i = Some b ∧ list_head b = l
       ∧ bucket t i = Returns b.
Proof.
  unfold v2_chains, bucket. rewrite list_lookup_fmap.
  destruct (entries t !! i) as [b|]; [|done]. intros [= <-]. eauto.
Qed.

Lemma v2_laws : table_laws v2_api.
Proof.
  split.
  - intros m calloc_ok t k v s l (Hlen & Hmu & Hread) Hk Hl Halloc.
    cbn in Hmu, Hread, Hl |- *.
    assert (readable m l) as Hrl
      by apply (proj1 (Forall_lookup _ _) Hread _ _ Hl).
    destruct (v2_chain_bucket _ _ _ Hl) as (b & Hb & <- & Hbucket).
    assert (mutex b = mutex_free) as Hfree
      by apply (proj1 (Forall_lookup _ _) Hmu _ _ Hb).
    exists (with_bucket t (bucket_index s)
              {| list_head := chain_put m s k v (list_head b);
                 mutex := mutex_free |}).
    split_and!.
    + unfold hash_table_v2_add_entry.
      rewrite (v2_get_hash_table_entry _ _ _ _ Hk). cbn.
      rewrite Hbucket. cbn. rewrite Hfree, lock_free. cbn.
      rewrite (v2_get_list_entry _ _ _ _ _ Hk Hrl). cbn.
      unfold chain_put.
      destruct (list_find _ (list_head b)) as [[pos e]|]; cbn.
      * rewrite decide_False by (by intros ?).
        unfold with_bucket. cbn. by rewrite list_insert_insert_eq.
      * destruct Halloc as [->|[? [=]]]. cbn.
        rewrite decide_False by (by intros ?).
        unfold with_bucket. cbn. by rewrite list_insert_insert_eq.
    + cbn. by apply Forall_insert.
    + unfold v2_chains, with_bucket. cbn. by rewrite list_fmap_insert.
  - intros m t k v s l (Hlen & Hmu & Hread) Hk Hl Hnew.
    cbn in Hmu, Hread, Hl |- *.
    assert (readable m l) as Hrl
      by apply (proj1 (Forall_lookup _ _) Hread _ _ Hl).
    destruct (v2_chain_bucket _ _ _ Hl) as (b & Hb & <- & Hbucket).
    assert (mutex b = mutex_free) as Hfree
      by apply (proj1 (Forall_lookup _ _) Hmu _ _ Hb).
    unfold hash_table_v2_add_entry.
    rewrite (v2_get_hash_table_entry _ _ _ _ Hk). cbn.
    rewrite Hbucket. cbn. rewrite Hfree, lock_free. cbn.
    rewrite (v2_get_list_entry _ _ _ _ _ Hk Hrl). cbn.
    by rewrite Hnew.
  - intros m t k s l Hk Hl Hrl. cbn in Hl |- *.
    destruct (v2_chain_bucket _ _ _ Hl) as (b & Hb & <- & Hbucket).
    unfold hash_table_v2_contains.
    rewrite (v2_get_hash_table_entry _ _ _ _ Hk). cbn.
    rewrite Hbucket. cbn.
    rewrite (v2_get_list_entry _ _ _ _ _ Hk Hrl). cbn.
    f_equal. apply bool_decide_ext.
    destruct (list_find _ (list_head b)); cbn; split; intros Hx;
      first [done | by eexists | by destruct Hx].
  - intros m t k s l Hk Hl Hrl. cbn in Hl |- *.
    destruct (v2_chain_bucket _ _ _ Hl) as (b & Hb & <- & Hbucket).
    unfold hash_table_v2_get_value.
    rewrite (v2_get_hash_table_entry _ _ _ _ Hk). cbn.
    rewrite Hbucket. cbn.
    rewrite (v2_get_list_entry _ _ _ _ _ Hk Hrl). cbn.
    destruct (list_find _ (list_head b)) as [[pos e]|] eqn:Hfind; cbn;
      [|done].
    apply list_find_Some in Hfind as (Hpos & _).
    unfold load_value. by rewrite Hpos.
Qed.
End V2Facts.

(** * Properties of any variant that satisfies the interface laws *)

Section Generic.
Context {base : hash_table_base} (api : table_api).
Hypothesis laws : table_laws api.
Hypothesis capacity_pos : 0 < HASH_TABLE_CAPACITY.

Lemma wf_chain (m : memory) (t : table api) (s : string) :
  wf api m t →
  ∃ l, chains api t !! bucket_index s = Some l ∧ readable m l.
Proof.
  intros (Hlen & _ & Hread).
  destruct (lookup_lt_is_Some_2 (chains api t) (bucket_index s)) as [l Hl].
  { rewrite Hlen. by apply bucket_index_lt. }
  exists l. split; [done|].
  by apply (proj1 (Forall_lookup _ _) Hread (bucket_index s)).
Qed.

(** One insertion, seen on the chains. *)
Lemma add_entry_chains (m : memory) (calloc_ok : bool) (t : table api)
    (k v : Z) (s : string) (l : list list_entry) :
  wf api m t → string_at m k = Some s →
  chains api t !! bucket_index s = Some l →
  calloc_ok = true ∨ is_Some (list_find (key_is m s) l) →
  ∃ t', add_entry api m calloc_ok t k v = Returns t'
        ∧ wf api m t'
        ∧ chains api t' = <[bucket_index s := chain_put m s k v l]> (chains api t)
        ∧ chains api t' !! bucket_index s = Some (chain_put m s k v l).
Proof.
  intros Hwf Hk Hl Halloc.
  destruct (add_entry_returns api laws m calloc_ok t k v s l)
    as (t' & Hadd & Hfree & Hchains); [done..|].
  assert (readable m l) as Hrl.
  { destruct Hwf as (_ & _ & Hread).
    by apply (proj1 (Forall_lookup _ _) Hread (bucket_index s)). }
  exists t'. split_and!; [done| |done|].
  - destruct Hwf as (Hlen & _ & Hread). split_and!; [|done|].
    + by rewrite Hchains, length_insert.
    + rewrite Hchains. apply Forall_insert; [done|].
      by apply chain_put_readable.
  - rewrite Hchains. apply list_lookup_insert_eq.
    by eapply lookup_lt_Some.
Qed.

Lemma add_entry_table_ok (m : memory) (t : table api) (k v : Z) :
  table_ok api m t → is_Some (string_at m k) →
  ∃ t', add_entry api m true t k v = Returns t' ∧ table_ok api m t'.
Proof.
  intros [Hwf Hok] [s Hk].
  destruct (wf_chain m t s Hwf) as (l & Hl & Hrl).
  destruct (add_entry_chains m true t k v s l)
    as (t' & Hadd & Hwf' & Hchains & _); [by auto..|].
  exists t'. split; [done|]. split; [done|].
  rewrite Hchains. apply chains_ok_insert; [done|].
  apply chain_put_ok; [done|]. by apply Hok.
Qed.

Lemma add_entries_table_ok (m : memory) (t : table api)
    (kvs : list (Z * Z)) :
  table_ok api m t → Forall (λ kv, is_Some (string_at m kv.1)) kvs →
  ∃ t', add_entries api m t kvs = Returns t' ∧ table_ok api m t'.
Proof.
  intros Hok Hkvs. revert t Hok.
  induction Hkvs as [|[k v] kvs Hk _ IH]; intros t Hok; cbn.
  - by exists t.
  - destruct (add_entry_table_ok m t k v Hok Hk) as (t1 & -> & Hok1).
    cbn. by apply IH.
Qed.

(** Looking a key up after its insertion. *)
Lemma add_entry_lookup (m : memory) (t : table api) (k v : Z) :
  wf api m t → is_Some (string_at m k) →
  ∃ t', add_entry api m true t k v = Returns t'
        ∧ contains api m t' k = Returns true
        ∧ get_value api m t' k = Returns v.
Proof.
  intros Hwf [s Hk].
  destruct (wf_chain m t s Hwf) as (l & Hl & Hrl).
  destruct (add_entry_chains m true t k v s l)
    as (t' & Hadd & Hwf' & _ & Hl'); [by auto..|].
  pose proof (chain_put_readable m s k v Hk l Hrl) as Hrl'.
  destruct (chain_put_find m s k v Hk l) as (pos & e & Hfind & Hv).
  exists t'. split_and!; [done|..].
  - rewrite (contains_find api laws m t' k s _ Hk Hl' Hrl'), Hfind.
    by rewrite bool_decide_eq_true_2.
  - rewrite (get_value_find api laws m t' k s _ Hk Hl' Hrl'), Hfind.
    by rewrite Hv.
Qed.

(** An insertion leaves the chains of the other buckets alone. *)
Lemma add_entry_frame (m : memory) (t : table api) (k v : Z) (s : string) :
  wf api m t → string_at m k = Some s →
  ∃ t', add_entry api m true t k v = Returns t'
        ∧ ∀ i, i ≠ bucket_index s →
               chains api t' !! i = chains api t !! i.
Proof.
  intros Hwf Hk.
  destruct (wf_chain m t s Hwf) as (l & Hl & Hrl).
  destruct (add_entry_chains m true t k v s l)
    as (t' & Hadd & _ & Hchains & _); [by auto..|].
  exists t'. split; [done|]. intros i Hi.
  rewrite Hchains. by apply list_lookup_insert_ne.
Qed.

(** Two insertions for one key. *)
Lemma add_entry_twice (m : memory) (calloc_ok : bool) (t : table api)
    (k v1 v2 : Z) (s : string) :
  table_ok api m t → string_at m k = Some s →
  ∃ t1 t2,
    add_entry api m true t k v1 = Returns t1
    ∧ add_entry api m calloc_ok t1 k v2 = Returns t2
    ∧ entries_for m s (chains api t2) = 1%nat
    ∧ get_value api m t2 k = Returns v2
    ∧ chain_keys <$> chains api t2 = chain_keys <$> chains api t1.
Proof.
  intros [Hwf Hok] Hk.
  destruct (wf_chain m t s Hwf) as (l & Hl & Hrl).
  destruct (add_entry_chains m true t k v1 s l)
    as (t1 & Hadd1 & Hwf1 & Hchains1 & Hl1); [by auto..|].
  destruct (chain_put_find m s k v1 Hk l) as (pos1 & e1 & Hfind1 & _).
  destruct (add_entry_chains m calloc_ok t1 k v2 s (chain_put m s k v1 l))
    as (t2 & Hadd2 & Hwf2 & Hchains2 & Hl2);
    [done..|right; by rewrite Hfind1|].
  assert (chain_ok m (bucket_index s) (chain_put m s k v1 l)) as Hok1.
  { apply chain_put_ok; [done|]. by apply Hok. }
  pose proof (chain_put_ok m s k v2 Hk _ Hok1) as Hok2.
  assert (chains_ok m (chains api t2)) as Hoks2.
  { rewrite Hchains2, Hchains1. by do 2 (apply chains_ok_insert; [|done]). }
  pose proof (chain_put_readable m s k v2 Hk _
                (chain_put_readable m s k v1 Hk l Hrl)) as Hrl2.
  exists t1, t2. split_and!; [done..| | |].
  - rewrite (entries_for_bucket m s _ _ Hoks2 Hl2).
    rewrite filter_key_is_length.
    apply NoDup_filter_eq_length; [by destruct Hok2|].
    by apply chain_put_elem.
  - destruct (chain_put_find m s k v2 Hk (chain_put m s k v1 l))
      as (pos & e & Hfind & Hv).
    rewrite (get_value_find api laws m t2 k s _ Hk Hl2 Hrl2).
    by rewrite Hfind, Hv.
  - rewrite Hchains2, list_fmap_insert. apply list_insert_id.
    rewrite list_lookup_fmap, Hl1. cbn. f_equal.
    rewrite (chain_put_keys m s k v2). by rewrite Hfind1.
Qed.
End Generic.

(** * Creation *)

Lemma empty_table_ok {base : hash_table_base} (api : table_api) (m : memory)
    (t : table api) :
  chains api t = replicate (Z.to_nat HASH_TABLE_CAPACITY) [] →
  guards_free api t → table_ok api m t.
Proof.
  intros Hchains Hfree. split; [split_and!|].
  - by rewrite Hchains, length_replicate.
  - done.
  - rewrite Hchains. apply Forall_replicate. constructor.
  - intros i l. rewrite Hchains. intros [-> _]%lookup_replicate.
    split; [constructor|apply NoDup_nil_2].
Qed.

Lemma v1_create_returns {base : hash_table_base} :
  ∃ t, V1.hash_table_v1_create true 0 = Returns t
       ∧ v1_chains t = replicate (Z.to_nat HASH_TABLE_CAPACITY) []
       ∧ V1.mutex t = mutex_free.
Proof.
  eexists. unfold V1.hash_table_v1_create. cbn.
  rewrite decide_False by (by intros ?). split; [reflexivity|].
  unfold v1_chains. cbn. by rewrite fmap_replicate.
Qed.

Lemma v2_create_returns {base : hash_table_base} :
  ∃ t, V2.hash_table_v2_create true (λ _, 0) = Returns t
       ∧ v2_chains t = replicate (Z.to_nat HASH_TABLE_CAPACITY) []
       ∧ Forall (λ b, V2.mutex b = mutex_free) (V2.entries t).
Proof.
  eexists. unfold V2.hash_table_v2_create. cbn.
  rewrite decide_True by (by apply Forall_forall). split; [reflexivity|].
  unfold v2_chains. cbn. split.
  - rewrite <- list_fmap_compose.
    rewrite (const_fmap _ _ []) by done. by rewrite length_seq.
  - by apply Forall_fmap, Forall_forall.
Qed.

(** * The two variants answer alike *)

Section Simulation.
Context {base : hash_table_base}.

Lemma same_chains_bucket (t1 : V1.hash_table_v1) (t2 : V2.hash_table_v2)
    (mu : pthread_mutex_t) (i : nat) :
  same_chains t1 t2 →
  match V1.bucket (V1.with_mutex t1 mu) i, V2.bucket t2 i with
  | Returns b1, Returns b2 =>
      V2.entries t2 !! i = Some b2
      ∧ V1.list_head b1 = V2.list_head b2 ∧ V2.mutex b2 = mutex_free
  | Undefined, Undefined => True
  | _, _ => False
  end.
Proof.
  intros (_ & Hfree & Hchains). unfold V1.bucket, V2.bucket. cbn.
  apply (f_equal (.!! i)) in Hchains.
  unfold v1_chains, v2_chains in Hchains.
  rewrite !list_lookup_fmap in Hchains.
  destruct (V1.entries t1 !! i) as [b1|],
           (V2.entries t2 !! i) as [b2|] eqn:Hb2; try done.
  injection Hchains as Hl. split_and!; [done..|].
  by apply (proj1 (Forall_lookup _ _) Hfree i).
Qed.

Lemma same_chains_put (t1 : V1.hash_table_v1) (t2 : V2.hash_table_v2)
    (i : nat) (l l' : list list_entry) :
  same_chains t1 t2 →
  same_chains
    (V1.with_mutex
       (V1.with_chain (V1.with_mutex t1 mutex_held) i l') mutex_free)
    (V2.with_bucket
       (V2.with_bucket t2 i
          {| V2.list_head := l; V2.mutex := mutex_held |})
       i {| V2.list_head := l'; V2.mutex := mutex_free |}).
Proof.
  intros (Hmu & Hfree & Hchains). split_and!; [done|..].
  - cbn. rewrite list_insert_insert_eq. by apply Forall_insert.
  - unfold v1_chains, v2_chains in *. cbn.
    by rewrite list_insert_insert_eq, !list_fmap_insert, Hchains.
Qed.

Lemma same_chains_do_call (m : memory) (c : call)
    (t1 : V1.hash_table_v1) (t2 : V2.hash_table_v2) :
  same_chains t1 t2 →
  same_outcome (do_call v1_api m t1 c) (do_call v2_api m t2 c).
Proof.
  intros Hsame. pose proof Hsame as (Hmu & Hfree & Hchains).
  destruct c as [calloc_ok k v|k|k]; cbn.
  - unfold V1.hash_table_v1_add_entry, V2.hash_table_v2_add_entry.
    rewrite Hmu, lock_free. cbn.
    change (V2.get_hash_table_entry m t2 k)
      with (V1.get_hash_table_entry m (V1.with_mutex t1 mutex_held) k).
    destruct (V1.get_hash_table_entry _ _ k) as [i| | | |]; cbn; try done.
    pose proof (same_chains_bucket t1 t2 mutex_held i Hsame) as Hb.
    destruct (V1.bucket _ i) as [[l1]| | | |],
             (V2.bucket t2 i) as [[l2 mu2]| | | |]; cbn; try done.
    cbn in Hb. destruct Hb as (Hb2 & -> & ->). rewrite lock_free. cbn.
    change (V2.get_list_entry m _ k l2)
      with (V1.get_list_entry m (V1.with_mutex t1 mutex_held) k l2).
    destruct (V1.get_list_entry _ _ k l2) as [[pos|]| | | |]; cbn; try done.
    + rewrite !decide_False by (by intros ?). cbn. split; [done|].
      by apply same_chains_put.
    + destruct calloc_ok; cbn; [|done].
      rewrite !decide_False by (by intros ?). cbn. split; [done|].
      by apply same_chains_put.
  - unfold V1.hash_table_v1_contains, V2.hash_table_v2_contains.
    change (V2.get_hash_table_entry m t2 k)
      with (V1.get_hash_table_entry m t1 k).
    destruct (V1.get_hash_table_entry _ _ k) as [i| | | |]; cbn; try done.
    pose proof (same_chains_bucket t1 t2 (V1.mutex t1) i Hsame) as Hb.
    replace (V1.with_mutex t1 (V1.mutex t1)) with t1 in Hb
      by by destruct t1.
    destruct (V1.bucket _ i) as [[l1]| | | |],
             (V2.bucket t2 i) as [[l2 mu2]| | | |]; cbn; try done.
    cbn in Hb. destruct Hb as (Hb2 & -> & ->).
    change (V2.get_list_entry m _ k l2)
      with (V1.get_list_entry m t1 k l2).
    by destruct (V1.get_list_entry _ _ k l2) as [[pos|]| | | |].
  - unfold V1.hash_table_v1_get_value, V2.hash_table_v2_get_value.
    change (V2.get_hash_table_entry m t2 k)
      with (V1.get_hash_table_entry m t1 k).
    destruct (V1.get_hash_table_entry _ _ k) as [i| | | |]; cbn; try done.
    pose proof (same_chains_bucket t1 t2 (V1.mutex t1) i Hsame) as Hb.
    replace (V1.with_mutex t1 (V1.mutex t1)) with t1 in Hb
      by by destruct t1.
    destruct (V1.bucket _ i) as [[l1]| | | |],
             (V2.bucket t2 i) as [[l2 mu2]| | | |]; cbn; try done.
    cbn in Hb. destruct Hb as (Hb2 & -> & ->).
    change (V2.get_list_entry m _ k l2)
      with (V1.get_list_entry m t1 k l2).
    destruct (V1.get_list_entry _ _ k l2) as [[pos|]| | | |]; cbn; try done.
    by destruct (load_value l2 pos).
Qed.

Lemma same_chains_run (calls : list (memory * call))
    (t1 : V1.hash_table_v1) (t2 : V2.hash_table_v2) :
  same_chains t1 t2 → run v1_api t1 calls = run v2_api t2 calls.
Proof.
  revert t1 t2. induction calls as [|[m c] calls IH]; intros t1 t2 Hsame;
    [done|].
  cbn [run]. pose proof (same_chains_do_call m c t1 t2 Hsame) as Hcall.
  destruct (do_call v1_api m t1 c) as [[t1' a1]| | | |],
           (do_call v2_api m t2 c) as [[t2' a2]| | | |]; try done.
  destruct Hcall as [-> Hsame']. f_equal. by apply IH.
Qed.
End Simulation.

(** * Keys are borrowed *)

Lemma stored_keys_chain (chains : list (list list_entry)) (i : nat)
    (l : list list_entry) (p : Z) :
  chains !! i = Some l → p ∈ chain_keys l → p ∈ stored_keys chains.
Proof.
  intros Hl Hp. apply list_elem_of_join. exists (chain_keys l).
  split; [done|]. apply list_elem_of_fmap. exists l. split; [done|].
  by eapply list_elem_of_lookup_2.
Qed.

Section Agree.
Context (m m' : memory) (l : list list_entry).
Hypothesis agree : ∀ p, p ∈ chain_keys l → string_at m' p = string_at m p.

Lemma chain_strings_agree : chain_strings m' l = chain_strings m l.
Proof using agree.
  unfold chain_strings. apply list_fmap_ext. intros i e He.
  apply agree, list_elem_of_fmap. exists e. split; [done|].
  by eapply list_elem_of_lookup_2.
Qed.

Lemma readable_agree : readable m l → readable m' l.
Proof using agree. by rewrite !readable_strings, chain_strings_agree. Qed.

Lemma list_find_agree (s : string) :
  list_find (key_is m' s) l = list_find (key_is m s) l.
Proof using agree.
  clear -agree. induction l as [|e l' IH]; [done|]. cbn.
  assert (string_at m' (key e) = string_at m (key e)) as He
    by (apply agree; left).
  rewrite IH by (intros p Hp; apply agree; by right).
  destruct (decide (key_is m' s e)) as [H1|H1],
           (decide (key_is m s e)) as [H2|H2];
    unfold key_is in H1, H2; rewrite He in H1; done.
Qed.
End Agree.

Section Borrowed.
Context {base : hash_table_base} (api : table_api).
Hypothesis laws : table_laws api.
Hypothesis capacity_pos : 0 < HASH_TABLE_CAPACITY.

(** A new node holds the pointer the caller passed, and a later lookup of
    the string succeeds in every memory in which the buffers the table
    points to still hold what they held. *)
Lemma add_entry_borrows (m m' : memory) (t : table api) (k k' v : Z)
    (s : string) :
  wf api m t → string_at m k = Some s →
  ∃ t', add_entry api m true t k v = Returns t'
        ∧ (contains api m t k = Returns false →
           k ∈ stored_keys (chains api t'))
        ∧ ((∀ p, p ∈ stored_keys (chains api t') →
                 string_at m' p = string_at m p) →
           string_at m' k' = Some s →
           contains api m' t' k' = Returns true
           ∧ get_value api m' t' k' = Returns v).
Proof.
  intros Hwf Hk.
  destruct (wf_chain api capacity_pos m t s Hwf) as (l & Hl & Hrl).
  destruct (add_entry_chains api laws m true t k v s l)
    as (t' & Hadd & Hwf' & _ & Hl'); [by auto..|].
  exists t'. split_and!; [done|..].
  - rewrite (contains_find api laws m t k s _ Hk Hl Hrl).
    intros [= Hnone]. apply bool_decide_eq_false_1 in Hnone.
    apply (stored_keys_chain _ _ _ _ Hl').
    rewrite (chain_put_keys m s k v l).
    destruct (list_find _ l); [|by left]. destruct Hnone. by eexists.
  - intros Hagree Hk'.
    assert (∀ p, p ∈ chain_keys (chain_put m s k v l) →
                 string_at m' p = string_at m p) as Hagree'.
    { intros p Hp. by apply Hagree, (stored_keys_chain _ _ _ _ Hl'). }
    pose proof (readable_agree m m' _ Hagree'
                  (chain_put_readable m s k v Hk l Hrl)) as Hrl'.
    destruct (chain_put_find m s k v Hk l) as (pos & e & Hfind & Hv).
    rewrite <- (list_find_agree m m' _ Hagree') in Hfind.
    rewrite (contains_find api laws m' t' k' s _ Hk' Hl' Hrl'), Hfind.
    rewrite (get_value_find api laws m' t' k' s _ Hk' Hl' Hrl'), Hfind.
    rewrite Hv. split; [|done]. by rewrite bool_decide_eq_true_2.
Qed.
End Borrowed.

(** * The hash function of the spec *)

Lemma uint32_range (z : Z) : 0 ≤ uint32 z < 2 ^ 32.
Proof. unfold uint32. apply Z.mod_pos_bound. lia. Qed.

Lemma bernstein_loop_range (accumulator : Z) (s : string) :
  0 ≤ accumulator < 2 ^ 32 → 0 ≤ bernstein_loop accumulator s < 2 ^ 32.
Proof.
  revert accumulator. induction s as [|c s IH]; intros acc Hacc; [done|].
  cbn. apply IH, uint32_range.
Qed.

Lemma bernstein_loop_app (accumulator : Z) (s1 s2 : string) :
  bernstein_loop accumulator (s1 +:+ s2)
  = bernstein_loop (bernstein_loop accumulator s1) s2.
Proof.
  revert accumulator. induction s1 as [|c s1 IH]; intros acc; [done|].
  cbn. apply IH.
Qed.

(** * The machine keeps its invariant *)

Lemma bucket_of_string {base : hash_table_base} (m : memory) (k : Z)
    (s : string) :
  string_at m k = Some s → bucket_of m k = Returns (bucket_index s).
Proof.
  intros Hk. unfold bucket_of.
  rewrite bool_decide_eq_true_2 by (apply (string_at_not_NULL m); eauto).
  cbn. by rewrite (load_string_Some _ _ _ Hk).
Qed.

Lemma guard_of_string {base : hash_table_base} (d : locking) (m : memory)
    (k : Z) (s : string) :
  string_at m k = Some s → guard_of d m k = Returns (mutex_no d s).
Proof. intros Hk. destruct d; [done|]. by apply bucket_of_string. Qed.

Lemma mutex_no_bucket {base : hash_table_base} (d : locking)
    (s1 s2 : string) :
  bucket_index s1 = bucket_index s2 → mutex_no d s1 = mutex_no d s2.
Proof. by destruct d. Qed.

Lemma move_lookup (σ : machine) (i j : nat) (p : point)
    (cs : list (Z * Z)) (th : thread) :
  threads σ !! i = Some th →
  threads (move σ i p cs) !! j
  = if decide (j = i) then Some {| point_of := p; calls := cs |}
    else threads σ !! j.
Proof.
  intros Hi. cbn. rewrite list_lookup_insert.
  apply lookup_lt_Some in Hi.
  destruct (decide (j = i)) as [->|Hne].
  - by rewrite decide_True.
  - rewrite decide_False; [done|]. intros [-> _]. done.
Qed.

(** ** Keys that differ *)

Lemma call_strings_app (m : memory) (c1 c2 : list (Z * Z)) :
  call_strings m (c1 ++ c2) = call_strings m c1 ++ call_strings m c2.
Proof. unfold call_strings. apply fmap_app. Qed.

Lemma call_strings_elem (m : memory) (cs : list (Z * Z)) (kv : Z * Z) :
  kv ∈ cs → string_at m kv.1 ∈ call_strings m cs.
Proof. intros Hin. apply list_elem_of_fmap. by exists kv. Qed.

Lemma call_strings_join (m : memory) (todo : list (list (Z * Z))) (i : nat)
    (c : list (Z * Z)) (x : option string) :
  todo !! i = Some c → x ∈ call_strings m c →
  x ∈ call_strings m (mjoin todo).
Proof.
  intros Hc (kv & -> & Hkv)%list_elem_of_fmap.
  apply call_strings_elem, list_elem_of_join. exists c. split; [done|].
  by eapply list_elem_of_lookup_2.
Qed.

Lemma distinct_in_thread (m : memory) (todo : list (list (Z * Z)))
    (i : nat) (c : list (Z * Z)) :
  NoDup (call_strings m (mjoin todo)) → todo !! i = Some c →
  NoDup (call_strings m c).
Proof.
  revert i. induction todo as [|c' todo IH]; intros [|i] Hnodup Hc;
    try done;
    change (mjoin (c' :: todo)) with (c' ++ mjoin todo) in Hnodup;
    rewrite call_strings_app in Hnodup;
    apply NoDup_app in Hnodup as (H1 & H2 & H3).
  - by injection Hc as <-.
  - by apply (IH i).
Qed.

Lemma distinct_across_lt (m : memory) (todo : list (list (Z * Z)))
    (i j : nat) (ci cj : list (Z * Z)) (x : option string) :
  NoDup (call_strings m (mjoin todo)) → (i < j)%nat →
  todo !! i = Some ci → todo !! j = Some cj →
  x ∈ call_strings m ci → x ∉ call_strings m cj.
Proof.
  revert i j. induction todo as [|c' todo IH]; intros i j Hnodup Hlt Hi Hj Hx;
    [done|].
  change (mjoin (c' :: todo)) with (c' ++ mjoin todo) in Hnodup.
  rewrite call_strings_app in Hnodup.
  apply NoDup_app in Hnodup as (H1 & H2 & H3).
  destruct j as [|j]; [lia|]. destruct i as [|i].
  - injection Hi as <-. intros Hx'. apply (H2 x Hx).
    by apply (call_strings_join m todo j cj).
  - apply (IH i j); [done|lia|done..].
Qed.

Lemma distinct_across (m : memory) (todo : list (list (Z * Z)))
    (i j : nat) (ci cj : list (Z * Z)) (kv kv' : Z * Z) :
  NoDup (call_strings m (mjoin todo)) → i ≠ j →
  todo !! i = Some ci → todo !! j = Some cj →
  kv ∈ ci → kv' ∈ cj → string_at m kv'.1 ≠ string_at m kv.1.
Proof.
  intros Hnodup Hne Hi Hj Hkv Hkv' Heq.
  destruct (decide (i < j)%nat).
  - apply (distinct_across_lt m todo i j ci cj (string_at m kv.1));
      [done..|by apply call_strings_elem|].
    rewrite <- Heq. by apply call_strings_elem.
  - apply (distinct_across_lt m todo j i cj ci (string_at m kv'.1));
      [done|lia|done..|by apply call_strings_elem|].
    rewrite Heq. by apply call_strings_elem.
Qed.

Lemma distinct_made (m : memory) (todo : list (list (Z * Z))) (i : nat)
    (made rest : list (Z * Z)) (kv kv' : Z * Z) :
  NoDup (call_strings m (mjoin todo)) →
  todo !! i = Some (made ++ kv :: rest) → kv' ∈ made →
  string_at m kv'.1 ≠ string_at m kv.1.
Proof.
  intros Hnodup Hi Hkv' Heq.
  pose proof (distinct_in_thread m todo i _ Hnodup Hi) as Hnd.
  rewrite call_strings_app in Hnd.
  apply NoDup_app in Hnd as (_ & Hnd & _).
  apply (Hnd (string_at m kv'.1)); [by apply call_strings_elem|].
  rewrite Heq. cbn. left.
Qed.

(** ** A write of one thread and the calls of the others *)

Lemma list_find_chain_put_other (m : memory) (s s' : string) (k v : Z)
    (l : list list_entry) (pos : nat) (e : list_entry) :
  string_at m k = Some s → s' ≠ s →
  list_find (key_is m s') l = Some (pos, e) →
  ∃ pos', list_find (key_is m s') (chain_put m s k v l) = Some (pos', e).
Proof.
  intros Hk Hne Hfind. unfold chain_put.
  destruct (list_find (key_is m s) l) as [[p x]|] eqn:Hs.
  - exists pos. apply list_find_Some in Hfind as (Hpos & He & Hfirst).
    apply list_find_Some in Hs as (Hp & Hx & _).
    assert (pos ≠ p) as Hpp.
    { intros ->. rewrite Hp in Hpos. injection Hpos as ->.
      unfold key_is in *. congruence. }
    apply list_find_Some. split_and!; [|done|].
    + by rewrite list_lookup_alter_ne.
    + intros j y Hj Hlt Hy. rewrite list_lookup_alter in Hj.
      destruct (decide (p = j)) as [->|].
      * rewrite Hp in Hj. injection Hj as <-.
        unfold key_is in *. rewrite store_value_key in Hy. congruence.
      * by apply (Hfirst j y).
  - exists (S pos). cbn. rewrite decide_False.
    + by rewrite Hfind.
    + unfold key_is; cbn. rewrite Hk. intros [= ->]. done.
Qed.

Lemma has_value_chain_put_other {base : hash_table_base} (m : memory)
    (chains : list (list list_entry)) (s : string) (k v : Z)
    (l : list list_entry) (kv' : Z * Z) :
  string_at m k = Some s → chains !! bucket_index s = Some l →
  string_at m kv'.1 ≠ Some s →
  has_value m chains kv' →
  has_value m (<[bucket_index s := chain_put m s k v l]> chains) kv'.
Proof.
  intros Hk Hl Hne (s' & l' & pos & e & Hk' & Hl' & Hfind & Hv).
  destruct (decide (bucket_index s = bucket_index s')) as [Heq|Hidx].
  - rewrite <- Heq, Hl in Hl'. injection Hl' as <-.
    destruct (list_find_chain_put_other m s s' k v l pos e)
      as (pos' & Hfind'); [done|congruence|done|].
    exists s', (chain_put m s k v l), pos', e. split_and!; [done| |done..].
    rewrite <- Heq. apply list_lookup_insert_eq. by eapply lookup_lt_Some.
  - exists s', l', pos, e. split_and!; [done| |done..].
    by rewrite list_lookup_insert_ne.
Qed.

Lemma sum_list_insert_lt (ns : list nat) (i a b : nat) :
  ns !! i = Some b → (a < b)%nat →
  (sum_list (<[i := a]> ns) < sum_list ns)%nat.
Proof.
  revert i. induction ns as [|n ns IH]; intros [|i] Hi Hlt; try done.
  - injection Hi as ->. cbn. by apply Nat.add_lt_mono_r.
  - cbn. apply Nat.add_lt_mono_l. by apply IH.
Qed.

Lemma list_find_alter_other {A} (P : A → Prop) `{!∀ x, Decision (P x)}
    (f : A → A) (p : nat) (l : list A) (x : A) :
  l !! p = Some x → ¬ P x → ¬ P (f x) →
  list_find P (alter f p l) = list_find P l.
Proof.
  revert p. induction l as [|y l IH]; intros [|p] Hp Hx Hfx; try done; cbn.
  - injection Hp as ->. by rewrite !decide_False.
  - by rewrite (IH p).
Qed.

Lemma lookup_value_chain_put_other {base : hash_table_base} (m : memory)
    (chains : list (list list_entry)) (s s' : string) (k v : Z)
    (l : list list_entry) :
  string_at m k = Some s → chains !! bucket_index s = Some l → s' ≠ s →
  lookup_value m (<[bucket_index s := chain_put m s k v l]> chains) s'
  = lookup_value m chains s'.
Proof.
  intros Hk Hl Hne. unfold lookup_value.
  destruct (decide (bucket_index s = bucket_index s')) as [Heq|Hidx];
    [|by rewrite list_lookup_insert_ne].
  rewrite <- Heq, Hl, list_lookup_insert_eq by by eapply lookup_lt_Some.
  cbn. unfold chain_put.
  destruct (list_find (key_is m s) l) as [[p x]|] eqn:Hs.
  - apply list_find_Some in Hs as (Hp & Hx & _).
    rewrite (list_find_alter_other _ _ p l x); [done..| |];
      unfold key_is in *; rewrite ?store_value_key; congruence.
  - cbn. rewrite decide_False.
    + by destruct (list_find (key_is m s') l) as [[??]|].
    + unfold key_is; cbn. rewrite Hk. intros [= ->]. done.
Qed.

Section Machine.
Context {base : hash_table_base} (d : locking) (m : memory)
(chains0 : list (list list_entry)) (todo : list (list (Z * Z))).
Hypothesis capacity_pos : 0 < HASH_TABLE_CAPACITY.
Hypothesis keys_valid : Forall (λ kv, is_Some (string_at m kv.1)) (mjoin todo).
Hypothesis keys_distinct : NoDup (call_strings m (mjoin todo)).

(** What the invariant says of a thread in the middle of a call. *)
Lemma invariant_thread (σ : machine) (i : nat) (th : thread) (k v : Z)
  (rest : list (Z * Z)) :
invariant d m chains0 todo σ → threads σ !! i = Some th →
calls th = (k, v) :: rest →
∃ made s l,
  todo !! i = Some (made ++ (k, v) :: rest)
  ∧ Forall (has_value m (buckets σ)) made
  ∧ string_at m k = Some s
  ∧ buckets σ !! bucket_index s = Some l
  ∧ readable m l
  ∧ chain_ok m (bucket_index s) l
  ∧ (point_of th ≠ at_lock → owners σ !! mutex_no d s = Some i)
  ∧ point_ok m l s v (point_of th).
Proof.
intros Hinv Hi Hcalls.
destruct (inv_thread _ _ _ _ _ Hinv i th Hi)
  as (c0 & Hc0 & made & -> & Hmade & Hcur).
rewrite Hcalls in Hcur, Hc0. destruct Hcur as (s & l & Hk & Hl & Hown & Hp).
exists made, s, l. split_and!; try done.
- by apply (proj1 (Forall_lookup _ _) (inv_readable _ _ _ _ _ Hinv) _ _ Hl).
- by apply (inv_chains _ _ _ _ _ Hinv).
Qed.

Lemma thread_ok_other (σ σ' : machine) (j : nat) (c0 : list (Z * Z))
  (th : thread) :
buckets σ' = buckets σ →
(∀ mu, owners σ !! mu = Some j → owners σ' !! mu = Some j) →
thread_ok d m σ j c0 th → thread_ok d m σ' j c0 th.
Proof.
intros Hb Ho (made & Hc0 & Hmade & Hcur). exists made.
rewrite Hb. split_and!; [done..|].
destruct (calls th) as [|[k v] rest]; [done|].
destruct Hcur as (s & l & Hk & Hl & Hown & Hp).
exists s, l. split_and!; [done..| |done]. intros Hne. by apply Ho, Hown.
Qed.

(** A step that only moves thread [i] on. *)
Lemma invariant_move (σ : machine) (i : nat) (th : thread) (k v : Z)
  (rest : list (Z * Z)) (s : string) (l : list list_entry) (p : point) :
invariant d m chains0 todo σ → threads σ !! i = Some th →
calls th = (k, v) :: rest → string_at m k = Some s →
buckets σ !! bucket_index s = Some l →
point_of th ≠ at_lock → p ≠ at_lock → point_ok m l s v p →
invariant d m chains0 todo (move σ i p (calls th)).
Proof.
intros Hinv Hi Hcalls Hk Hl Hin Hp Hok.
destruct (invariant_thread σ i th k v rest Hinv Hi Hcalls)
  as (made & s' & l' & Hc0 & Hmade & Hk' & Hl' & _ & _ & Hown & _).
assert (s' = s) as -> by congruence.
destruct Hinv as [Hlen Hread Hchains Hcount Hthread Howner Hothers].
split; [done|done|done| | | |done].
- cbn. by rewrite length_insert.
- intros j th'. rewrite (move_lookup σ i j _ _ th Hi).
  destruct (decide (j = i)) as [->|Hne].
  + intros [= <-]. exists (made ++ calls th). rewrite Hcalls.
    split; [done|]. exists made. cbn. split_and!; [done..|].
    exists s, l. split_and!; [done..| |done]. intros _. by apply Hown.
  + intros Hj. destruct (Hthread j th' Hj) as (c0 & Hc0' & Hok').
    exists c0. split; [done|]. by apply (thread_ok_other σ).
- intros mu j Hmu. destruct (Howner mu j Hmu) as (th' & Hj & Hin' & Hth').
  destruct (decide (j = i)) as [->|Hne].
  + eexists. rewrite (move_lookup σ i i _ _ th Hi), decide_True by done.
    split; [done|]. split; [done|]. cbn.
    assert (th' = th) as -> by congruence. done.
  + exists th'. rewrite (move_lookup σ i j _ _ th Hi), decide_False by done.
    done.
Qed.

(** The step that writes the chain: the value of a node that was found, or
  the head for a new node. *)
Lemma invariant_write (σ : machine) (i : nat) (th : thread) (k v : Z)
  (rest : list (Z * Z)) (s : string) (l : list list_entry) :
invariant d m chains0 todo σ → threads σ !! i = Some th →
calls th = (k, v) :: rest → string_at m k = Some s →
buckets σ !! bucket_index s = Some l →
point_of th ≠ at_lock →
invariant d m chains0 todo
  (move (put_chain σ (bucket_index s) (chain_put m s k v l))
     i at_unlock (calls th)).
Proof.
intros Hinv Hi Hcalls Hk Hl Hin.
destruct (invariant_thread σ i th k v rest Hinv Hi Hcalls)
  as (made & s' & l' & Hc0 & Hmade & Hk' & Hl' & Hrl & Hokl & Hown & _).
assert (s' = s) as -> by congruence.
assert (l' = l) as -> by congruence.
specialize (Hown Hin).
destruct Hinv as [Hlen Hread Hchains Hcount Hthread Howner Hothers].
assert (∀ kv', string_at m kv'.1 ≠ Some s →
          has_value m (buckets σ) kv' →
          has_value m (<[bucket_index s := chain_put m s k v l]> (buckets σ))
            kv') as Hkeep.
{ intros kv' Hne Hv. by apply has_value_chain_put_other. }
split.
- cbn. by rewrite length_insert.
- cbn. apply Forall_insert; [done|]. by apply chain_put_readable.
- cbn. apply chains_ok_insert; [done|]. by apply chain_put_ok.
- cbn. by rewrite length_insert.
- intros j th'.
  rewrite (move_lookup (put_chain σ _ _) i j _ _ th Hi).
  destruct (decide (j = i)) as [->|Hne].
  + intros [= <-]. exists (made ++ calls th). rewrite Hcalls.
    split; [done|]. exists made. cbn. split_and!; [done| |].
    * apply Forall_forall. intros kv' Hkv'. apply Hkeep.
      -- rewrite <- Hk.
         by apply (distinct_made m todo i made rest (k, v) kv').
      -- by apply (proj1 (Forall_forall _ _) Hmade).
    * exists s, (chain_put m s k v l). split_and!; [done| |done|].
      -- apply list_lookup_insert_eq. by eapply lookup_lt_Some.
      -- destruct (chain_put_find m s k v Hk l) as (pos & e & ? & ?).
         by exists pos, e.
  + intros Hj. destruct (Hthread j th' Hj)
      as (c0 & Hc0' & made' & -> & Hmade' & Hcur).
    eexists. split; [done|]. exists made'. cbn. split_and!; [done| |].
    * apply Forall_forall. intros kv' Hkv'. apply Hkeep.
      -- rewrite <- Hk.
         apply (distinct_across m todo i j (made ++ (k, v) :: rest)
                  (made' ++ calls th') (k, v) kv' keys_distinct);
           [done..| |].
         ++ apply elem_of_app. right. left.
         ++ apply elem_of_app. by left.
      -- by apply (proj1 (Forall_forall _ _) Hmade').
    * destruct (calls th') as [|[k' v'] rest']; [done|].
      destruct Hcur as (s' & l' & Hks' & Hls' & Hown' & Hp').
      destruct (decide (point_of th' = at_lock)) as [Hat|Hat].
      -- destruct (lookup_lt_is_Some_2
                     (<[bucket_index s := chain_put m s k v l]> (buckets σ))
                     (bucket_index s')) as [l'' Hl''].
         { rewrite length_insert. by eapply lookup_lt_Some. }
         exists s', l''. rewrite Hat. by split_and!.
      -- exists s', l'. split_and!; [done| |done..].
         rewrite list_lookup_insert_ne; [done|]. intros Heq.
         specialize (Hown' Hat).
         rewrite <- (mutex_no_bucket d _ _ Heq) in Hown'. congruence.
- intros mu j Hmu. destruct (Howner mu j Hmu) as (th' & Hj & Hin' & Hth').
  destruct (decide (j = i)) as [->|Hne].
  + eexists.
    rewrite (move_lookup (put_chain σ _ _) i i _ _ th Hi), decide_True
      by done.
    split; [done|]. split; [done|]. cbn.
    assert (th' = th) as -> by congruence. done.
  + exists th'.
    rewrite (move_lookup (put_chain σ _ _) i j _ _ th Hi), decide_False
      by done.
    done.
- intros s' Hs'. rewrite <- (Hothers s' Hs'). cbn.
  apply lookup_value_chain_put_other; [done..|]. intros ->.
  apply Hs'. rewrite <- Hk.
  apply (call_strings_join m todo i _ _ Hc0), (call_strings_elem m _ (k, v)).
  apply elem_of_app. right. left.
Qed.

(** The step that takes the mutex. *)
Lemma invariant_lock (σ : machine) (i : nat) (th : thread) (k v : Z)
  (rest : list (Z * Z)) (s : string) :
invariant d m chains0 todo σ → threads σ !! i = Some th →
calls th = (k, v) :: rest → string_at m k = Some s →
point_of th = at_lock → owners σ !! mutex_no d s = None →
invariant d m chains0 todo
  (move (put_owners σ (<[mutex_no d s := i]> (owners σ)))
     i at_find (calls th)).
Proof.
intros Hinv Hi Hcalls Hk Hat Hfree.
destruct (invariant_thread σ i th k v rest Hinv Hi Hcalls)
  as (made & s' & l & Hc0 & Hmade & Hk' & Hl & _ & _ & _ & _).
assert (s' = s) as -> by congruence.
destruct Hinv as [Hlen Hread Hchains Hcount Hthread Howner Hothers].
split; [done|done|done| | | |done].
- cbn. by rewrite length_insert.
- intros j th'. rewrite (move_lookup (put_owners σ _) i j _ _ th Hi).
  destruct (decide (j = i)) as [->|Hne].
  + intros [= <-]. exists (made ++ calls th). rewrite Hcalls.
    split; [done|]. exists made. cbn. split_and!; [done..|].
    exists s, l. split_and!; [done..| |done].
    intros _. apply lookup_insert_eq.
  + intros Hj. destruct (Hthread j th' Hj) as (c0 & Hc0' & Hok').
    exists c0. split; [done|]. apply (thread_ok_other σ); [done| |done].
    intros mu Hmu. cbn. rewrite lookup_insert_ne; [done|]. congruence.
- intros mu j Hj.
  change (<[mutex_no d s := i]> (owners σ) !! mu = Some j) in Hj.
  rewrite lookup_insert in Hj. revert Hj.
  destruct (decide (mutex_no d s = mu)) as [<-|Hmu].
  + intros [= <-]. eexists.
    rewrite (move_lookup (put_owners σ _) i i _ _ th Hi), decide_True
      by done.
    split; [done|]. split; [done|]. cbn. rewrite Hcalls.
    by exists k, v, rest, s.
  + intros Hj. destruct (Howner mu j Hj) as (th' & Hth' & Hin & Hrest).
    assert (j ≠ i) as Hne by (intros ->; congruence).
    exists th'.
    rewrite (move_lookup (put_owners σ _) i j _ _ th Hi), decide_False
      by done.
    done.
Qed.

(** The step that gives the mutex back and ends the call. *)
Lemma invariant_unlock (σ : machine) (i : nat) (th : thread) (k v : Z)
  (rest : list (Z * Z)) (s : string) :
invariant d m chains0 todo σ → threads σ !! i = Some th →
calls th = (k, v) :: rest → string_at m k = Some s →
point_of th = at_unlock →
invariant d m chains0 todo
  (move (put_owners σ (delete (mutex_no d s) (owners σ))) i at_lock rest).
Proof.
intros Hinv Hi Hcalls Hk Hat.
destruct (invariant_thread σ i th k v rest Hinv Hi Hcalls)
  as (made & s' & l & Hc0 & Hmade & Hk' & Hl & _ & _ & Hown & Hp).
assert (s' = s) as -> by congruence.
rewrite Hat in Hown, Hp. specialize (Hown ltac:(done)).
destruct Hp as (pos & e & Hfind & Hv).
destruct Hinv as [Hlen Hread Hchains Hcount Hthread Howner Hothers].
split; [done|done|done| | | |done].
- cbn. by rewrite length_insert.
- intros j th'. rewrite (move_lookup (put_owners σ _) i j _ _ th Hi).
  destruct (decide (j = i)) as [->|Hne].
  + intros [= <-]. exists (made ++ (k, v) :: rest). split; [done|].
    exists (made ++ [(k, v)]). cbn. split_and!.
    * by rewrite <- app_assoc.
    * apply Forall_app. split; [done|]. apply Forall_singleton.
      by exists s, l, pos, e.
    * destruct rest as [|[k2 v2] rest2]; [done|].
      assert (is_Some (string_at m k2)) as [s2 Hk2].
      { apply (proj1 (Forall_forall _ _) keys_valid (k2, v2)).
        apply list_elem_of_join. eexists. split;
          [|by eapply list_elem_of_lookup_2].
        apply elem_of_app. right. right. left. }
      destruct (lookup_lt_is_Some_2 (buckets σ) (bucket_index s2))
        as [l2 Hl2].
      { rewrite Hlen. by apply bucket_index_lt. }
      by exists s2, l2.
  + intros Hj. destruct (Hthread j th' Hj) as (c0 & Hc0' & Hok').
    exists c0. split; [done|]. apply (thread_ok_other σ); [done| |done].
    intros mu Hmu. cbn. rewrite lookup_delete_ne; [done|]. congruence.
- intros mu j Hj.
  change (delete (mutex_no d s) (owners σ) !! mu = Some j) in Hj.
  rewrite lookup_delete in Hj. revert Hj.
  destruct (decide (mutex_no d s = mu)) as [<-|Hmu]; [done|].
  intros Hj. destruct (Howner mu j Hj) as (th' & Hth' & Hin & Hrest).
  assert (j ≠ i) as Hne.
  { intros ->. assert (th' = th) as -> by congruence.
    destruct Hrest as (k' & v' & rest' & s' & Hcalls' & Hk'' & Hmu').
    rewrite Hcalls in Hcalls'. injection Hcalls' as <- <- <-.
    congruence. }
  exists th'.
  rewrite (move_lookup (put_owners σ _) i j _ _ th Hi), decide_False
    by done.
  done.
Qed.

Lemma steps_left_move (σ σ' : machine) (i : nat) (th : thread) (p : point)
  (cs : list (Z * Z)) :
threads σ !! i = Some th →
threads σ' = <[i := {| point_of := p; calls := cs |}]> (threads σ) →
(5 * length cs - steps_made p
 < 5 * length (calls th) - steps_made (point_of th))%nat →
(steps_left σ' < steps_left σ)%nat.
Proof using Type.
intros Hi Heq Hlt. unfold steps_left. rewrite Heq, list_fmap_insert.
apply sum_list_insert_lt with
  (b := (5 * length (calls th) - steps_made (point_of th))%nat); [|done].
by rewrite list_lookup_fmap, Hi.
Qed.

(** Every step a thread can make, when [calloc] has memory, leaves a
  machine that satisfies the invariant, with fewer steps left: no step
  stops the process. *)
Lemma step_invariant (σ : machine) (i : nat) (o : outcome machine) :
invariant d m chains0 todo σ → step d m true i σ = Some o →
∃ σ', o = Returns σ' ∧ invariant d m chains0 todo σ'
      ∧ (steps_left σ' < steps_left σ)%nat.
Proof.
intros Hinv. unfold step.
destruct (threads σ !! i) as [th|] eqn:Hi; [|done].
destruct (calls th) as [|[k v] rest] eqn:Hcalls; [done|].
destruct (invariant_thread σ i th k v rest Hinv Hi Hcalls)
  as (made & s & l & Hc0 & Hmade & Hk & Hl & Hrl & Hokl & Hown & Hp).
rewrite <- Hcalls.
destruct (point_of th) as [| |pos| |next|] eqn:Hat;
  rewrite ?(guard_of_string d m k s Hk), ?(bucket_of_string m k s Hk);
  unfold chain_at; cbn; rewrite ?Hl; cbn.
- destruct (owners σ !! mutex_no d s) eqn:Hfree; [done|].
  intros [= <-]. eexists. split; [done|]. split.
  + by apply (invariant_lock σ i th k v rest s).
  + by eapply steps_left_move; [done..|rewrite Hcalls, Hat; cbn; lia].
- rewrite (list_foreach_find m k s l Hk Hrl). cbn. intros [= <-].
  destruct (list_find (key_is m s) l) as [[pos e]|] eqn:Hfind; cbn;
    (eexists; split; [done|]; split; [|by eapply steps_left_move; [done..|rewrite Hcalls, Hat; cbn; lia]]).
  + apply (invariant_move σ i th k v rest s l); try done.
    * by rewrite Hat.
    * by exists e.
  + apply (invariant_move σ i th k v rest s l); try done.
    by rewrite Hat.
- intros [= <-]. destruct Hp as [e Hfind].
  eexists; split; [done|]; split; [|by eapply steps_left_move; [done..|rewrite Hcalls, Hat; cbn; lia]].
  replace (alter (store_value v) pos l) with (chain_put m s k v l)
    by (unfold chain_put; by rewrite Hfind).
  apply (invariant_write σ i th k v rest s l); try done. by rewrite Hat.
- intros [= <-]. eexists; split; [done|]; split; [|by eapply steps_left_move; [done..|rewrite Hcalls, Hat; cbn; lia]].
  apply (invariant_move σ i th k v rest s l); try done. by rewrite Hat.
- intros [= <-]. destruct Hp as [-> Hfind].
  eexists; split; [done|]; split; [|by eapply steps_left_move; [done..|rewrite Hcalls, Hat; cbn; lia]].
  replace ({| key := k; value := v |} :: l) with (chain_put m s k v l)
    by (unfold chain_put; by rewrite Hfind).
  apply (invariant_write σ i th k v rest s l); try done. by rewrite Hat.
- rewrite decide_True by by apply Hown. intros [= <-].
  eexists; split; [done|]; split; [|by eapply steps_left_move; [done..|rewrite Hcalls, Hat; cbn; lia]].
  by apply (invariant_unlock σ i th k v rest s).
Qed.

Lemma exec_invariant (schedule : list (nat * bool)) (σ : machine) :
allocations_succeed schedule → invariant d m chains0 todo σ →
∃ σ', exec d m schedule σ = Returns σ' ∧ invariant d m chains0 todo σ'.
Proof.
intros Hmem. revert σ.
induction Hmem as [|[i c] schedule Hc _ IH]; intros σ Hinv; cbn.
- by exists σ.
- cbn in Hc. subst c.
  destruct (step d m true i σ) as [o|] eqn:Hstep; [|by apply IH].
  destruct (step_invariant σ i o Hinv Hstep) as (σ1 & -> & Hinv1 & _).
  cbn. by apply IH.
Qed.

Lemma start_invariant :
length chains0 = Z.to_nat HASH_TABLE_CAPACITY →
Forall (readable m) chains0 → chains_ok m chains0 →
invariant d m chains0 todo (start chains0 todo).
Proof.
intros Hlen Hread Hchains. split; try done.
- cbn. by rewrite length_fmap.
- intros i th. cbn. rewrite list_lookup_fmap.
  destruct (todo !! i) as [c0|] eqn:Hc0; [|done]. intros [= <-].
  exists c0. split; [done|]. exists []. cbn. split_and!; [done..|].
  destruct c0 as [|[k v] rest]; [done|].
  assert (is_Some (string_at m k)) as [s Hk].
  { apply (proj1 (Forall_forall _ _) keys_valid (k, v)).
    apply list_elem_of_join. eexists. split;
      [|by eapply list_elem_of_lookup_2].
    left. }
  destruct (lookup_lt_is_Some_2 chains0 (bucket_index s)) as [l Hl].
  { rewrite Hlen. by apply bucket_index_lt. }
  by exists s, l.
Qed.

(** A thread in the middle of a call is never held up. *)
Lemma step_inside (calloc_ok : bool) (σ : machine) (i : nat) (th : thread) :
threads σ !! i = Some th → calls th ≠ [] → point_of th ≠ at_lock →
is_Some (step d m calloc_ok i σ).
Proof using Type.
intros Hi Hcalls Hat. unfold step. rewrite Hi.
destruct (calls th) as [|[k v] rest]; [done|].
by destruct (point_of th).
Qed.

(** No deadlock: while a thread has a call left, some thread can move. *)
Lemma invariant_progress (σ : machine) :
invariant d m chains0 todo σ → ¬ finished σ →
∃ i, ∀ calloc_ok, is_Some (step d m calloc_ok i σ).
Proof.
intros Hinv Hnot. unfold finished in Hnot.
apply not_Forall_Exists in Hnot; [|apply _].
apply Exists_exists in Hnot as (th & Hth & Hcalls).
apply list_elem_of_lookup in Hth as [i Hi].
destruct (decide (point_of th = at_lock)) as [Hat|Hat];
  [|exists i; intros c; by apply (step_inside c σ i th)].
destruct (calls th) as [|[k v] rest] eqn:Hc; [done|].
destruct (invariant_thread σ i th k v rest Hinv Hi Hc)
  as (_ & s & _ & _ & _ & Hk & _).
destruct (owners σ !! mutex_no d s) as [j|] eqn:Hmu.
- destruct (inv_owner _ _ _ _ _ Hinv _ _ Hmu)
    as (th' & Hj & Hin & k' & v' & rest' & s' & Hc' & _).
  exists j. intros c. apply (step_inside c σ j th'); [done| |done].
  by rewrite Hc'.
- exists i. intros c. unfold step.
  by rewrite Hi, Hc, Hat, (guard_of_string d m k s Hk), Hmu.
Qed.

(** From every state of the machine the threads can be scheduled to the
  barrier. *)
Lemma invariant_can_finish (σ : machine) :
invariant d m chains0 todo σ →
∃ more σ', exec d m more σ = Returns σ'
           ∧ finished σ' ∧ invariant d m chains0 todo σ'.
Proof.
remember (steps_left σ) as n eqn:Hn. revert σ Hn.
induction (lt_wf n) as [n _ IH]. intros σ -> Hinv.
destruct (decide (finished σ)) as [Hfin|Hnot].
- by exists [], σ.
- destruct (invariant_progress σ Hinv Hnot) as (i & Hmove).
  destruct (Hmove true) as (o & Hstep).
  destruct (step_invariant σ i o Hinv Hstep) as (σ1 & -> & Hinv1 & Hlt).
  destruct (IH _ Hlt σ1 eq_refl Hinv1) as (more & σ' & Hexec & Hfin & Hinv').
  exists ((i, true) :: more), σ'. cbn. rewrite Hstep. by cbn.
Qed.

(** At the barrier every call of every thread is in the table. *)
Lemma finished_has_values (σ : machine) :
invariant d m chains0 todo σ → finished σ →
Forall (has_value m (buckets σ)) (mjoin todo).
Proof.
intros Hinv Hfin. apply Forall_forall. intros kv Hkv.
apply list_elem_of_join in Hkv as (c0 & Hkv & Hc0).
apply list_elem_of_lookup in Hc0 as [i Hi].
destruct (lookup_lt_is_Some_2 (threads σ) i) as [th Hth].
{ rewrite (inv_count _ _ _ _ _ Hinv). by eapply lookup_lt_Some. }
destruct (inv_thread _ _ _ _ _ Hinv i th Hth)
  as (c0' & Hc0' & made & -> & Hmade & _).
assert (calls th = []) as Hnil
  by apply (proj1 (Forall_lookup _ _) Hfin i th Hth).
rewrite Hnil, app_nil_r in Hc0'.
assert (made = c0) as -> by congruence.
by apply (proj1 (Forall_forall _ _) Hmade).
Qed.
End Machine.

(** * The writes of the threads, one after the other *)

Lemma written_by_made (made cs : list (Z * Z)) (p : point) :
  written_by (made ++ cs) {| point_of := p; calls := cs |}
  = made ++ (if decide (p = at_unlock) then take 1 cs else []).
Proof.
  unfold written_by. cbn. rewrite length_app.
  replace (length made + length cs - length cs)%nat with (length made)
    by lia.
  rewrite take_app_add. by destruct (decide (p = at_unlock)).
Qed.

Lemma join_insert_snoc {A} (ls : list (list A)) (i : nat) (w : list A)
    (x : A) :
  ls !! i = Some w → mjoin (<[i := w ++ [x]]> ls) ≡ₚ x :: mjoin ls.
Proof.
  revert i. induction ls as [|l ls IH]; intros [|i] Hi; try done; cbn.
  - injection Hi as ->. rewrite <- app_assoc. cbn.
    by rewrite <- Permutation_middle.
  - rewrite (IH i Hi). by rewrite <- Permutation_middle.
Qed.

Lemma written_move (todo : list (list (Z * Z))) (σ σ' : machine) (i : nat)
    (c0 : list (Z * Z)) (th' : thread) :
  todo !! i = Some c0 →
  threads σ' = <[i := th']> (threads σ) →
  written todo σ'
  = mjoin (<[i := written_by c0 th']> (zip_with written_by todo (threads σ))).
Proof.
  intros Hc0 Hth. unfold written. rewrite Hth, insert_zip_with.
  by rewrite (list_insert_id todo i c0).
Qed.

Lemma written_lookup (todo : list (list (Z * Z))) (σ : machine) (i : nat)
    (c0 : list (Z * Z)) (th : thread) :
  todo !! i = Some c0 → threads σ !! i = Some th →
  zip_with written_by todo (threads σ) !! i = Some (written_by c0 th).
Proof. intros Hc0 Hth. by rewrite lookup_zip_with, Hc0, Hth. Qed.

(** A step that is not the write of its call leaves the written calls as
    they are. *)
Lemma written_same (todo : list (list (Z * Z))) (σ σ' : machine) (i : nat)
    (made : list (Z * Z)) (th : thread) (p : point) :
  todo !! i = Some (made ++ calls th) → threads σ !! i = Some th →
  threads σ' = <[i := {| point_of := p; calls := calls th |}]> (threads σ) →
  point_of th ≠ at_unlock → p ≠ at_unlock →
  written todo σ' = written todo σ.
Proof.
  intros Hc0 Hth Hth' Hat Hp.
  rewrite (written_move todo σ σ' i _ _ Hc0 Hth').
  rewrite list_insert_id; [done|].
  rewrite (written_lookup todo σ i _ th Hc0 Hth). f_equal.
  destruct th as [q cs]. cbn in *. rewrite !written_by_made.
  by rewrite !decide_False.
Qed.

(** The write of a call adds the call. *)
Lemma written_write (todo : list (list (Z * Z))) (σ σ' : machine) (i : nat)
    (made rest : list (Z * Z)) (kv : Z * Z) (th : thread) :
  calls th = kv :: rest →
  todo !! i = Some (made ++ calls th) → threads σ !! i = Some th →
  threads σ'
  = <[i := {| point_of := at_unlock; calls := calls th |}]> (threads σ) →
  point_of th ≠ at_unlock →
  written todo σ' ≡ₚ kv :: written todo σ.
Proof.
  intros Hcalls Hc0 Hth Hth' Hat.
  rewrite (written_move todo σ σ' i _ _ Hc0 Hth').
  assert (written_by (made ++ calls th)
            {| point_of := at_unlock; calls := calls th |}
          = written_by (made ++ calls th) th ++ [kv]) as ->.
  { destruct th as [q cs]. cbn in *. rewrite !written_by_made.
    rewrite decide_True, decide_False by done. subst cs. cbn.
    by rewrite app_nil_r. }
  apply join_insert_snoc. by apply written_lookup.
Qed.

(** The unlocking ends a call that is written already. *)
Lemma written_unlock (todo : list (list (Z * Z))) (σ σ' : machine) (i : nat)
    (made rest : list (Z * Z)) (kv : Z * Z) (th : thread) :
  calls th = kv :: rest → point_of th = at_unlock →
  todo !! i = Some (made ++ calls th) → threads σ !! i = Some th →
  threads σ' = <[i := {| point_of := at_lock; calls := rest |}]> (threads σ) →
  written todo σ' = written todo σ.
Proof.
  intros Hcalls Hat Hc0 Hth Hth'.
  rewrite (written_move todo σ σ' i _ _ Hc0 Hth').
  rewrite list_insert_id; [done|].
  rewrite (written_lookup todo σ i _ th Hc0 Hth). f_equal.
  destruct th as [q cs]. cbn in *. subst q cs.
  rewrite written_by_made, decide_True by done. cbn.
  replace (made ++ kv :: rest) with ((made ++ [kv]) ++ rest)
    by by rewrite <- app_assoc.
  rewrite written_by_made, decide_False by done. by rewrite app_nil_r.
Qed.

Lemma written_start (chains0 : list (list list_entry))
    (todo : list (list (Z * Z))) :
  written todo (start chains0 todo) = [].
Proof.
  unfold written. cbn [threads start].
  induction todo as [|c0 todo IH]; [done|].
  rewrite fmap_cons. cbn [zip_with].
  change (mjoin (?x :: ?l)) with (x ++ mjoin l). rewrite IH, app_nil_r.
  unfold written_by. cbn. by rewrite Nat.sub_diag.
Qed.

Lemma written_finished (todo : list (list (Z * Z))) (σ : machine) :
  length (threads σ) = length todo → finished σ →
  written todo σ = mjoin todo.
Proof.
  unfold written, finished. generalize (threads σ). clear σ.
  induction todo as [|c0 todo IH]; intros [|th ths] Hlen Hfin; try done.
  apply Forall_cons in Hfin as [Hth Hfin]. cbn. rewrite IH by (by auto).
  f_equal. unfold written_by. rewrite Hth. cbn.
  destruct (decide (point_of th = at_unlock)); apply firstn_all2; lia.
Qed.

Section Linear.
Context {base : hash_table_base} (api : table_api) (d : locking)
  (m : memory) (chains0 : list (list list_entry))
  (todo : list (list (Z * Z))) (t0 : table api).
Hypothesis laws : table_laws api.
Hypothesis capacity_pos : 0 < HASH_TABLE_CAPACITY.

Lemma add_entries_app (t : table api) (a b : list (Z * Z)) :
  add_entries api m t (a ++ b)
  = (t' ← add_entries api m t a; add_entries api m t' b).
Proof.
  revert t. induction a as [|[k v] a IH]; intros t; [done|]. cbn.
  destruct (add_entry api m true t k v) as [t'| | | |]; cbn; [|done..].
  apply IH.
Qed.

(** The write of thread [i] is the insertion of its call on the table of
    the calls written so far. *)
Lemma linearised_write (σ σ' : machine) (i : nat) (th : thread) (k v : Z)
    (rest made : list (Z * Z)) (s : string) (l : list list_entry) :
  linearised api m t0 todo σ →
  threads σ !! i = Some th → calls th = (k, v) :: rest →
  todo !! i = Some (made ++ calls th) →
  point_of th ≠ at_unlock →
  string_at m k = Some s → buckets σ !! bucket_index s = Some l →
  buckets σ' = <[bucket_index s := chain_put m s k v l]> (buckets σ) →
  threads σ'
  = <[i := {| point_of := at_unlock; calls := calls th |}]> (threads σ) →
  linearised api m t0 todo σ'.
Proof.
  intros (order & t & Horder & Hadd & Hwf & Hchains) Hth Hcalls Hc0 Hat Hk Hl
    Hb' Hth'.
  rewrite <- Hchains in Hl.
  destruct (add_entry_chains api laws m true t k v s l Hwf Hk Hl)
    as (t' & Hadd' & Hwf' & Hchains' & _); [by left|].
  exists (order ++ [(k, v)]), t'. split_and!; [| |done|].
  - rewrite (written_write todo σ σ' i made rest (k, v) th); [|done..].
    by rewrite <- Permutation_cons_append, Horder.
  - rewrite add_entries_app, Hadd. cbn. by rewrite Hadd'.
  - by rewrite Hchains', Hb', Hchains.
Qed.

Lemma linearised_same (σ σ' : machine) (i : nat) (th : thread)
    (made : list (Z * Z)) (p : point) :
  linearised api m t0 todo σ →
  threads σ !! i = Some th → todo !! i = Some (made ++ calls th) →
  point_of th ≠ at_unlock → p ≠ at_unlock →
  buckets σ' = buckets σ →
  threads σ' = <[i := {| point_of := p; calls := calls th |}]> (threads σ) →
  linearised api m t0 todo σ'.
Proof.
  intros (order & t & Horder & Hadd & Hwf & Hchains) Hth Hc0 Hat Hp Hb' Hth'.
  exists order, t. split_and!; [|done..|by rewrite Hb'].
  by rewrite (written_same todo σ σ' i made th p).
Qed.

Lemma linearised_unlock (σ σ' : machine) (i : nat) (th : thread)
    (kv : Z * Z) (rest made : list (Z * Z)) :
  linearised api m t0 todo σ →
  threads σ !! i = Some th → calls th = kv :: rest →
  point_of th = at_unlock →
  todo !! i = Some (made ++ calls th) →
  buckets σ' = buckets σ →
  threads σ' = <[i := {| point_of := at_lock; calls := rest |}]> (threads σ) →
  linearised api m t0 todo σ'.
Proof.
  intros (order & t & Horder & Hadd & Hwf & Hchains) Hth Hcalls Hat Hc0 Hb'
    Hth'.
  exists order, t. split_and!; [|done..|by rewrite Hb'].
  by rewrite (written_unlock todo σ σ' i made rest kv th).
Qed.

Hypothesis keys_valid : Forall (λ kv, is_Some (string_at m kv.1)) (mjoin todo).
Hypothesis keys_distinct : NoDup (call_strings m (mjoin todo)).

(** Every step keeps the chains of the machine those of a sequence of
    insertions of one thread. *)
Lemma step_linearised (σ σ' : machine) (i : nat) :
  invariant d m chains0 todo σ → linearised api m t0 todo σ →
  step d m true i σ = Some (Returns σ') →
  linearised api m t0 todo σ'.
Proof.
  intros Hinv Hlin. unfold step.
  destruct (threads σ !! i) as [th|] eqn:Hi; [|done].
  destruct (calls th) as [|[k v] rest] eqn:Hcalls; [done|].
  destruct (invariant_thread d m chains0 todo σ i th k v rest Hinv Hi Hcalls)
    as (made & s & l & Hc0 & Hmade & Hk & Hl & Hrl & Hokl & Hown & Hp).
  rewrite <- Hcalls in Hc0 |- *.
  destruct (point_of th) as [| |pos| |next|] eqn:Hat;
    rewrite ?(guard_of_string d m k s Hk), ?(bucket_of_string m k s Hk);
    unfold chain_at; cbn; rewrite ?Hl; cbn.
  - destruct (owners σ !! mutex_no d s) eqn:Hfree; [done|].
    intros [= <-].
    apply (linearised_same σ _ i th made at_find); try done.
    by rewrite Hat.
  - rewrite (list_foreach_find m k s l Hk Hrl). cbn.
    destruct (list_find (key_is m s) l) as [[pos e]|]; cbn; intros [= <-].
    + apply (linearised_same σ _ i th made (at_update pos)); try done.
      by rewrite Hat.
    + apply (linearised_same σ _ i th made at_insert); try done.
      by rewrite Hat.
  - intros [= <-]. destruct Hp as [e Hfind].
    apply (linearised_write σ _ i th k v rest made s l); try done.
    + by rewrite Hat.
    + cbn. unfold chain_put. by rewrite Hfind.
  - intros [= <-].
    apply (linearised_same σ _ i th made (at_link l)); try done.
    by rewrite Hat.
  - intros [= <-]. destruct Hp as [-> Hfind].
    apply (linearised_write σ _ i th k v rest made s l); try done.
    + by rewrite Hat.
    + cbn. unfold chain_put. by rewrite Hfind.
  - rewrite decide_True by by apply Hown. intros [= <-].
    by apply (linearised_unlock σ _ i th (k, v) rest made).
Qed.

Lemma exec_linearised (schedule : list (nat * bool)) (σ σ' : machine) :
  allocations_succeed schedule →
  invariant d m chains0 todo σ → linearised api m t0 todo σ →
  exec d m schedule σ = Returns σ' →
  linearised api m t0 todo σ'.
Proof.
  intros Hmem. revert σ.
  induction Hmem as [|[i c] schedule Hc _ IH]; intros σ Hinv Hlin; cbn.
  - by intros [= <-].
  - cbn in Hc. subst c.
    destruct (step d m true i σ) as [o|] eqn:Hstep; [|by apply IH].
    destruct (step_invariant d m chains0 todo capacity_pos keys_valid
                keys_distinct σ i o Hinv Hstep) as (σ1 & -> & Hinv1 & _).
    cbn. apply IH; [done|]. by apply (step_linearised σ σ1 i).
Qed.

Lemma start_linearised :
  wf api m t0 → chains api t0 = chains0 →
  linearised api m t0 todo (start chains0 todo).
Proof.
  intros Hwf Hchains. exists [], t0. by rewrite written_start.
Qed.

(** At the barrier the chains are those of the calls of all the threads,
    made by one thread in some order. *)
Lemma finished_sequential (σ : machine) :
  invariant d m chains0 todo σ → linearised api m t0 todo σ →
  finished σ → sequential api m t0 (mjoin todo) (buckets σ).
Proof.
  intros Hinv (order & t & Horder & Hadd & _ & Hchains) Hfin.
  exists order, t. split_and!; [|done..].
  rewrite Horder. rewrite written_finished; [done| |done].
  by apply (inv_count _ _ _ _ _ Hinv).
Qed.
End Linear.

Lemma v1_chains_table {base : hash_table_base}
    (chains0 : list (list list_entry)) :
  chains v1_api (v1_table chains0) = chains0.
Proof.
  cbn. unfold v1_chains, v1_table. cbn. rewrite <- list_fmap_compose.
  rewrite <- (list_fmap_id chains0) at 2. by apply list_fmap_ext.
Qed.

Lemma v2_chains_table {base : hash_table_base}
    (chains0 : list (list list_entry)) :
  chains v2_api (v2_table chains0) = chains0.
Proof.
  cbn. unfold v2_chains, v2_table. cbn. rewrite <- list_fmap_compose.
  rewrite <- (list_fmap_id chains0) at 2. by apply list_fmap_ext.
Qed.

(** A call that is in the chains is seen by [contains] and [get_value]. *)
Lemma has_value_inserted {base : hash_table_base} (api : table_api)
    (m : memory) (t : table api) (kv : Z * Z) :
  table_laws api → Forall (readable m) (chains api t) →
  chains_ok m (chains api t) →
  has_value m (chains api t) kv → inserted api m t kv.
Proof.
  intros laws Hread Hok (s & l & pos & e & Hk & Hl & Hfind & Hv).
  assert (readable m l) as Hrl
    by apply (proj1 (Forall_lookup _ _) Hread _ _ Hl).
  split_and!.
  - rewrite (contains_find api laws m t kv.1 s l Hk Hl Hrl), Hfind.
    by rewrite bool_decide_eq_true_2.
  - rewrite (get_value_find api laws m t kv.1 s l Hk Hl Hrl), Hfind.
    by rewrite Hv.
  - exists s. split; [done|].
    rewrite (entries_for_bucket m s _ l Hok Hl), filter_key_is_length.
    apply NoDup_filter_eq_length; [by destruct (Hok _ _ Hl)|].
    apply list_find_Some in Hfind as (Hpos & He & _).
    apply list_elem_of_fmap. exists e. split; [done|].
    by eapply list_elem_of_lookup_2.
Qed.

Section Barrier.
Context {base : hash_table_base} (m : memory)
(chains0 : list (list list_entry)) (todo : list (list (Z * Z))).
Hypothesis capacity_pos : 0 < HASH_TABLE_CAPACITY.
Hypothesis chains_length : length chains0 = Z.to_nat HASH_TABLE_CAPACITY.
Hypothesis chains_readable : Forall (readable m) chains0.
Hypothesis chains_invariant : chains_ok m chains0.
Hypothesis keys_valid : Forall (λ kv, is_Some (string_at m kv.1)) (mjoin todo).
Hypothesis keys_distinct : NoDup (call_strings m (mjoin todo)).

(** Whatever the schedule, as long as [calloc] has memory: the process
  does not stop, some thread can move as long as a call is left, the
  barrier can be reached, and at the barrier the chains satisfy the
  invariant, hold every call, and are those of the same calls made by one
  thread with [add_entry], in some order. *)
Lemma schedule_is_safe (api : table_api) (t0 : table api) (d : locking)
  (schedule : list (nat * bool)) :
table_laws api → wf api m t0 → chains api t0 = chains0 →
allocations_succeed schedule →
∃ σ, exec d m schedule (start chains0 todo) = Returns σ
     ∧ (¬ finished σ → ∃ i, ∀ calloc_ok, is_Some (step d m calloc_ok i σ))
     ∧ (∃ more σ', exec d m more σ = Returns σ' ∧ finished σ')
     ∧ (finished σ →
        Forall (readable m) (buckets σ)
        ∧ chains_ok m (buckets σ)
        ∧ Forall (has_value m (buckets σ)) (mjoin todo)
        ∧ (∀ s, Some s ∉ call_strings m (mjoin todo) →
                lookup_value m (buckets σ) s = lookup_value m chains0 s)
        ∧ sequential api m t0 (mjoin todo) (buckets σ)).
Proof.
intros laws Hwf0 Hchains0 Hmem.
pose proof (start_invariant d m chains0 todo capacity_pos keys_valid
              chains_length chains_readable chains_invariant) as Hinv0.
destruct (exec_invariant d m chains0 todo capacity_pos keys_valid
            keys_distinct schedule _ Hmem Hinv0) as (σ & Hexec & Hinv).
pose proof (exec_linearised api d m chains0 todo t0 laws capacity_pos
              keys_valid keys_distinct schedule _ σ Hmem Hinv0
              (start_linearised api m chains0 todo t0 Hwf0 Hchains0) Hexec)
  as Hlin.
exists σ. split_and!; [done|..].
- by apply (invariant_progress d m chains0 todo).
- destruct (invariant_can_finish d m chains0 todo capacity_pos keys_valid
              keys_distinct σ Hinv) as (more & σ' & ? & ? & _).
  by exists more, σ'.
- intros Hfin. split_and!.
  + by apply (inv_readable _ _ _ _ _ Hinv).
  + by apply (inv_chains _ _ _ _ _ Hinv).
  + by apply (finished_has_values d m chains0 todo).
  + by apply (inv_others _ _ _ _ _ Hinv).
  + by apply (finished_sequential api d m chains0 todo t0).
Qed.
End Barrier.

(** * What a lookup says of the content of the table *)

Lemma NoDup_fmap_elem {A B} (f : A → B) (l : list A) (x y : A) :
  NoDup (f <$> l) → x ∈ l → y ∈ l → f x = f y → x = y.
Proof.
  intros Hnd [i Hi]%list_elem_of_lookup [j Hj]%list_elem_of_lookup Heq.
  assert (i = j) as ->.
  { apply (NoDup_lookup _ i j (f x) Hnd); rewrite list_lookup_fmap.
    - by rewrite Hi.
    - by rewrite Hj, Heq. }
  congruence.
Qed.

Section Content.
Context {base : hash_table_base} (m : memory)
  (table_chains : list (list list_entry)) (s : string)
  (l : list list_entry).
Hypothesis chains_invariant : chains_ok m table_chains.
Hypothesis bucket_of_s : table_chains !! bucket_index s = Some l.

(** A node whose key reads [s] is in the chain the lookups of [s]
    search. *)
Lemma node_in_bucket (l' : list list_entry) (entry : list_entry) :
  l' ∈ table_chains → entry ∈ l' → key_is m s entry → l' = l.
Proof.
  intros [i Hi]%list_elem_of_lookup Hentry Hkey.
  destruct (chains_invariant i l' Hi) as [Hroute _].
  assert (bucket_index <$> Some s = Some i) as Hidx.
  { apply (proj1 (Forall_forall _ _) Hroute). unfold key_is in Hkey.
    rewrite <- Hkey. apply list_elem_of_fmap. by exists entry. }
  cbn in Hidx. injection Hidx as <-. congruence.
Qed.

Lemma absent_find :
  absent m table_chains s ↔ list_find (key_is m s) l = None.
Proof.
  rewrite list_find_None, Forall_forall. split.
  - intros Habs entry Hentry.
    apply (Habs l); [by eapply list_elem_of_lookup_2|done].
  - intros Hnone l' entry Hl' Hentry Hkey.
    rewrite (node_in_bucket l' entry) in Hentry by done.
    by apply (Hnone entry).
Qed.

Lemma find_stored (pos : nat) (entry : list_entry) :
  list_find (key_is m s) l = Some (pos, entry) →
  stored m table_chains s (value entry)
  ∧ ∀ v, stored m table_chains s v → v = value entry.
Proof.
  intros (Hpos & Hkey & _)%list_find_Some.
  assert (entry ∈ l) as Hin by by eapply list_elem_of_lookup_2.
  split.
  - exists l, entry. split_and!; [|done..].
    by eapply list_elem_of_lookup_2.
  - intros v (l' & entry' & Hl' & Hentry' & Hkey' & <-).
    rewrite (node_in_bucket l' entry') in Hentry' by done.
    f_equal. destruct (chains_invariant _ _ bucket_of_s) as [_ Hnd].
    apply (NoDup_fmap_elem (λ e, string_at m (key e)) l); [done..|].
    unfold key_is in *. congruence.
Qed.
End Content.

Section LookupContent.
Context {base : hash_table_base} (api : table_api).
Hypothesis laws : table_laws api.
Hypothesis capacity_pos : 0 < HASH_TABLE_CAPACITY.

(** [get_value] stops on its assertion, and [contains] answers false,
    exactly for the strings no node of the table holds; for the others
    [get_value] returns the one value the table holds for the string. *)
Lemma lookup_content (m : memory) (t : table api) (k : Z) (s : string) :
  table_ok api m t → string_at m k = Some s →
  (get_value api m t k = Aborted ↔ absent m (chains api t) s)
  ∧ (contains api m t k = Returns false ↔ absent m (chains api t) s)
  ∧ (contains api m t k = Returns true →
     ∃ v, get_value api m t k = Returns v
          ∧ stored m (chains api t) s v
          ∧ ∀ v', stored m (chains api t) s v' → v' = v).
Proof.
  intros [Hwf Hok] Hk.
  destruct (wf_chain api capacity_pos m t s Hwf) as (l & Hl & Hrl).
  rewrite (contains_find api laws m t k s _ Hk Hl Hrl).
  rewrite (get_value_find api laws m t k s _ Hk Hl Hrl).
  rewrite (absent_find m _ s l Hok Hl).
  destruct (list_find _ l) as [[pos e]|] eqn:Hfind.
  - rewrite bool_decide_eq_true_2 by by eexists.
    split_and!; [split; intros [=]..|].
    intros _. exists (value e). split; [done|].
    by apply (find_stored m _ s l Hok Hl pos).
  - rewrite bool_decide_eq_false_2 by by intros [??].
    split_and!; [done..|]. by intros [=].
Qed.
End LookupContent.

(** * The properties of the specification *)

(** The run of section 8 of the spec, with 1024 buckets and the seed 5381:
    alice is inserted with 1, bob with 2, alice again (from a second
    buffer) with 3; carol is never inserted. *)
Example end_to_end_run :
  let m : memory := <[400 := "carol"%string]> example_memory in
  run_from (base := spec_base 1024 5381) v1_api
    (V1.hash_table_v1_create (base := spec_base 1024 5381) true 0)
    [(m, AddEntry true 100 1); (m, AddEntry true 300 2);
     (m, AddEntry true 200 3); (m, Contains 100); (m, GetValue 100);
     (m, Contains 400); (m, GetValue 300)]
  = [Returns Added; Returns Added; Returns Added; Returns (Found true);
     Returns (Value 3); Returns (Found false); Returns (Value 2)].
Proof. vm_compute. reflexivity. Qed.

(** C1: in both variants, on a well-formed table and for a key that points
    to a string, [add_entry] returns, and right after it [contains] answers
    true for the key and [get_value] returns the value just stored. *)
Theorem add_entry_then_contains_and_get {base : hash_table_base}
    (m : memory) (t1 : V1.hash_table_v1) (t2 : V2.hash_table_v2) (k v : Z) :
  0 < HASH_TABLE_CAPACITY →
  wf v1_api m t1 → wf v2_api m t2 → is_Some (string_at m k) →
  (∃ t1', V1.hash_table_v1_add_entry m true t1 k v = Returns t1'
          ∧ V1.hash_table_v1_contains m t1' k = Returns true
          ∧ V1.hash_table_v1_get_value m t1' k = Returns v)
  ∧ (∃ t2', V2.hash_table_v2_add_entry m true t2 k v = Returns t2'
            ∧ V2.hash_table_v2_contains m t2' k = Returns true
            ∧ V2.hash_table_v2_get_value m t2' k = Returns v).
Proof.
  intros Hcap Hwf1 Hwf2 Hk. split.
  - by apply (add_entry_lookup v1_api v1_laws).
  - by apply (add_entry_lookup v2_api v2_laws).
Qed.

Lemma add_entry_then_contains_and_get_witness :
  (∃ t1', V1.hash_table_v1_add_entry (base := example_base)
            example_memory true example_v1 100 7 = Returns t1'
          ∧ V1.hash_table_v1_contains (base := example_base)
              example_memory t1' 100 = Returns true
          ∧ V1.hash_table_v1_get_value (base := example_base)
              example_memory t1' 100 = Returns 7)
  ∧ (∃ t2', V2.hash_table_v2_add_entry (base := example_base)
              example_memory true example_v2 100 7 = Returns t2'
            ∧ V2.hash_table_v2_contains (base := example_base)
                example_memory t2' 100 = Returns true
            ∧ V2.hash_table_v2_get_value (base := example_base)
                example_memory t2' 100 = Returns 7).
Proof.
  apply (add_entry_then_contains_and_get (base := example_base));
    compute_done.
Defined.

(** C2: in both variants, on a table that satisfies the invariant, two
    insertions for one key leave exactly one node for the string of the
    key in the table, carrying the second value; the second insertion
    returns whether or not memory is left, and the chains hold the same
    key pointers after it as before it. *)
Theorem add_entry_twice_updates_in_place {base : hash_table_base}
    (m : memory) (calloc_ok : bool) (t1 : V1.hash_table_v1)
    (t2 : V2.hash_table_v2) (k v1 v2 : Z) (s : string) :
  0 < HASH_TABLE_CAPACITY →
  table_ok v1_api m t1 → table_ok v2_api m t2 → string_at m k = Some s →
  (∃ a b, V1.hash_table_v1_add_entry m true t1 k v1 = Returns a
          ∧ V1.hash_table_v1_add_entry m calloc_ok a k v2 = Returns b
          ∧ entries_for m s (v1_chains b) = 1%nat
          ∧ V1.hash_table_v1_get_value m b k = Returns v2
          ∧ chain_keys <$> v1_chains b = chain_keys <$> v1_chains a)
  ∧ (∃ a b, V2.hash_table_v2_add_entry m true t2 k v1 = Returns a
            ∧ V2.hash_table_v2_add_entry m calloc_ok a k v2 = Returns b
            ∧ entries_for m s (v2_chains b) = 1%nat
            ∧ V2.hash_table_v2_get_value m b k = Returns v2
            ∧ chain_keys <$> v2_chains b = chain_keys <$> v2_chains a).
Proof.
  intros Hcap Hok1 Hok2 Hk. split.
  - by apply (add_entry_twice v1_api v1_laws).
  - by apply (add_entry_twice v2_api v2_laws).
Qed.

Lemma add_entry_twice_updates_in_place_witness :
  (∃ a b, V1.hash_table_v1_add_entry (base := example_base)
            example_memory true example_v1 100 1 = Returns a
          ∧ V1.hash_table_v1_add_entry (base := example_base)
              example_memory false a 100 3 = Returns b
          ∧ entries_for example_memory "alice" (v1_chains b) = 1%nat
          ∧ V1.hash_table_v1_get_value (base := example_base)
              example_memory b 100 = Returns 3
          ∧ chain_keys <$> v1_chains b = chain_keys <$> v1_chains a)
  ∧ (∃ a b, V2.hash_table_v2_add_entry (base := example_base)
              example_memory true example_v2 100 1 = Returns a
            ∧ V2.hash_table_v2_add_entry (base := example_base)
                example_memory false a 100 3 = Returns b
            ∧ entries_for example_memory "alice" (v2_chains b) = 1%nat
            ∧ V2.hash_table_v2_get_value (base := example_base)
                example_memory b 100 = Returns 3
            ∧ chain_keys <$> v2_chains b = chain_keys <$> v2_chains a).
Proof.
  apply (add_entry_twice_updates_in_place (base := example_base));
    compute_done.
Defined.

(** C3, counterexample: the table keeps the pointer, not the bytes.  The
    client inserts the key at address 100, which reads alice, and then
    writes carol into that buffer; the string alice, still in the buffer at
    address 200, is no longer found, in either variant. *)
Lemma overwritten_key_buffer_is_not_found :
  let m' : memory := <[100 := "carol"%string]> example_memory in
  string_at m' 200 = string_at example_memory 100
  ∧ (t' ← V1.hash_table_v1_add_entry (base := example_base)
            example_memory true example_v1 100 7;
     V1.hash_table_v1_contains (base := example_base) m' t' 200)
    = Returns false
  ∧ (t' ← V2.hash_table_v2_add_entry (base := example_base)
            example_memory true example_v2 100 7;
     V2.hash_table_v2_contains (base := example_base) m' t' 200)
    = Returns false.
Proof. cbv zeta. split_and!; vm_compute; reflexivity. Qed.

(** C3, amended: in both variants the node of a new key holds the pointer
    the caller passed, and after [add_entry] returns, [contains] and
    [get_value] find the string of the key through any pointer to it, in
    every later memory in which the buffers whose pointers the table holds
    (that of the key among them) still hold what they held. *)
Theorem add_entry_borrows_the_key {base : hash_table_base}
    (m m' : memory) (t1 : V1.hash_table_v1) (t2 : V2.hash_table_v2)
    (k k' v : Z) (s : string) :
  0 < HASH_TABLE_CAPACITY →
  wf v1_api m t1 → wf v2_api m t2 → string_at m k = Some s →
  (∃ t1', V1.hash_table_v1_add_entry m true t1 k v = Returns t1'
          ∧ (V1.hash_table_v1_contains m t1 k = Returns false →
             k ∈ stored_keys (v1_chains t1'))
          ∧ ((∀ p, p ∈ stored_keys (v1_chains t1') →
                   string_at m' p = string_at m p) →
             string_at m' k' = Some s →
             V1.hash_table_v1_contains m' t1' k' = Returns true
             ∧ V1.hash_table_v1_get_value m' t1' k' = Returns v))
  ∧ (∃ t2', V2.hash_table_v2_add_entry m true t2 k v = Returns t2'
            ∧ (V2.hash_table_v2_contains m t2 k = Returns false →
               k ∈ stored_keys (v2_chains t2'))
            ∧ ((∀ p, p ∈ stored_keys (v2_chains t2') →
                     string_at m' p = string_at m p) →
               string_at m' k' = Some s →
               V2.hash_table_v2_contains m' t2' k' = Returns true
               ∧ V2.hash_table_v2_get_value m' t2' k' = Returns v)).
Proof.
  intros Hcap Hwf1 Hwf2 Hk. split.
  - by apply (add_entry_borrows v1_api v1_laws).
  - by apply (add_entry_borrows v2_api v2_laws).
Qed.

Lemma add_entry_borrows_the_key_witness :
  let m' : memory := <[300 := "carol"%string]> example_memory in
  (∃ t1', V1.hash_table_v1_add_entry (base := example_base)
            example_memory true example_v1 100 7 = Returns t1'
          ∧ (V1.hash_table_v1_contains (base := example_base)
               example_memory example_v1 100 = Returns false →
             100 ∈ stored_keys (v1_chains t1'))
          ∧ ((∀ p, p ∈ stored_keys (v1_chains t1') →
                   string_at m' p = string_at example_memory p) →
             string_at m' 200 = Some "alice"%string →
             V1.hash_table_v1_contains (base := example_base) m' t1' 200
             = Returns true
             ∧ V1.hash_table_v1_get_value (base := example_base) m' t1' 200
               = Returns 7))
  ∧ (∃ t2', V2.hash_table_v2_add_entry (base := example_base)
              example_memory true example_v2 100 7 = Returns t2'
            ∧ (V2.hash_table_v2_contains (base := example_base)
                 example_memory example_v2 100 = Returns false →
               100 ∈ stored_keys (v2_chains t2'))
            ∧ ((∀ p, p ∈ stored_keys (v2_chains t2') →
                     string_at m' p = string_at example_memory p) →
               string_at m' 200 = Some "alice"%string →
               V2.hash_table_v2_contains (base := example_base) m' t2' 200
               = Returns true
               ∧ V2.hash_table_v2_get_value (base := example_base) m' t2' 200
                 = Returns 7)).
Proof.
  apply (add_entry_borrows_the_key (base := example_base)); compute_done.
Defined.

(** C4: the hash function of the spec is a function of the bytes of the key
    alone: it is the seed on the empty string, it is extended by one byte
    [c] as [accumulator * 33 + c] on 32 bits, and it stays within 32 bits;
    and both variants route every pointer to a string [s], whatever the
    memory and the table, to the bucket [hash(s) mod capacity]. *)
Theorem bernstein_hash_routes_alike (capacity seed : Z) :
  0 < seed < 2 ^ 32 → 0 < capacity →
  let base := spec_base capacity seed in
  bernstein_hash EmptyString = seed
  ∧ (∀ s c, bernstein_hash (s +:+ String c EmptyString)
            = uint32 (bernstein_hash s * 33 + byte_of c))
  ∧ (∀ s, 0 ≤ bernstein_hash s < 2 ^ 32)
  ∧ (∀ m m' t1 t2 k k' s,
       string_at m k = Some s → string_at m' k' = Some s →
       V1.get_hash_table_entry m t1 k
       = Returns (Z.to_nat (bernstein_hash s `mod` capacity))
       ∧ V2.get_hash_table_entry m' t2 k'
         = Returns (Z.to_nat (bernstein_hash s `mod` capacity))
       ∧ 0 ≤ bernstein_hash s `mod` capacity < capacity).
Proof.
  intros Hseed Hcap base. split_and!.
  - done.
  - intros s c. cbn. unfold bernstein_hash_spec.
    by rewrite bernstein_loop_app.
  - intros s. apply bernstein_loop_range. lia.
  - intros m m' t1 t2 k k' s Hk Hk'. split; [|split].
    + by rewrite (v1_get_hash_table_entry _ _ _ _ Hk).
    + by rewrite (v2_get_hash_table_entry _ _ _ _ Hk').
    + by apply Z.mod_pos_bound.
Qed.

Lemma bernstein_hash_routes_alike_witness :
  let base := spec_base 4 5381 in
  bernstein_hash EmptyString = 5381
  ∧ (∀ s c, bernstein_hash (s +:+ String c EmptyString)
            = uint32 (bernstein_hash s * 33 + byte_of c))
  ∧ (∀ s, 0 ≤ bernstein_hash s < 2 ^ 32)
  ∧ (∀ m m' t1 t2 k k' s,
       string_at m k = Some s → string_at m' k' = Some s →
       V1.get_hash_table_entry m t1 k
       = Returns (Z.to_nat (bernstein_hash s `mod` 4))
       ∧ V2.get_hash_table_entry m' t2 k'
         = Returns (Z.to_nat (bernstein_hash s `mod` 4))
       ∧ 0 ≤ bernstein_hash s `mod` 4 < 4).
Proof. apply (bernstein_hash_routes_alike 4 5381); lia. Defined.

(** C5: every sequence of calls a client makes on a table it created gets
    the same answers from the two variants, call by call, up to and
    including a call that stops the process; the client may write to its
    buffers between the calls. *)
Theorem variants_answer_alike {base : hash_table_base} (calloc_ok : bool)
    (calls : list (memory * call)) :
  run_from v1_api (V1.hash_table_v1_create calloc_ok 0) calls
  = run_from v2_api (V2.hash_table_v2_create calloc_ok (λ _, 0)) calls.
Proof.
  destruct calloc_ok; [|done].
  destruct v1_create_returns as (t1 & -> & Hchains1 & Hmu).
  destruct v2_create_returns as (t2 & -> & Hchains2 & Hfree).
  cbn. apply same_chains_run. split_and!; [done..|congruence].
Qed.

(** C6: in both variants the table that [create] returns satisfies the
    invariant (every node sits in the bucket its string is routed to, no
    two nodes of a bucket point to equal strings), and every sequence of
    insertions into a table that satisfies it returns a table that
    satisfies it. *)
Theorem add_entries_keep_the_invariant {base : hash_table_base}
    (m : memory) (kvs : list (Z * Z)) :
  0 < HASH_TABLE_CAPACITY →
  Forall (λ kv, is_Some (string_at m kv.1)) kvs →
  ((∃ t0, V1.hash_table_v1_create true 0 = Returns t0
          ∧ table_ok v1_api m t0)
   ∧ ∀ t, table_ok v1_api m t →
          ∃ t', add_entries v1_api m t kvs = Returns t'
                ∧ table_ok v1_api m t')
  ∧ ((∃ t0, V2.hash_table_v2_create true (λ _, 0) = Returns t0
            ∧ table_ok v2_api m t0)
     ∧ ∀ t, table_ok v2_api m t →
            ∃ t', add_entries v2_api m t kvs = Returns t'
                  ∧ table_ok v2_api m t').
Proof.
  intros Hcap Hkvs. split_and!.
  - destruct v1_create_returns as (t0 & Hcreate & Hchains & Hmu).
    exists t0. split; [done|]. by apply empty_table_ok.
  - intros t Hok. by apply (add_entries_table_ok v1_api v1_laws).
  - destruct v2_create_returns as (t0 & Hcreate & Hchains & Hmu).
    exists t0. split; [done|]. by apply empty_table_ok.
  - intros t Hok. by apply (add_entries_table_ok v2_api v2_laws).
Qed.

Lemma add_entries_keep_the_invariant_witness :
  let kvs := [(100, 1); (300, 2); (200, 3)] in
  ((∃ t0, V1.hash_table_v1_create (base := example_base) true 0 = Returns t0
          ∧ table_ok (base := example_base) v1_api example_memory t0)
   ∧ ∀ t, table_ok (base := example_base) v1_api example_memory t →
          ∃ t', add_entries (base := example_base) v1_api example_memory
                  t kvs = Returns t'
                ∧ table_ok (base := example_base) v1_api example_memory t')
  ∧ ((∃ t0, V2.hash_table_v2_create (base := example_base) true (λ _, 0)
            = Returns t0
            ∧ table_ok (base := example_base) v2_api example_memory t0)
     ∧ ∀ t, table_ok (base := example_base) v2_api example_memory t →
            ∃ t', add_entries (base := example_base) v2_api example_memory
                    t kvs = Returns t'
                  ∧ table_ok (base := example_base) v2_api example_memory t').
Proof.
  apply (add_entries_keep_the_invariant (base := example_base));
    compute_done.
Defined.

(** C7: in both variants, on a table that satisfies the invariant of the
    data model and for a key that points to a string, [get_value] stops on
    its assertion exactly when the string is absent from the table (no
    node of any chain has a key that reads it), which is also exactly when
    [contains] answers false; when [contains] answers true, [get_value]
    returns, and what it returns is the value the table holds for the
    string, the only one. *)
Theorem get_value_aborts_iff_absent {base : hash_table_base}
    (m : memory) (t1 : V1.hash_table_v1) (t2 : V2.hash_table_v2) (k : Z)
    (s : string) :
  0 < HASH_TABLE_CAPACITY →
  table_ok v1_api m t1 → table_ok v2_api m t2 → string_at m k = Some s →
  ((V1.hash_table_v1_get_value m t1 k = Aborted
    ↔ absent m (v1_chains t1) s)
   ∧ (V1.hash_table_v1_contains m t1 k = Returns false
      ↔ absent m (v1_chains t1) s)
   ∧ (V1.hash_table_v1_contains m t1 k = Returns true →
      ∃ v, V1.hash_table_v1_get_value m t1 k = Returns v
           ∧ stored m (v1_chains t1) s v
           ∧ ∀ v', stored m (v1_chains t1) s v' → v' = v))
  ∧ ((V2.hash_table_v2_get_value m t2 k = Aborted
      ↔ absent m (v2_chains t2) s)
     ∧ (V2.hash_table_v2_contains m t2 k = Returns false
        ↔ absent m (v2_chains t2) s)
     ∧ (V2.hash_table_v2_contains m t2 k = Returns true →
        ∃ v, V2.hash_table_v2_get_value m t2 k = Returns v
             ∧ stored m (v2_chains t2) s v
             ∧ ∀ v', stored m (v2_chains t2) s v' → v' = v)).
Proof.
  intros Hcap Hok1 Hok2 Hk. split.
  - by apply (lookup_content v1_api v1_laws).
  - by apply (lookup_content v2_api v2_laws).
Qed.

Lemma get_value_aborts_iff_absent_witness :
  let t1 := v1_table example_chains in
  let t2 := v2_table example_chains in
  ((V1.hash_table_v1_get_value (base := example_base)
      example_memory t1 200 = Aborted
    ↔ absent example_memory (v1_chains t1) "alice")
   ∧ (V1.hash_table_v1_contains (base := example_base)
        example_memory t1 200 = Returns false
      ↔ absent example_memory (v1_chains t1) "alice")
   ∧ (V1.hash_table_v1_contains (base := example_base)
        example_memory t1 200 = Returns true →
      ∃ v, V1.hash_table_v1_get_value (base := example_base)
             example_memory t1 200 = Returns v
           ∧ stored example_memory (v1_chains t1) "alice" v
           ∧ ∀ v', stored example_memory (v1_chains t1) "alice" v' →
                   v' = v))
  ∧ ((V2.hash_table_v2_get_value (base := example_base)
        example_memory t2 200 = Aborted
      ↔ absent example_memory (v2_chains t2) "alice")
     ∧ (V2.hash_table_v2_contains (base := example_base)
          example_memory t2 200 = Returns false
        ↔ absent example_memory (v2_chains t2) "alice")
     ∧ (V2.hash_table_v2_contains (base := example_base)
          example_memory t2 200 = Returns true →
        ∃ v, V2.hash_table_v2_get_value (base := example_base)
               example_memory t2 200 = Returns v
             ∧ stored example_memory (v2_chains t2) "alice" v
             ∧ ∀ v', stored example_memory (v2_chains t2) "alice" v' →
                     v' = v)).
Proof.
  apply (get_value_aborts_iff_absent (base := example_base)
           example_memory (v1_table example_chains)
           (v2_table example_chains) 200 "alice");
    compute_done.
Defined.

(** C8, at the failing input: creation stops the process when the table
    cannot be allocated or a mutex cannot be made, but [add_entry] for a
    new key, when [calloc] has no memory for the node, goes on to write
    through the null pointer, in both variants. *)
Theorem add_entry_without_memory_is_undefined :
  V1.hash_table_v1_create (base := example_base) false 0 = Aborted
  ∧ V2.hash_table_v2_create (base := example_base) false (λ _, 0) = Aborted
  ∧ V1.hash_table_v1_create (base := example_base) true 12 = Exited
  ∧ V2.hash_table_v2_create (base := example_base) true
      (λ i, if decide (i = 2%nat) then 12 else 0) = Exited
  ∧ V1.hash_table_v1_add_entry (base := example_base)
      example_memory false example_v1 100 7 = Undefined
  ∧ V2.hash_table_v2_add_entry (base := example_base)
      example_memory false example_v2 100 7 = Undefined.
Proof. split_and!; vm_compute; reflexivity. Qed.

(** C9: in both variants an insertion on a well-formed table returns a
    table in which the chain of every bucket other than the one the key is
    routed to is the chain it was. *)
Theorem add_entry_leaves_other_buckets {base : hash_table_base}
    (m : memory) (t1 : V1.hash_table_v1) (t2 : V2.hash_table_v2)
    (k v : Z) (s : string) :
  0 < HASH_TABLE_CAPACITY →
  wf v1_api m t1 → wf v2_api m t2 → string_at m k = Some s →
  (∃ t1', V1.hash_table_v1_add_entry m true t1 k v = Returns t1'
          ∧ ∀ i, i ≠ bucket_index s →
                 v1_chains t1' !! i = v1_chains t1 !! i)
  ∧ (∃ t2', V2.hash_table_v2_add_entry m true t2 k v = Returns t2'
            ∧ ∀ i, i ≠ bucket_index s →
                   v2_chains t2' !! i = v2_chains t2 !! i).
Proof.
  intros Hcap Hwf1 Hwf2 Hk. split.
  - by apply (add_entry_frame v1_api v1_laws).
  - by apply (add_entry_frame v2_api v2_laws).
Qed.

Lemma add_entry_leaves_other_buckets_witness :
  (∃ t1', V1.hash_table_v1_add_entry (base := example_base)
            example_memory true example_v1 100 7 = Returns t1'
          ∧ ∀ i, i ≠ bucket_index (base := example_base) "alice" →
                 v1_chains t1' !! i = v1_chains example_v1 !! i)
  ∧ (∃ t2', V2.hash_table_v2_add_entry (base := example_base)
              example_memory true example_v2 100 7 = Returns t2'
            ∧ ∀ i, i ≠ bucket_index (base := example_base) "alice" →
                   v2_chains t2' !! i = v2_chains example_v2 !! i).
Proof.
  apply (add_entry_leaves_other_buckets (base := example_base));
    compute_done.
Defined.

(** C10: in both variants, whatever the number of threads, the calls each
    of them makes and the schedule, if the keys of all the calls are valid
    and read pairwise different strings, the table satisfies the invariant
    of the data model and [calloc] has memory for every node, the process
    does not stop, no thread is held up for ever, and once all threads are
    at the barrier [contains] answers true and [get_value] returns the
    value of the call for every key, each key has exactly one node, the
    invariant holds, the strings that no thread inserted are looked up as
    before, and the chains are those that one thread gets by making the
    same calls with [add_entry] one after the other, in some order. *)
Theorem concurrent_insertions_are_all_present {base : hash_table_base}
    (m : memory) (chains0 : list (list list_entry))
    (todo : list (list (Z * Z))) (schedule : list (nat * bool)) :
  0 < HASH_TABLE_CAPACITY →
  length chains0 = Z.to_nat HASH_TABLE_CAPACITY →
  Forall (readable m) chains0 → chains_ok m chains0 →
  Forall (λ kv, is_Some (string_at m kv.1)) (mjoin todo) →
  NoDup (call_strings m (mjoin todo)) →
  allocations_succeed schedule →
  runs_safely table_lock m (start chains0 todo) schedule
    (λ σ, all_present v1_api m chains0 todo (v1_table (buckets σ))
          ∧ sequential v1_api m (v1_table chains0) (mjoin todo)
              (buckets σ))
  ∧ runs_safely bucket_lock m (start chains0 todo) schedule
      (λ σ, all_present v2_api m chains0 todo (v2_table (buckets σ))
            ∧ sequential v2_api m (v2_table chains0) (mjoin todo)
                (buckets σ)).
Proof.
  intros Hcap Hlen Hread Hok Hvalid Hdistinct Hmem. split.
  - destruct (schedule_is_safe m chains0 todo Hcap Hlen Hread Hok Hvalid
                Hdistinct v1_api (v1_table chains0) table_lock schedule
                v1_laws)
      as (σ & Hexec & Hprogress & Hmore & Hbarrier);
      [|by apply v1_chains_table|done|].
    { split_and!; [|done|]; by rewrite v1_chains_table. }
    exists σ. split_and!; [done..|]. intros Hfin.
    destruct (Hbarrier Hfin) as (Hread' & Hok' & Hvalues & Hothers & Hseq).
    split; [|done]. unfold all_present. rewrite v1_chains_table.
    split_and!; [done| |done].
    eapply Forall_impl; [exact Hvalues|]. intros kv Hkv.
    apply (has_value_inserted v1_api m (v1_table (buckets σ)) kv v1_laws);
      by rewrite v1_chains_table.
  - destruct (schedule_is_safe m chains0 todo Hcap Hlen Hread Hok Hvalid
                Hdistinct v2_api (v2_table chains0) bucket_lock schedule
                v2_laws)
      as (σ & Hexec & Hprogress & Hmore & Hbarrier);
      [|by apply v2_chains_table|done|].
    { split_and!; [| |]; rewrite ?v2_chains_table; try done.
      cbn. by apply Forall_fmap, Forall_forall. }
    exists σ. split_and!; [done..|]. intros Hfin.
    destruct (Hbarrier Hfin) as (Hread' & Hok' & Hvalues & Hothers & Hseq).
    split; [|done]. unfold all_present. rewrite v2_chains_table.
    split_and!; [done| |done].
    eapply Forall_impl; [exact Hvalues|]. intros kv Hkv.
    apply (has_value_inserted v2_api m (v2_table (buckets σ)) kv v2_laws);
      by rewrite v2_chains_table.
Qed.

Lemma concurrent_insertions_are_all_present_witness :
  let schedule :=
    [(0, true); (1, true); (1, true); (0, true); (0, true); (0, true);
     (0, true); (1, true); (1, true); (1, true); (1, true); (1, true);
     (1, true)]%nat in
  let chains0 : list (list list_entry) := replicate 4 [] in
  runs_safely (base := example_base) table_lock example_memory
    (start chains0 example_todo) schedule
    (λ σ, all_present (base := example_base) v1_api example_memory chains0
            example_todo (v1_table (buckets σ))
          ∧ sequential (base := example_base) v1_api example_memory
              (v1_table chains0) (mjoin example_todo) (buckets σ))
  ∧ runs_safely (base := example_base) bucket_lock example_memory
      (start chains0 example_todo) schedule
      (λ σ, all_present (base := example_base) v2_api example_memory chains0
              example_todo (v2_table (buckets σ))
            ∧ sequential (base := example_base) v2_api example_memory
                (v2_table chains0) (mjoin example_todo) (buckets σ)).
Proof.
  apply (concurrent_insertions_are_all_present (base := example_base));
    compute_done.
Defined.

(** * Lookups as a map from strings to values *)

Lemma lookup_value_chain_put {base : hash_table_base} (m : memory)
    (chains : list (list list_entry)) (s : string) (k v : Z)
    (l : list list_entry) :
  string_at m k = Some s → chains !! bucket_index s = Some l →
  lookup_value m (<[bucket_index s := chain_put m s k v l]> chains) s
  = Some v.
Proof.
  intros Hk Hl. unfold lookup_value.
  rewrite list_lookup_insert_eq by by eapply lookup_lt_Some. cbn.
  destruct (chain_put_find m s k v Hk l) as (pos & e & -> & <-). done.
Qed.

Section Lookups.
Context {base : hash_table_base} (api : table_api).
Hypothesis laws : table_laws api.
Hypothesis capacity_pos : 0 < HASH_TABLE_CAPACITY.

(** [contains] and [get_value] answer from the value the chains hold for
    the string of the key. *)
Lemma lookup_answers (m : memory) (t : table api) (k : Z) (s : string) :
  wf api m t → string_at m k = Some s →
  contains api m t k = contains_answer m (chains api t) s
  ∧ get_value api m t k = get_value_answer m (chains api t) s.
Proof.
  intros Hwf Hk.
  destruct (wf_chain api capacity_pos m t s Hwf) as (l & Hl & Hrl).
  rewrite (contains_find api laws m t k s l Hk Hl Hrl).
  rewrite (get_value_find api laws m t k s l Hk Hl Hrl).
  unfold contains_answer, get_value_answer, lookup_value. rewrite Hl. cbn.
  destruct (list_find (key_is m s) l) as [[pos e]|]; cbn; split; try done;
    f_equal; apply bool_decide_ext; split; intros Hx;
    first [done | by eexists | by destruct Hx].
Qed.

(** An insertion is an update of that map at the string of the key. *)
Lemma add_entry_lookup_value (m : memory) (t : table api) (k v : Z)
    (s : string) :
  wf api m t → string_at m k = Some s →
  ∃ t', add_entry api m true t k v = Returns t' ∧ wf api m t'
        ∧ ∀ s', lookup_value m (chains api t') s'
                = if decide (s' = s) then Some v
                  else lookup_value m (chains api t) s'.
Proof.
  intros Hwf Hk.
  destruct (wf_chain api capacity_pos m t s Hwf) as (l & Hl & Hrl).
  destruct (add_entry_chains api laws m true t k v s l)
    as (t' & Hadd & Hwf' & Hchains & _); [by auto..|].
  exists t'. split_and!; [done..|]. intros s'. rewrite Hchains.
  destruct (decide (s' = s)) as [->|Hne].
  - by apply lookup_value_chain_put.
  - by apply lookup_value_chain_put_other.
Qed.

Lemma add_entries_lookup_value (m : memory) (t : table api)
    (kvs : list (Z * Z)) :
  wf api m t → Forall (λ kv, is_Some (string_at m kv.1)) kvs →
  ∃ t', add_entries api m t kvs = Returns t' ∧ wf api m t'
        ∧ ∀ s, lookup_value m (chains api t') s
               = last_value m s (lookup_value m (chains api t) s) kvs.
Proof.
  intros Hwf Hkvs. revert t Hwf.
  induction Hkvs as [|[k v] kvs [s Hk] _ IH]; intros t Hwf; cbn.
  - by exists t.
  - cbn in Hk. destruct (add_entry_lookup_value m t k v s Hwf Hk)
      as (t1 & -> & Hwf1 & Hlook1). cbn.
    destruct (IH t1 Hwf1) as (t' & Hadd & Hwf' & Hlook).
    exists t'. split_and!; [done..|]. intros s'.
    rewrite Hlook, Hlook1. unfold last_value. cbn. f_equal.
    rewrite Hk. destruct (decide (s' = s)) as [->|Hne].
    + by rewrite decide_True.
    + rewrite decide_False; [done|]. by intros [= ->].
Qed.
End Lookups.

Section Further.
Context {base : hash_table_base} (api : table_api).
Hypothesis laws : table_laws api.
Hypothesis capacity_pos : 0 < HASH_TABLE_CAPACITY.

Lemma add_entry_other_keys (m : memory) (t : table api) (k k' v : Z)
    (s s' : string) :
  wf api m t → string_at m k = Some s → string_at m k' = Some s' →
  ∃ t', add_entry api m true t k v = Returns t'
        ∧ contains api m t' k'
          = (if decide (s' = s) then Returns true else contains api m t k')
        ∧ get_value api m t' k'
          = (if decide (s' = s) then Returns v else get_value api m t k').
Proof.
  intros Hwf Hk Hk'.
  destruct (add_entry_lookup_value api laws capacity_pos m t k v s Hwf Hk)
    as (t' & Hadd & Hwf' & Hlook).
  exists t'. split; [done|].
  destruct (lookup_answers api laws capacity_pos m t' k' s' Hwf' Hk')
    as [-> ->].
  destruct (lookup_answers api laws capacity_pos m t k' s' Hwf Hk')
    as [-> ->].
  unfold contains_answer, get_value_answer. rewrite Hlook.
  by destruct (decide (s' = s)).
Qed.

Lemma create_add_entries_lookup (m : memory) (t0 : table api)
    (kvs : list (Z * Z)) (k : Z) (s : string) :
  wf api m t0 →
  (∀ s', lookup_value m (chains api t0) s' = None) →
  Forall (λ kv, is_Some (string_at m kv.1)) kvs → string_at m k = Some s →
  ∃ t, add_entries api m t0 kvs = Returns t
       ∧ contains api m t k
         = Returns (bool_decide (is_Some (last_value m s None kvs)))
       ∧ get_value api m t k
         = match last_value m s None kvs with
           | Some v => Returns v
           | None => Aborted
           end.
Proof.
  intros Hwf Hempty Hkvs Hk.
  destruct (add_entries_lookup_value api laws capacity_pos m t0 kvs Hwf Hkvs)
    as (t & Hadd & Hwf' & Hlook).
  exists t. split; [done|].
  destruct (lookup_answers api laws capacity_pos m t k s Hwf' Hk) as [-> ->].
  unfold contains_answer, get_value_answer. by rewrite Hlook, Hempty.
Qed.

Lemma add_entry_commutes (m : memory) (t : table api) (k1 v1 k2 v2 k3 : Z)
    (s1 s2 s3 : string) :
  wf api m t → string_at m k1 = Some s1 → string_at m k2 = Some s2 →
  string_at m k3 = Some s3 → s1 ≠ s2 →
  ∃ a b a' b',
    add_entry api m true t k1 v1 = Returns a
    ∧ add_entry api m true a k2 v2 = Returns b
    ∧ add_entry api m true t k2 v2 = Returns a'
    ∧ add_entry api m true a' k1 v1 = Returns b'
    ∧ contains api m b k3 = contains api m b' k3
    ∧ get_value api m b k3 = get_value api m b' k3.
Proof.
  intros Hwf Hk1 Hk2 Hk3 Hne.
  destruct (add_entry_lookup_value api laws capacity_pos m t k1 v1 s1 Hwf Hk1)
    as (a & Ha & Hwfa & Hla).
  destruct (add_entry_lookup_value api laws capacity_pos m a k2 v2 s2 Hwfa Hk2)
    as (b & Hb & Hwfb & Hlb).
  destruct (add_entry_lookup_value api laws capacity_pos m t k2 v2 s2 Hwf Hk2)
    as (a' & Ha' & Hwfa' & Hla').
  destruct (add_entry_lookup_value api laws capacity_pos m a' k1 v1 s1 Hwfa'
              Hk1) as (b' & Hb' & Hwfb' & Hlb').
  exists a, b, a', b'. split_and!; [done..| |].
  all: destruct (lookup_answers api laws capacity_pos m b k3 s3 Hwfb Hk3)
         as [Hc Hg];
       destruct (lookup_answers api laws capacity_pos m b' k3 s3 Hwfb' Hk3)
         as [Hc' Hg'];
       rewrite ?Hc, ?Hg, ?Hc', ?Hg';
       unfold contains_answer, get_value_answer;
       rewrite Hlb, Hla, Hlb', Hla';
       repeat case_decide; subst; done.
Qed.

(** The exact effect of an insertion on the chains: a new node at the head
    of the bucket for a key [contains] does not find, the value of the
    first node for the string overwritten otherwise. *)
Lemma add_entry_effect (m : memory) (t : table api) (k v : Z) (s : string)
    (l : list list_entry) :
  wf api m t → string_at m k = Some s →
  chains api t !! bucket_index s = Some l →
  ∃ t', add_entry api m true t k v = Returns t'
        ∧ (contains api m t k = Returns false →
           chains api t'
           = <[bucket_index s := {| key := k; value := v |} :: l]>
               (chains api t))
        ∧ (contains api m t k = Returns true →
           ∃ pos entry,
             list_find (key_is m s) l = Some (pos, entry)
             ∧ chains api t'
               = <[bucket_index s :=
                     <[pos := {| key := key entry; value := v |}]> l]>
                   (chains api t)).
Proof.
  intros Hwf Hk Hl.
  assert (readable m l) as Hrl.
  { destruct Hwf as (_ & _ & Hread).
    by apply (proj1 (Forall_lookup _ _) Hread (bucket_index s)). }
  destruct (add_entry_chains api laws m true t k v s l)
    as (t' & Hadd & _ & Hchains & _); [by auto..|].
  exists t'. split; [done|].
  rewrite (contains_find api laws m t k s l Hk Hl Hrl), Hchains.
  unfold chain_put.
  destruct (list_find (key_is m s) l) as [[pos e]|] eqn:Hfind.
  - split; [by rewrite bool_decide_eq_true_2 by by eexists|].
    intros _. exists pos, e. split; [done|]. f_equal.
    apply list_find_Some in Hfind as (Hpos & _).
    apply list_eq. intros j. rewrite list_lookup_alter, list_lookup_insert.
    destruct (decide (pos = j)) as [<-|Hne].
    + rewrite decide_True by (split; [done|by eapply lookup_lt_Some]).
      rewrite Hpos. by destruct e.
    + rewrite decide_False; [done|]. by intros [? _].
  - split; [done|]. rewrite bool_decide_eq_false_2 by by intros [??]. done.
Qed.

(** [add_entry] asks [calloc] for memory only for a key [contains] does not
    find: without memory it is undefined exactly for those keys, and
    stores the value for the others. *)
Lemma add_entry_calloc_failing (m : memory) (t : table api) (k v : Z) :
  wf api m t → is_Some (string_at m k) →
  (add_entry api m false t k v = Undefined
   ↔ contains api m t k = Returns false)
  ∧ (contains api m t k = Returns true →
     ∃ t', add_entry api m false t k v = Returns t'
           ∧ get_value api m t' k = Returns v).
Proof.
  intros Hwf [s Hk].
  destruct (wf_chain api capacity_pos m t s Hwf) as (l & Hl & Hrl).
  rewrite (contains_find api laws m t k s l Hk Hl Hrl).
  destruct (list_find (key_is m s) l) as [[pos e]|] eqn:Hfind.
  - rewrite bool_decide_eq_true_2 by by eexists.
    destruct (add_entry_chains api laws m false t k v s l)
      as (t' & Hadd & Hwf' & _ & Hl'); [done..|right; rewrite Hfind; by eexists|].
    rewrite Hadd. split; [done|]. intros _. exists t'. split; [done|].
    pose proof (chain_put_readable m s k v Hk l Hrl) as Hrl'.
    destruct (chain_put_find m s k v Hk l) as (pos' & e' & Hfind' & Hv).
    by rewrite (get_value_find api laws m t' k s _ Hk Hl' Hrl'), Hfind', Hv.
  - rewrite bool_decide_eq_false_2 by by intros [??].
    rewrite (add_entry_no_memory api laws m t k v s l); done.
Qed.
End Further.

(** * What the calls do with keys and mutexes, on any table *)

Section AnyTable.
Context {base : hash_table_base}.

Lemma v1_null_key (m : memory) (calloc_ok : bool) (t : V1.hash_table_v1)
    (v : Z) :
  V1.hash_table_v1_contains m t NULL = Aborted
  ∧ V1.hash_table_v1_get_value m t NULL = Aborted
  ∧ (V1.mutex t = mutex_free →
     V1.hash_table_v1_add_entry m calloc_ok t NULL v = Aborted).
Proof.
  split_and!; [done..|]. intros Hmu.
  unfold V1.hash_table_v1_add_entry. by rewrite Hmu.
Qed.

Lemma v2_null_key (m : memory) (calloc_ok : bool) (t : V2.hash_table_v2)
    (v : Z) :
  V2.hash_table_v2_contains m t NULL = Aborted
  ∧ V2.hash_table_v2_get_value m t NULL = Aborted
  ∧ V2.hash_table_v2_add_entry m calloc_ok t NULL v = Aborted.
Proof. done. Qed.

(** The lookups of variant 1 read the chains and nothing else. *)
Lemma v1_lookups_read_chains (m : memory) (t t' : V1.hash_table_v1)
    (k : Z) :
  v1_chains t = v1_chains t' →
  V1.hash_table_v1_contains m t k = V1.hash_table_v1_contains m t' k
  ∧ V1.hash_table_v1_get_value m t k = V1.hash_table_v1_get_value m t' k.
Proof.
  intros Hchains.
  unfold V1.hash_table_v1_contains, V1.hash_table_v1_get_value.
  change (V1.get_hash_table_entry m t' k)
    with (V1.get_hash_table_entry m t k).
  destruct (V1.get_hash_table_entry m t k) as [i| | | |]; cbn; try done.
  apply (f_equal (.!! i)) in Hchains. unfold v1_chains in Hchains.
  rewrite !list_lookup_fmap in Hchains. unfold V1.bucket.
  destruct (V1.entries t !! i) as [[l]|], (V1.entries t' !! i) as [[l']|];
    try done.
  injection Hchains as <-. done.
Qed.

(** The lookups of variant 2 read the chains and nothing else: they
    answer the same whatever the state of the mutexes. *)
Lemma v2_lookups_read_chains (m : memory) (t t' : V2.hash_table_v2)
    (k : Z) :
  v2_chains t = v2_chains t' →
  V2.hash_table_v2_contains m t k = V2.hash_table_v2_contains m t' k
  ∧ V2.hash_table_v2_get_value m t k = V2.hash_table_v2_get_value m t' k.
Proof.
  intros Hchains.
  unfold V2.hash_table_v2_contains, V2.hash_table_v2_get_value.
  change (V2.get_hash_table_entry m t' k)
    with (V2.get_hash_table_entry m t k).
  destruct (V2.get_hash_table_entry m t k) as [i| | | |]; cbn; try done.
  apply (f_equal (.!! i)) in Hchains. unfold v2_chains in Hchains.
  rewrite !list_lookup_fmap in Hchains. unfold V2.bucket.
  destruct (V2.entries t !! i) as [[l mu]|],
           (V2.entries t' !! i) as [[l' mu']|]; try done.
  injection Hchains as <-. done.
Qed.

(** Variant 1 has unlocked the table mutex when it returns from
    [add_entry], on both paths. *)
Lemma v1_add_entry_unlocks (m : memory) (calloc_ok : bool)
    (t t' : V1.hash_table_v1) (k v : Z) :
  V1.hash_table_v1_add_entry m calloc_ok t k v = Returns t' →
  V1.mutex t' = mutex_free.
Proof.
  unfold V1.hash_table_v1_add_entry.
  destruct (V1.mutex t) eqn:Hmu; [|done]. rewrite lock_free. cbn.
  destruct (V1.get_hash_table_entry _ _ k) as [i| | | |]; cbn; try done.
  destruct (V1.bucket _ i) as [[l]| | | |]; cbn; try done.
  destruct (V1.get_list_entry _ _ k l) as [[pos|]| | | |]; cbn; try done.
  - rewrite decide_False by (by intros ?). by intros [= <-].
  - destruct calloc_ok; cbn; [|done].
    rewrite decide_False by (by intros ?). by intros [= <-].
Qed.

(** Variant 2 has unlocked the mutex of the bucket of the key when it
    returns from [add_entry], on both paths, and leaves every other
    bucket, its mutex included, as it was. *)
Lemma v2_add_entry_unlocks (m : memory) (calloc_ok : bool)
    (t t' : V2.hash_table_v2) (k v : Z) :
  V2.hash_table_v2_add_entry m calloc_ok t k v = Returns t' →
  ∃ s b',
    string_at m k = Some s
    ∧ V2.entries t' !! bucket_index s = Some b'
    ∧ V2.mutex b' = mutex_free
    ∧ ∀ i, i ≠ bucket_index s → V2.entries t' !! i = V2.entries t !! i.
Proof.
  unfold V2.hash_table_v2_add_entry, V2.get_hash_table_entry.
  destruct (bool_decide (k ≠ NULL)); cbn; [|done].
  unfold load_string. destruct (string_at m k) as [s|] eqn:Hk; cbn; [|done].
  fold (bucket_index s). unfold V2.bucket.
  destruct (V2.entries t !! bucket_index s) as [[l mu]|] eqn:Hb; [|done].
  destruct mu; [|done]. cbn.
  assert (∀ l', let t1 :=
            V2.with_bucket
              (V2.with_bucket t (bucket_index s)
                 {| V2.list_head := l; V2.mutex := mutex_held |})
              (bucket_index s)
              {| V2.list_head := l'; V2.mutex := mutex_free |} in
          V2.entries t1 !! bucket_index s
          = Some {| V2.list_head := l'; V2.mutex := mutex_free |}
          ∧ ∀ i, i ≠ bucket_index s →
                 V2.entries t1 !! i = V2.entries t !! i) as Hend.
  { intros l'. cbn. rewrite list_insert_insert_eq. split.
    - apply list_lookup_insert_eq. by eapply lookup_lt_Some.
    - intros i Hi. by apply list_lookup_insert_ne. }
  rewrite decide_False by (by intros ?). cbn.
  destruct (V2.get_list_entry _ _ k l) as [[pos|]| | | |]; cbn; try done.
  - rewrite decide_False by (by intros ?). intros [= <-].
    destruct (Hend (alter (store_value v) pos l)) as [H1 H2].
    by eexists s, _.
  - destruct calloc_ok; cbn; [|done].
    rewrite decide_False by (by intros ?). intros [= <-].
    destruct (Hend ({| key := k; value := v |} :: l)) as [H1 H2].
    by eexists s, _.
Qed.
End AnyTable.

(** * Tearing down *)

Lemma free_chain_all (l : list list_entry) : free_chain l = l.
Proof. induction l as [|e l IH]; [done|]. cbn. by rewrite IH. Qed.

Lemma v1_destroy_loop_frees (t : V1.hash_table_v1) (n a : nat) :
  (a + n ≤ length (V1.entries t))%nat →
  v1_destroy_loop t (seq a n)
  = Returns (mjoin (take n (drop a (v1_chains t)))).
Proof.
  revert a. induction n as [|n IH]; intros a Hlen; cbn; [done|].
  destruct (lookup_lt_is_Some_2 (V1.entries t) a) as [b Hb]; [lia|].
  unfold V1.bucket. rewrite Hb. cbn. rewrite IH by lia. cbn.
  rewrite free_chain_all.
  rewrite (drop_S (v1_chains t) (V1.list_head b) a); [done|].
  unfold v1_chains. by rewrite list_lookup_fmap, Hb.
Qed.

Lemma v2_destroy_loop_frees (t : V2.hash_table_v2) (n a : nat) :
  (a + n ≤ length (V2.entries t))%nat →
  Forall (λ b, V2.mutex b = mutex_free) (V2.entries t) →
  v2_destroy_loop t (seq a n)
  = Returns (mjoin (take n (drop a (v2_chains t)))).
Proof.
  intros Hlen Hfree. revert a Hlen.
  induction n as [|n IH]; intros a Hlen; cbn; [done|].
  destruct (lookup_lt_is_Some_2 (V2.entries t) a) as [b Hb]; [lia|].
  unfold V2.bucket. rewrite Hb. cbn.
  rewrite (proj1 (Forall_lookup _ _) Hfree a b Hb). cbn.
  rewrite decide_False by (by intros ?).
  rewrite IH by lia. cbn. rewrite free_chain_all.
  rewrite (drop_S (v2_chains t) (V2.list_head b) a); [done|].
  unfold v2_chains. by rewrite list_lookup_fmap, Hb.
Qed.

Lemma v1_destroy_frees {base : hash_table_base} (m : memory)
    (t : V1.hash_table_v1) :
  wf v1_api m t → hash_table_v1_destroy t = Returns (mjoin (v1_chains t)).
Proof.
  intros (Hlen & Hmu & _). cbn in Hlen, Hmu. unfold hash_table_v1_destroy.
  unfold v1_chains in Hlen. rewrite length_fmap in Hlen.
  rewrite v1_destroy_loop_frees by lia. cbn. rewrite Hmu. cbn.
  rewrite decide_False by (by intros ?). rewrite drop_0, take_ge; [done|].
  unfold v1_chains. rewrite length_fmap. lia.
Qed.

Lemma v2_destroy_frees {base : hash_table_base} (m : memory)
    (t : V2.hash_table_v2) :
  wf v2_api m t → hash_table_v2_destroy t = Returns (mjoin (v2_chains t)).
Proof.
  intros (Hlen & Hmu & _). cbn in Hlen, Hmu. unfold hash_table_v2_destroy.
  unfold v2_chains in Hlen. rewrite length_fmap in Hlen.
  rewrite v2_destroy_loop_frees by (done || lia).
  rewrite drop_0, take_ge; [done|].
  unfold v2_chains. rewrite length_fmap. lia.
Qed.

(** * Counting the nodes *)

Lemma NoDup_join_tagged {A} (tag : A → nat) (ls : list (list A))
    (off : nat) :
  (∀ i l, ls !! i = Some l →
          NoDup l ∧ ∀ x, x ∈ l → tag x = (off + i)%nat) →
  NoDup (mjoin ls).
Proof.
  revert off. induction ls as [|l ls IH]; intros off Hls; [constructor|].
  change (mjoin (l :: ls)) with (l ++ mjoin ls). apply NoDup_app.
  destruct (Hls 0%nat l eq_refl) as [Hl Htag]. split_and!; [done| |].
  - intros x Hx (l' & Hx' & Hl')%list_elem_of_join.
    apply list_elem_of_lookup in Hl' as [i Hi].
    destruct (Hls (S i) l' Hi) as [_ Htag'].
    specialize (Htag x Hx). specialize (Htag' x Hx'). lia.
  - apply (IH (S off)). intros i l' Hi.
    destruct (Hls (S i) l' Hi) as [Hl' Htag']. split; [done|].
    intros x Hx. rewrite (Htag' x Hx). lia.
Qed.

Lemma length_all_strings (m : memory) (chains : list (list list_entry)) :
  length (all_strings m chains) = length (mjoin chains).
Proof.
  unfold all_strings. rewrite !length_join, <- list_fmap_compose.
  f_equal. apply list_fmap_ext. intros i l _. cbn.
  unfold chain_strings. by rewrite length_fmap.
Qed.

Lemma last_value_is_Some (m : memory) (s : string) (before : option Z)
    (kvs : list (Z * Z)) :
  is_Some (last_value m s before kvs)
  ↔ is_Some before ∨ Some s ∈ call_strings m kvs.
Proof.
  unfold last_value. revert before.
  induction kvs as [|[k v] kvs IH]; intros before; cbn.
  - split; [by left|]. intros [?|Hin]; [done|]. by apply elem_of_nil in Hin.
  - rewrite IH, elem_of_cons.
    destruct (decide (string_at m k = Some s)) as [Hk|Hk]; split.
    + intros _. right. by left.
    + intros _. left. by eexists.
    + intros [?|?]; auto.
    + intros [?|[?|?]]; auto. congruence.
Qed.

Section Nodes.
Context {base : hash_table_base} (m : memory)
  (chains : list (list list_entry)).
Hypothesis chains_readable : Forall (readable m) chains.
Hypothesis chains_invariant : chains_ok m chains.

Lemma all_strings_NoDup : NoDup (all_strings m chains).
Proof using chains_invariant.
  unfold all_strings.
  apply (NoDup_join_tagged (λ o, default 0%nat (bucket_index <$> o)) _ 0).
  intros i ss. rewrite list_lookup_fmap.
  destruct (chains !! i) as [l|] eqn:Hl; [|done]. intros [= <-].
  destruct (chains_invariant i l Hl) as [Hplace Hnodup]. split; [done|].
  intros x Hx. rewrite Forall_forall in Hplace.
  by rewrite (Hplace x Hx).
Qed.

Lemma all_strings_is_Some (x : option string) :
  x ∈ all_strings m chains → is_Some x.
Proof using chains_readable.
  intros (ss & Hx & Hss)%list_elem_of_join.
  apply list_elem_of_fmap in Hss as (l & -> & Hl).
  apply list_elem_of_fmap in Hx as (e & -> & He).
  rewrite Forall_forall in chains_readable.
  specialize (chains_readable l Hl). unfold readable in chains_readable.
  rewrite Forall_forall in chains_readable. by apply chains_readable.
Qed.

Lemma all_strings_lookup_value (s : string) :
  Some s ∈ all_strings m chains ↔ is_Some (lookup_value m chains s).
Proof using chains_invariant.
  unfold lookup_value. split.
  - intros (ss & Hx & Hss)%list_elem_of_join.
    apply list_elem_of_fmap in Hss as (l & -> & Hl).
    apply list_elem_of_lookup in Hl as [i Hi].
    destruct (chains_invariant i l Hi) as [Hplace _].
    rewrite Forall_forall in Hplace. specialize (Hplace (Some s) Hx).
    injection Hplace as <-. rewrite Hi. cbn.
    apply list_elem_of_fmap in Hx as (e & He & Hin).
    destruct (list_find_elem_of (key_is m s) l e Hin) as [[pos e'] ->];
      [done|]. by eexists.
  - destruct (chains !! bucket_index s) as [l|] eqn:Hl; cbn;
      [|by intros [??]].
    destruct (list_find (key_is m s) l) as [[pos e]|] eqn:Hfind; cbn;
      [|by intros [??]].
    intros _. apply list_find_Some in Hfind as (Hpos & He & _).
    apply list_elem_of_join. exists (chain_strings m l). split.
    + apply list_elem_of_fmap. exists e. split; [done|].
      by eapply list_elem_of_lookup_2.
    + apply list_elem_of_fmap. exists l. split; [done|].
      by eapply list_elem_of_lookup_2.
Qed.
End Nodes.

Section NodesOfTable.
Context {base : hash_table_base} (api : table_api).
Hypothesis laws : table_laws api.
Hypothesis capacity_pos : 0 < HASH_TABLE_CAPACITY.

(** After insertions into an empty table there is one node for each
    string among the keys. *)
Lemma add_entries_nodes (m : memory) (t0 : table api)
    (kvs : list (Z * Z)) :
  table_ok api m t0 →
  (∀ s, lookup_value m (chains api t0) s = None) →
  Forall (λ kv, is_Some (string_at m kv.1)) kvs →
  ∃ t, add_entries api m t0 kvs = Returns t ∧ wf api m t
       ∧ length (mjoin (chains api t))
         = length (remove_dups (call_strings m kvs)).
Proof.
  intros Hok0 Hempty Hkvs.
  destruct (add_entries_table_ok api laws capacity_pos m t0 kvs Hok0 Hkvs)
    as (t & Hadd & Hwf & Hok).
  destruct (add_entries_lookup_value api laws capacity_pos m t0 kvs
              (proj1 Hok0) Hkvs) as (t' & Hadd' & _ & Hlook).
  assert (t' = t) as -> by congruence.
  exists t. split_and!; [done..|].
  rewrite <- (length_all_strings m). apply Permutation_length.
  destruct Hwf as (Hlen & Hfree & Hread).
  apply NoDup_Permutation.
  - by apply all_strings_NoDup.
  - apply NoDup_remove_dups.
  - intros x. rewrite elem_of_remove_dups. destruct x as [s|].
    + rewrite (all_strings_lookup_value m _ Hok s), Hlook, Hempty.
      rewrite last_value_is_Some. split; [|by right].
      intros [[??]|?]; done.
    + split.
      * intros [? [=]]%(all_strings_is_Some m _ Hread).
      * intros (kv & Hnone & Hkv)%list_elem_of_fmap.
        rewrite Forall_forall in Hkvs. destruct (Hkvs kv Hkv) as [s Hs].
        congruence.
Qed.
End NodesOfTable.

Lemma empty_chains_lookup_value {base : hash_table_base} (m : memory)
    (n : nat) (s : string) :
  lookup_value m (replicate n []) s = None.
Proof.
  unfold lookup_value.
  destruct (replicate n [] !! bucket_index s) as [l|] eqn:Hl; [|done].
  apply lookup_replicate in Hl as [-> _]. done.
Qed.

(** * Mutual exclusion *)

Section Exclusion.
Context {base : hash_table_base} (d : locking) (m : memory).

Lemma holds_move_other (σ σ' : machine) (i j mu : nat) (p : point)
    (cs : list (Z * Z)) :
  threads σ' = <[i := {| point_of := p; calls := cs |}]> (threads σ) →
  j ≠ i → holds d m σ' j mu → holds d m σ j mu.
Proof.
  intros Hth Hne (th & k & v & rest & Hj & ?). exists th, k, v, rest.
  split; [|done]. by rewrite Hth, list_lookup_insert_ne in Hj.
Qed.

Lemma holds_move_self (σ σ' : machine) (i mu : nat) (th : thread)
    (p : point) :
  threads σ !! i = Some th → point_of th ≠ at_lock →
  threads σ' = <[i := {| point_of := p; calls := calls th |}]> (threads σ) →
  holds d m σ' i mu → holds d m σ i mu.
Proof.
  intros Hi Hat Hth (th' & k & v & rest & Hi' & _ & Hcalls & Hmu).
  rewrite Hth, list_lookup_insert_eq in Hi' by by eapply lookup_lt_Some.
  injection Hi' as <-. by exists th, k, v, rest.
Qed.

(** A step between the locking and the unlocking leaves the mutexes alone
    and the thread in its call. *)
Lemma step_inner (calloc_ok : bool) (σ σ' : machine) (i : nat)
    (th : thread) :
  threads σ !! i = Some th →
  point_of th ≠ at_lock → point_of th ≠ at_unlock →
  step d m calloc_ok i σ = Some (Returns σ') →
  owners σ' = owners σ
  ∧ ∃ p, threads σ'
         = <[i := {| point_of := p; calls := calls th |}]> (threads σ).
Proof.
  intros Hi Hlock Hunlock. unfold step. rewrite Hi.
  destruct (calls th) as [|[k v] rest]; [done|].
  destruct (point_of th) as [| |pos| |next|]; try done;
    destruct (bucket_of m k) as [index| | | |]; cbn; try done.
  - unfold chain_at. destruct (buckets σ !! index) as [l|]; cbn; [|done].
    destruct (list_foreach m k l) as [[pos|]| | | |]; cbn; try done;
      intros [= <-]; cbn; eauto.
  - unfold chain_at. destruct (buckets σ !! index) as [l|]; cbn; [|done].
    intros [= <-]; cbn; eauto.
  - destruct calloc_ok; cbn; [|done].
    unfold chain_at. destruct (buckets σ !! index) as [l|]; cbn; [|done].
    intros [= <-]; cbn; eauto.
  - intros [= <-]; cbn; eauto.
Qed.

Lemma step_owners_ok (calloc_ok : bool) (σ σ' : machine) (i : nat) :
  owners_ok d m σ → step d m calloc_ok i σ = Some (Returns σ') →
  owners_ok d m σ'.
Proof.
  intros Hok Hstep.
  destruct (threads σ !! i) as [th|] eqn:Hi;
    [|by unfold step in Hstep; rewrite Hi in Hstep].
  destruct (decide (point_of th = at_lock)) as [Hlock|Hlock];
    [|destruct (decide (point_of th = at_unlock)) as [Hunlock|Hunlock]].
  - unfold step in Hstep. rewrite Hi, Hlock in Hstep.
    destruct (calls th) as [|[k v] rest] eqn:Hcalls; [done|].
    destruct (guard_of d m k) as [mu| | | |] eqn:Hmu; try done.
    destruct (owners σ !! mu) eqn:Hfree; [done|].
    injection Hstep as <-. intros j mu' Hj.
    change (<[mu := i]> (owners σ) !! mu' = Some j).
    destruct (decide (j = i)) as [->|Hne].
    + destruct Hj as (th' & k' & v' & rest' & Hi' & _ & Hcalls' & Hmu').
      cbn in Hi'.
      rewrite list_lookup_insert_eq in Hi' by by eapply lookup_lt_Some.
      injection Hi' as <-. cbn in Hcalls'. injection Hcalls' as <- <- <-.
      assert (mu' = mu) as -> by congruence. apply lookup_insert_eq.
    + apply (holds_move_other σ _ i j mu' at_find ((k, v) :: rest)) in Hj;
        [|done..].
      specialize (Hok j mu' Hj). rewrite lookup_insert_ne; [done|].
      congruence.
  - unfold step in Hstep. rewrite Hi, Hunlock in Hstep.
    destruct (calls th) as [|[k v] rest] eqn:Hcalls; [done|].
    destruct (guard_of d m k) as [mu| | | |] eqn:Hmu; try done. cbn in Hstep.
    destruct (decide (owners σ !! mu = Some i)) as [Hown|]; [|done].
    injection Hstep as <-. intros j mu' Hj.
    change (delete mu (owners σ) !! mu' = Some j).
    destruct (decide (j = i)) as [->|Hne].
    + destruct Hj as (th' & k' & v' & rest' & Hi' & Hat & _).
      cbn in Hi'.
      rewrite list_lookup_insert_eq in Hi' by by eapply lookup_lt_Some.
      injection Hi' as <-. done.
    + apply (holds_move_other σ _ i j mu' at_lock rest) in Hj; [|done..].
      specialize (Hok j mu' Hj). rewrite lookup_delete_ne; [done|].
      congruence.
  - destruct (step_inner calloc_ok σ σ' i th Hi Hlock Hunlock Hstep)
      as (Howners & p & Hth).
    intros j mu' Hj. rewrite Howners. apply Hok.
    destruct (decide (j = i)) as [->|Hne].
    + by apply (holds_move_self σ σ' i mu' th p).
    + by apply (holds_move_other σ σ' i j mu' p (calls th)).
Qed.

Lemma exec_owners_ok (schedule : list (nat * bool)) (σ σ' : machine) :
  owners_ok d m σ → exec d m schedule σ = Returns σ' → owners_ok d m σ'.
Proof.
  revert σ. induction schedule as [|[i c] schedule IH]; intros σ Hok; cbn.
  - by intros [= <-].
  - destruct (step d m c i σ) as [[σ1| | | |]|] eqn:Hstep; cbn; try done.
    + apply IH. by apply (step_owners_ok c σ σ1 i).
    + by apply IH.
Qed.

Lemma start_owners_ok (chains0 : list (list list_entry))
    (todo : list (list (Z * Z))) :
  owners_ok d m (start chains0 todo).
Proof.
  intros i mu (th & k & v & rest & Hi & Hat & _). cbn in Hi.
  rewrite list_lookup_fmap in Hi.
  destruct (todo !! i); [|done]. by injection Hi as <-.
Qed.
End Exclusion.

(** * The grain of the locking *)

(** Two threads that start their first calls one after the other: the
    first takes its mutex, and the second is passed over exactly when its
    key asks for the same mutex. *)
Lemma two_threads_start {base : hash_table_base} (d : locking) (m : memory)
    (chains0 : list (list list_entry)) (todo : list (list (Z * Z)))
    (i j : nat) (ci cj : bool) (ki vi kj vj : Z) (ri rj : list (Z * Z))
    (si sj : string) :
  i ≠ j →
  todo !! i = Some ((ki, vi) :: ri) →
  todo !! j = Some ((kj, vj) :: rj) →
  string_at m ki = Some si →
  string_at m kj = Some sj →
  ∃ σ, exec d m [(i, ci); (j, cj)] (start chains0 todo) = Returns σ
       ∧ point_at σ i = Some at_find
       ∧ point_at σ j
         = Some (if decide (mutex_no d si = mutex_no d sj)
                 then at_lock else at_find).
Proof.
  intros Hne Hi Hj Hsi Hsj.
  assert (threads (start chains0 todo) !! i
          = Some {| point_of := at_lock; calls := (ki, vi) :: ri |}) as Hti
    by (cbn; by rewrite list_lookup_fmap, Hi).
  assert (threads (start chains0 todo) !! j
          = Some {| point_of := at_lock; calls := (kj, vj) :: rj |}) as Htj
    by (cbn; by rewrite list_lookup_fmap, Hj).
  set (σ1 := move (put_owners (start chains0 todo) {[mutex_no d si := i]})
               i at_find ((ki, vi) :: ri)).
  assert (step d m ci i (start chains0 todo) = Some (Returns σ1)) as Hstep1.
  { unfold step. rewrite Hti. cbn [calls point_of].
    rewrite (guard_of_string d m ki si Hsi). cbn [owners start].
    by rewrite lookup_empty. }
  assert (threads σ1 !! i
          = Some {| point_of := at_find; calls := (ki, vi) :: ri |}) as Hi1.
  { apply lookup_lt_Some in Hti. cbn in Hti |- *.
    by rewrite list_lookup_insert_eq. }
  assert (threads σ1 !! j
          = Some {| point_of := at_lock; calls := (kj, vj) :: rj |}) as Hj1.
  { cbn in Htj |- *. by rewrite list_lookup_insert_ne. }
  cbn [exec]. rewrite Hstep1. cbn [mbind outcome_bind].
  unfold step. rewrite Hj1. cbn [calls point_of].
  rewrite (guard_of_string d m kj sj Hsj).
  change (owners σ1) with ({[mutex_no d si := i]} : gmap nat nat).
  destruct (decide (mutex_no d si = mutex_no d sj)) as [Heq|Hdiff].
  - rewrite <- Heq, lookup_singleton_eq. exists σ1.
    unfold point_at. by rewrite Hi1, Hj1.
  - rewrite lookup_singleton_ne by done. cbn [mbind outcome_bind].
    eexists. split; [done|]. unfold point_at.
    apply lookup_lt_Some in Hi1 as Hlen. cbn [threads move put_owners].
    rewrite list_lookup_insert_ne by done.
    split; [by rewrite Hi1|]. apply lookup_lt_Some in Hj1.
    by rewrite list_lookup_insert_eq.
Qed.

(** * Further properties of the two variants *)

(** X1: in both variants an insertion updates one string and no other:
    after [add_entry] of a key that reads [s], a key that reads [s] is
    found with the value just stored, and a key that reads another string,
    of the same bucket or not, is answered by [contains] and [get_value]
    as before the insertion. *)
Theorem add_entry_updates_one_string {base : hash_table_base}
    (m : memory) (t1 : V1.hash_table_v1) (t2 : V2.hash_table_v2)
    (k k' v : Z) (s s' : string) :
  0 < HASH_TABLE_CAPACITY →
  wf v1_api m t1 → wf v2_api m t2 →
  string_at m k = Some s → string_at m k' = Some s' →
  (∃ t1', V1.hash_table_v1_add_entry m true t1 k v = Returns t1'
          ∧ V1.hash_table_v1_contains m t1' k'
            = (if decide (s' = s) then Returns true
               else V1.hash_table_v1_contains m t1 k')
          ∧ V1.hash_table_v1_get_value m t1' k'
            = (if decide (s' = s) then Returns v
               else V1.hash_table_v1_get_value m t1 k'))
  ∧ (∃ t2', V2.hash_table_v2_add_entry m true t2 k v = Returns t2'
            ∧ V2.hash_table_v2_contains m t2' k'
              = (if decide (s' = s) then Returns true
                 else V2.hash_table_v2_contains m t2 k')
            ∧ V2.hash_table_v2_get_value m t2' k'
              = (if decide (s' = s) then Returns v
                 else V2.hash_table_v2_get_value m t2 k')).
Proof.
  intros Hcap Hwf1 Hwf2 Hk Hk'. split.
  - by apply (add_entry_other_keys v1_api v1_laws).
  - by apply (add_entry_other_keys v2_api v2_laws).
Qed.

Lemma add_entry_updates_one_string_witness :
  let t1 := v1_table example_chains in
  let t2 := v2_table example_chains in
  (∃ t1', V1.hash_table_v1_add_entry (base := example_base)
            example_memory true t1 200 7 = Returns t1'
          ∧ V1.hash_table_v1_contains (base := example_base)
              example_memory t1' 300
            = V1.hash_table_v1_contains (base := example_base)
                example_memory t1 300
          ∧ V1.hash_table_v1_get_value (base := example_base)
              example_memory t1' 300
            = V1.hash_table_v1_get_value (base := example_base)
                example_memory t1 300)
  ∧ (∃ t2', V2.hash_table_v2_add_entry (base := example_base)
              example_memory true t2 200 7 = Returns t2'
            ∧ V2.hash_table_v2_contains (base := example_base)
                example_memory t2' 300
              = V2.hash_table_v2_contains (base := example_base)
                  example_memory t2 300
            ∧ V2.hash_table_v2_get_value (base := example_base)
                example_memory t2' 300
              = V2.hash_table_v2_get_value (base := example_base)
                  example_memory t2 300).
Proof.
  apply (add_entry_updates_one_string (base := example_base)
           example_memory (v1_table example_chains)
           (v2_table example_chains) 200 300 7 "alice" "bob");
    compute_done.
Defined.

(** X2: in both variants, on the table [create] returns, after any
    sequence of insertions of valid keys, [contains] answers whether some
    insertion had a key that reads the string of the key asked for, and
    [get_value] returns the value of the last such insertion, and aborts
    when there is none. *)
Theorem create_add_entries_then_lookup {base : hash_table_base}
    (m : memory) (kvs : list (Z * Z)) (k : Z) (s : string) :
  0 < HASH_TABLE_CAPACITY →
  Forall (λ kv, is_Some (string_at m kv.1)) kvs →
  string_at m k = Some s →
  (∃ t0 t, V1.hash_table_v1_create true 0 = Returns t0
           ∧ add_entries v1_api m t0 kvs = Returns t
           ∧ V1.hash_table_v1_contains m t k
             = Returns (bool_decide (is_Some (last_value m s None kvs)))
           ∧ V1.hash_table_v1_get_value m t k
             = match last_value m s None kvs with
               | Some v => Returns v
               | None => Aborted
               end)
  ∧ (∃ t0 t, V2.hash_table_v2_create true (λ _, 0) = Returns t0
             ∧ add_entries v2_api m t0 kvs = Returns t
             ∧ V2.hash_table_v2_contains m t k
               = Returns (bool_decide (is_Some (last_value m s None kvs)))
             ∧ V2.hash_table_v2_get_value m t k
               = match last_value m s None kvs with
                 | Some v => Returns v
                 | None => Aborted
                 end).
Proof.
  intros Hcap Hkvs Hk. split.
  - destruct v1_create_returns as (t0 & Hcreate & Hchains & Hmu).
    destruct (create_add_entries_lookup v1_api v1_laws Hcap m t0 kvs k s)
      as (t & Hadd & Hc & Hg); [|intros s'|done..|by exists t0, t].
    + by apply (empty_table_ok v1_api).
    + cbn. rewrite Hchains. apply empty_chains_lookup_value.
  - destruct v2_create_returns as (t0 & Hcreate & Hchains & Hmu).
    destruct (create_add_entries_lookup v2_api v2_laws Hcap m t0 kvs k s)
      as (t & Hadd & Hc & Hg); [|intros s'|done..|by exists t0, t].
    + by apply (empty_table_ok v2_api).
    + cbn. rewrite Hchains. apply empty_chains_lookup_value.
Qed.

Lemma create_add_entries_then_lookup_witness :
  let kvs := [(100, 1); (300, 2); (200, 3)] in
  (∃ t0 t, V1.hash_table_v1_create (base := example_base) true 0
           = Returns t0
           ∧ add_entries (base := example_base) v1_api example_memory
               t0 kvs = Returns t
           ∧ V1.hash_table_v1_contains (base := example_base)
               example_memory t 100 = Returns true
           ∧ V1.hash_table_v1_get_value (base := example_base)
               example_memory t 100 = Returns 3)
  ∧ (∃ t0 t, V2.hash_table_v2_create (base := example_base) true (λ _, 0)
             = Returns t0
             ∧ add_entries (base := example_base) v2_api example_memory
                 t0 kvs = Returns t
             ∧ V2.hash_table_v2_contains (base := example_base)
                 example_memory t 100 = Returns true
             ∧ V2.hash_table_v2_get_value (base := example_base)
                 example_memory t 100 = Returns 3).
Proof.
  apply (create_add_entries_then_lookup (base := example_base)
           example_memory [(100, 1); (300, 2); (200, 3)] 100 "alice");
    compute_done.
Defined.

(** X3: in both variants two insertions of keys that read different
    strings can be made in either order: both orders return, and
    [contains] and [get_value] answer alike for every valid key on the
    two tables. *)
Theorem add_entry_order_of_two_keys {base : hash_table_base}
    (m : memory) (t1 : V1.hash_table_v1) (t2 : V2.hash_table_v2)
    (k1 v1 k2 v2 k3 : Z) (s1 s2 s3 : string) :
  0 < HASH_TABLE_CAPACITY →
  wf v1_api m t1 → wf v2_api m t2 →
  string_at m k1 = Some s1 → string_at m k2 = Some s2 →
  string_at m k3 = Some s3 → s1 ≠ s2 →
  (∃ a b a' b',
     V1.hash_table_v1_add_entry m true t1 k1 v1 = Returns a
     ∧ V1.hash_table_v1_add_entry m true a k2 v2 = Returns b
     ∧ V1.hash_table_v1_add_entry m true t1 k2 v2 = Returns a'
     ∧ V1.hash_table_v1_add_entry m true a' k1 v1 = Returns b'
     ∧ V1.hash_table_v1_contains m b k3 = V1.hash_table_v1_contains m b' k3
     ∧ V1.hash_table_v1_get_value m b k3
       = V1.hash_table_v1_get_value m b' k3)
  ∧ (∃ a b a' b',
       V2.hash_table_v2_add_entry m true t2 k1 v1 = Returns a
       ∧ V2.hash_table_v2_add_entry m true a k2 v2 = Returns b
       ∧ V2.hash_table_v2_add_entry m true t2 k2 v2 = Returns a'
       ∧ V2.hash_table_v2_add_entry m true a' k1 v1 = Returns b'
       ∧ V2.hash_table_v2_contains m b k3
         = V2.hash_table_v2_contains m b' k3
       ∧ V2.hash_table_v2_get_value m b k3
         = V2.hash_table_v2_get_value m b' k3).
Proof.
  intros Hcap Hwf1 Hwf2 Hk1 Hk2 Hk3 Hne. split.
  - by apply (add_entry_commutes v1_api v1_laws Hcap m t1 k1 v1 k2 v2 k3
                s1 s2 s3).
  - by apply (add_entry_commutes v2_api v2_laws Hcap m t2 k1 v1 k2 v2 k3
                s1 s2 s3).
Qed.

Lemma add_entry_order_of_two_keys_witness :
  (∃ a b a' b',
     V1.hash_table_v1_add_entry (base := example_base) example_memory true
       example_v1 100 1 = Returns a
     ∧ V1.hash_table_v1_add_entry (base := example_base) example_memory
         true a 300 2 = Returns b
     ∧ V1.hash_table_v1_add_entry (base := example_base) example_memory
         true example_v1 300 2 = Returns a'
     ∧ V1.hash_table_v1_add_entry (base := example_base) example_memory
         true a' 100 1 = Returns b'
     ∧ V1.hash_table_v1_contains (base := example_base) example_memory
         b 200
       = V1.hash_table_v1_contains (base := example_base) example_memory
           b' 200
     ∧ V1.hash_table_v1_get_value (base := example_base) example_memory
         b 200
       = V1.hash_table_v1_get_value (base := example_base) example_memory
           b' 200)
  ∧ (∃ a b a' b',
       V2.hash_table_v2_add_entry (base := example_base) example_memory
         true example_v2 100 1 = Returns a
       ∧ V2.hash_table_v2_add_entry (base := example_base) example_memory
           true a 300 2 = Returns b
       ∧ V2.hash_table_v2_add_entry (base := example_base) example_memory
           true example_v2 300 2 = Returns a'
       ∧ V2.hash_table_v2_add_entry (base := example_base) example_memory
           true a' 100 1 = Returns b'
       ∧ V2.hash_table_v2_contains (base := example_base) example_memory
           b 200
         = V2.hash_table_v2_contains (base := example_base) example_memory
             b' 200
       ∧ V2.hash_table_v2_get_value (base := example_base) example_memory
           b 200
         = V2.hash_table_v2_get_value (base := example_base) example_memory
             b' 200).
Proof.
  apply (add_entry_order_of_two_keys (base := example_base) example_memory
           example_v1 example_v2 100 1 300 2 200 "alice" "bob" "alice");
    compute_done.
Defined.

(** X4: in both variants [add_entry] changes the chain of the bucket of
    the key and nothing else of the chains: for a key [contains] does not
    find, the new node with the pointer and the value of the call is
    linked in front of the chain; for a key [contains] finds, the value of
    the first node whose key reads the same string is overwritten, the
    node keeps the pointer it had, and the chain its nodes and their
    order. *)
Theorem add_entry_links_in_front_or_overwrites {base : hash_table_base}
    (m : memory) (t1 : V1.hash_table_v1) (t2 : V2.hash_table_v2)
    (k v : Z) (s : string) (l1 l2 : list list_entry) :
  0 < HASH_TABLE_CAPACITY →
  wf v1_api m t1 → wf v2_api m t2 → string_at m k = Some s →
  v1_chains t1 !! bucket_index s = Some l1 →
  v2_chains t2 !! bucket_index s = Some l2 →
  (∃ t1', V1.hash_table_v1_add_entry m true t1 k v = Returns t1'
          ∧ (V1.hash_table_v1_contains m t1 k = Returns false →
             v1_chains t1'
             = <[bucket_index s := {| key := k; value := v |} :: l1]>
                 (v1_chains t1))
          ∧ (V1.hash_table_v1_contains m t1 k = Returns true →
             ∃ pos entry,
               list_find (key_is m s) l1 = Some (pos, entry)
               ∧ v1_chains t1'
                 = <[bucket_index s :=
                       <[pos := {| key := key entry; value := v |}]> l1]>
                     (v1_chains t1)))
  ∧ (∃ t2', V2.hash_table_v2_add_entry m true t2 k v = Returns t2'
            ∧ (V2.hash_table_v2_contains m t2 k = Returns false →
               v2_chains t2'
               = <[bucket_index s := {| key := k; value := v |} :: l2]>
                   (v2_chains t2))
            ∧ (V2.hash_table_v2_contains m t2 k = Returns true →
               ∃ pos entry,
                 list_find (key_is m s) l2 = Some (pos, entry)
                 ∧ v2_chains t2'
                   = <[bucket_index s :=
                         <[pos := {| key := key entry; value := v |}]> l2]>
                       (v2_chains t2))).
Proof.
  intros Hcap Hwf1 Hwf2 Hk Hl1 Hl2. split.
  - by apply (add_entry_effect v1_api v1_laws).
  - by apply (add_entry_effect v2_api v2_laws).
Qed.

Lemma add_entry_links_in_front_or_overwrites_witness :
  let t1 := v1_table example_chains in
  let t2 := v2_table example_chains in
  let l := [{| key := 100; value := 1 |}] in
  (∃ t1', V1.hash_table_v1_add_entry (base := example_base) example_memory
            true t1 200 7 = Returns t1'
          ∧ (V1.hash_table_v1_contains (base := example_base)
               example_memory t1 200 = Returns false →
             v1_chains t1'
             = <[bucket_index (base := example_base) "alice"
                 := {| key := 200; value := 7 |} :: l]> (v1_chains t1))
          ∧ (V1.hash_table_v1_contains (base := example_base)
               example_memory t1 200 = Returns true →
             ∃ pos entry,
               list_find (key_is example_memory "alice") l
               = Some (pos, entry)
               ∧ v1_chains t1'
                 = <[bucket_index (base := example_base) "alice"
                     := <[pos := {| key := key entry; value := 7 |}]> l]>
                     (v1_chains t1)))
  ∧ (∃ t2', V2.hash_table_v2_add_entry (base := example_base)
              example_memory true t2 200 7 = Returns t2'
            ∧ (V2.hash_table_v2_contains (base := example_base)
                 example_memory t2 200 = Returns false →
               v2_chains t2'
               = <[bucket_index (base := example_base) "alice"
                   := {| key := 200; value := 7 |} :: l]> (v2_chains t2))
            ∧ (V2.hash_table_v2_contains (base := example_base)
                 example_memory t2 200 = Returns true →
               ∃ pos entry,
                 list_find (key_is example_memory "alice") l
                 = Some (pos, entry)
                 ∧ v2_chains t2'
                   = <[bucket_index (base := example_base) "alice"
                       := <[pos := {| key := key entry; value := 7 |}]> l]>
                       (v2_chains t2))).
Proof.
  apply (add_entry_links_in_front_or_overwrites (base := example_base)
           example_memory (v1_table example_chains)
           (v2_table example_chains) 200 7 "alice");
    compute_done.
Defined.

(** X5: in both variants, on a well-formed table and for a valid key,
    [add_entry] without memory runs into undefined behaviour exactly when
    [contains] does not find the key; for a key [contains] finds it
    allocates nothing, returns and stores the value. *)
Theorem add_entry_allocates_for_new_keys_only {base : hash_table_base}
    (m : memory) (t1 : V1.hash_table_v1) (t2 : V2.hash_table_v2)
    (k v : Z) :
  0 < HASH_TABLE_CAPACITY →
  wf v1_api m t1 → wf v2_api m t2 → is_Some (string_at m k) →
  ((V1.hash_table_v1_add_entry m false t1 k v = Undefined
    ↔ V1.hash_table_v1_contains m t1 k = Returns false)
   ∧ (V1.hash_table_v1_contains m t1 k = Returns true →
      ∃ t1', V1.hash_table_v1_add_entry m false t1 k v = Returns t1'
             ∧ V1.hash_table_v1_get_value m t1' k = Returns v))
  ∧ ((V2.hash_table_v2_add_entry m false t2 k v = Undefined
      ↔ V2.hash_table_v2_contains m t2 k = Returns false)
     ∧ (V2.hash_table_v2_contains m t2 k = Returns true →
        ∃ t2', V2.hash_table_v2_add_entry m false t2 k v = Returns t2'
               ∧ V2.hash_table_v2_get_value m t2' k = Returns v)).
Proof.
  intros Hcap Hwf1 Hwf2 Hk. split.
  - by apply (add_entry_calloc_failing v1_api v1_laws).
  - by apply (add_entry_calloc_failing v2_api v2_laws).
Qed.

Lemma add_entry_allocates_for_new_keys_only_witness :
  let t1 := v1_table example_chains in
  let t2 := v2_table example_chains in
  ((V1.hash_table_v1_add_entry (base := example_base) example_memory false
      t1 200 7 = Undefined
    ↔ V1.hash_table_v1_contains (base := example_base) example_memory
        t1 200 = Returns false)
   ∧ (V1.hash_table_v1_contains (base := example_base) example_memory
        t1 200 = Returns true →
      ∃ t1', V1.hash_table_v1_add_entry (base := example_base)
               example_memory false t1 200 7 = Returns t1'
             ∧ V1.hash_table_v1_get_value (base := example_base)
                 example_memory t1' 200 = Returns 7))
  ∧ ((V2.hash_table_v2_add_entry (base := example_base) example_memory
        false t2 200 7 = Undefined
      ↔ V2.hash_table_v2_contains (base := example_base) example_memory
          t2 200 = Returns false)
     ∧ (V2.hash_table_v2_contains (base := example_base) example_memory
          t2 200 = Returns true →
        ∃ t2', V2.hash_table_v2_add_entry (base := example_base)
                 example_memory false t2 200 7 = Returns t2'
               ∧ V2.hash_table_v2_get_value (base := example_base)
                   example_memory t2' 200 = Returns 7)).
Proof.
  apply (add_entry_allocates_for_new_keys_only (base := example_base)
           example_memory (v1_table example_chains)
           (v2_table example_chains) 200 7);
    compute_done.
Defined.

(** X6: in both variants a NULL key stops the process at the assertion of
    [get_hash_table_entry], whatever the table holds: in [contains], in
    [get_value], and in [add_entry], which in variant 1 has taken the
    mutex by then. *)
Theorem null_key_aborts {base : hash_table_base} (m : memory)
    (calloc_ok : bool) (t1 : V1.hash_table_v1) (t2 : V2.hash_table_v2)
    (v : Z) :
  V1.mutex t1 = mutex_free →
  (V1.hash_table_v1_contains m t1 NULL = Aborted
   ∧ V1.hash_table_v1_get_value m t1 NULL = Aborted
   ∧ V1.hash_table_v1_add_entry m calloc_ok t1 NULL v = Aborted)
  ∧ (V2.hash_table_v2_contains m t2 NULL = Aborted
     ∧ V2.hash_table_v2_get_value m t2 NULL = Aborted
     ∧ V2.hash_table_v2_add_entry m calloc_ok t2 NULL v = Aborted).
Proof.
  intros Hmu. split.
  - destruct (v1_null_key m calloc_ok t1 v) as (? & ? & Hadd). auto.
  - apply v2_null_key.
Qed.

Lemma null_key_aborts_witness :
  (V1.hash_table_v1_contains (base := example_base) example_memory
     example_v1 NULL = Aborted
   ∧ V1.hash_table_v1_get_value (base := example_base) example_memory
       example_v1 NULL = Aborted
   ∧ V1.hash_table_v1_add_entry (base := example_base) example_memory true
       example_v1 NULL 1 = Aborted)
  ∧ (V2.hash_table_v2_contains (base := example_base) example_memory
       example_v2 NULL = Aborted
     ∧ V2.hash_table_v2_get_value (base := example_base) example_memory
         example_v2 NULL = Aborted
     ∧ V2.hash_table_v2_add_entry (base := example_base) example_memory
         true example_v2 NULL 1 = Aborted).
Proof.
  apply (null_key_aborts (base := example_base) example_memory true
           example_v1 example_v2 1).
  reflexivity.
Defined.

(** X7: in both variants [contains] and [get_value] take no mutex and
    read nothing but the chains: on two tables with the same chains they
    answer alike for every key, whether or not the mutexes are held. *)
Theorem lookups_take_no_mutex {base : hash_table_base} (m : memory)
    (t1 t1' : V1.hash_table_v1) (t2 t2' : V2.hash_table_v2) (k : Z) :
  v1_chains t1 = v1_chains t1' → v2_chains t2 = v2_chains t2' →
  (V1.hash_table_v1_contains m t1 k = V1.hash_table_v1_contains m t1' k
   ∧ V1.hash_table_v1_get_value m t1 k
     = V1.hash_table_v1_get_value m t1' k)
  ∧ (V2.hash_table_v2_contains m t2 k = V2.hash_table_v2_contains m t2' k
     ∧ V2.hash_table_v2_get_value m t2 k
       = V2.hash_table_v2_get_value m t2' k).
Proof.
  intros H1 H2. split.
  - by apply v1_lookups_read_chains.
  - by apply v2_lookups_read_chains.
Qed.

Lemma lookups_take_no_mutex_witness :
  (V1.hash_table_v1_contains (base := example_base) example_memory
     (v1_table example_chains) 200
   = V1.hash_table_v1_contains (base := example_base) example_memory
       example_v1_held 200
   ∧ V1.hash_table_v1_get_value (base := example_base) example_memory
       (v1_table example_chains) 200
     = V1.hash_table_v1_get_value (base := example_base) example_memory
         example_v1_held 200)
  ∧ (V2.hash_table_v2_contains (base := example_base) example_memory
       (v2_table example_chains) 200
     = V2.hash_table_v2_contains (base := example_base) example_memory
         example_v2_held 200
     ∧ V2.hash_table_v2_get_value (base := example_base) example_memory
         (v2_table example_chains) 200
       = V2.hash_table_v2_get_value (base := example_base) example_memory
           example_v2_held 200).
Proof.
  apply (lookups_take_no_mutex (base := example_base)); reflexivity.
Defined.

(** X8: in both variants a call of [add_entry] that returns has unlocked
    the mutex it locked, on the path that overwrites as on the path that
    inserts: after the call the table-wide mutex of variant 1 is free, and
    so is, in variant 2, the mutex of the bucket of the key, while the
    other buckets, chains and mutexes, held or not, are as they were. *)
Theorem add_entry_releases_its_mutex {base : hash_table_base}
    (m : memory) (calloc_ok : bool) (t1 t1' : V1.hash_table_v1)
    (t2 t2' : V2.hash_table_v2) (k v : Z) :
  V1.hash_table_v1_add_entry m calloc_ok t1 k v = Returns t1' →
  V2.hash_table_v2_add_entry m calloc_ok t2 k v = Returns t2' →
  V1.mutex t1' = mutex_free
  ∧ (∃ s b',
       string_at m k = Some s
       ∧ V2.entries t2' !! bucket_index s = Some b'
       ∧ V2.mutex b' = mutex_free
       ∧ ∀ i, i ≠ bucket_index s →
              V2.entries t2' !! i = V2.entries t2 !! i).
Proof.
  intros H1 H2. split.
  - by apply (v1_add_entry_unlocks m calloc_ok t1 t1' k v).
  - by apply (v2_add_entry_unlocks m calloc_ok t2 t2' k v).
Qed.

Lemma add_entry_releases_its_mutex_witness :
  let t1' :=
    {| V1.entries :=
         [{| V1.list_head := [] |}; {| V1.list_head := [] |};
          {| V1.list_head := [] |};
          {| V1.list_head := [{| key := 100; value := 1 |}] |}];
       V1.mutex := mutex_free |} in
  let t2 :=
    {| V2.entries :=
         [{| V2.list_head := []; V2.mutex := mutex_held |};
          {| V2.list_head := []; V2.mutex := mutex_free |};
          {| V2.list_head := []; V2.mutex := mutex_free |};
          {| V2.list_head := []; V2.mutex := mutex_free |}] |} in
  let t2' :=
    {| V2.entries :=
         [{| V2.list_head := []; V2.mutex := mutex_held |};
          {| V2.list_head := []; V2.mutex := mutex_free |};
          {| V2.list_head := []; V2.mutex := mutex_free |};
          {| V2.list_head := [{| key := 100; value := 1 |}];
             V2.mutex := mutex_free |}] |} in
  V1.mutex t1' = mutex_free
  ∧ (∃ s b',
       string_at example_memory 100 = Some s
       ∧ V2.entries t2' !! bucket_index (base := example_base) s = Some b'
       ∧ V2.mutex b' = mutex_free
       ∧ ∀ i, i ≠ bucket_index (base := example_base) s →
              V2.entries t2' !! i = V2.entries t2 !! i).
Proof.
  apply (add_entry_releases_its_mutex (base := example_base)
           example_memory true example_v1 _ _ _ 100 1);
    reflexivity.
Defined.

(** X9: in both variants [destroy] on a well-formed table returns after
    it has handed every node of every chain to [free] exactly once,
    bucket by bucket and each chain from its head. *)
Theorem destroy_frees_every_node {base : hash_table_base} (m : memory)
    (t1 : V1.hash_table_v1) (t2 : V2.hash_table_v2) :
  wf v1_api m t1 → wf v2_api m t2 →
  hash_table_v1_destroy t1 = Returns (mjoin (v1_chains t1))
  ∧ hash_table_v2_destroy t2 = Returns (mjoin (v2_chains t2)).
Proof.
  intros Hwf1 Hwf2. split.
  - by apply (v1_destroy_frees m).
  - by apply (v2_destroy_frees m).
Qed.

Lemma destroy_frees_every_node_witness :
  hash_table_v1_destroy (base := example_base) (v1_table example_chains)
  = Returns (mjoin (v1_chains (v1_table example_chains)))
  ∧ hash_table_v2_destroy (base := example_base) (v2_table example_chains)
    = Returns (mjoin (v2_chains (v2_table example_chains))).
Proof.
  apply (destroy_frees_every_node (base := example_base) example_memory);
    compute_done.
Defined.

(** X10: in both variants a client that creates a table, inserts any
    sequence of valid keys and destroys the table has as many nodes freed
    as the keys read different strings: a node is allocated for the first
    insertion of a string only, and [destroy] leaves none behind. *)
Theorem create_add_entries_destroy_frees_all {base : hash_table_base}
    (m : memory) (kvs : list (Z * Z)) :
  0 < HASH_TABLE_CAPACITY →
  Forall (λ kv, is_Some (string_at m kv.1)) kvs →
  (∃ t0 t freed,
     V1.hash_table_v1_create true 0 = Returns t0
     ∧ add_entries v1_api m t0 kvs = Returns t
     ∧ hash_table_v1_destroy t = Returns freed
     ∧ length freed = length (remove_dups (call_strings m kvs)))
  ∧ (∃ t0 t freed,
       V2.hash_table_v2_create true (λ _, 0) = Returns t0
       ∧ add_entries v2_api m t0 kvs = Returns t
       ∧ hash_table_v2_destroy t = Returns freed
       ∧ length freed = length (remove_dups (call_strings m kvs))).
Proof.
  intros Hcap Hkvs. split.
  - destruct v1_create_returns as (t0 & Hcreate & Hchains & Hmu).
    destruct (add_entries_nodes v1_api v1_laws Hcap m t0 kvs)
      as (t & Hadd & Hwf & Hlen); [|intros s|done|].
    + by apply (empty_table_ok v1_api).
    + cbn. rewrite Hchains. apply empty_chains_lookup_value.
    + exists t0, t, (mjoin (v1_chains t)). split_and!; [done..| |done].
      by apply (v1_destroy_frees m).
  - destruct v2_create_returns as (t0 & Hcreate & Hchains & Hmu).
    destruct (add_entries_nodes v2_api v2_laws Hcap m t0 kvs)
      as (t & Hadd & Hwf & Hlen); [|intros s|done|].
    + by apply (empty_table_ok v2_api).
    + cbn. rewrite Hchains. apply empty_chains_lookup_value.
    + exists t0, t, (mjoin (v2_chains t)). split_and!; [done..| |done].
      by apply (v2_destroy_frees m).
Qed.

Lemma create_add_entries_destroy_frees_all_witness :
  let kvs := [(100, 1); (300, 2); (200, 3)] in
  (∃ t0 t freed,
     V1.hash_table_v1_create (base := example_base) true 0 = Returns t0
     ∧ add_entries (base := example_base) v1_api example_memory t0 kvs
       = Returns t
     ∧ hash_table_v1_destroy (base := example_base) t = Returns freed
     ∧ length freed = 2%nat)
  ∧ (∃ t0 t freed,
       V2.hash_table_v2_create (base := example_base) true (λ _, 0)
       = Returns t0
       ∧ add_entries (base := example_base) v2_api example_memory t0 kvs
         = Returns t
       ∧ hash_table_v2_destroy (base := example_base) t = Returns freed
       ∧ length freed = 2%nat).
Proof.
  apply (create_add_entries_destroy_frees_all (base := example_base)
           example_memory [(100, 1); (300, 2); (200, 3)]);
    compute_done.
Defined.

(** X11: whatever the threads, their calls, the table and the schedule,
    in every state the insertions reach no two threads are between the
    locking and the unlocking of the same mutex: with the table-wide mutex
    of variant 1 at most one thread is inside [add_entry]'s critical
    section, with the mutexes of variant 2 at most one per bucket. *)
Theorem add_entry_mutual_exclusion {base : hash_table_base} (d : locking)
    (m : memory) (chains0 : list (list list_entry))
    (todo : list (list (Z * Z))) (schedule : list (nat * bool))
    (σ : machine) (i j mu_i mu_j : nat) :
  exec d m schedule (start chains0 todo) = Returns σ →
  holds d m σ i mu_i → holds d m σ j mu_j →
  d = table_lock ∨ mu_i = mu_j →
  i = j.
Proof.
  intros Hexec Hi Hj Hsame.
  pose proof (exec_owners_ok d m schedule _ σ
                (start_owners_ok d m chains0 todo) Hexec) as Hok.
  assert (mu_i = mu_j) as Hmu.
  { destruct Hsame as [->|]; [|done].
    destruct Hi as (? & ? & ? & ? & _ & _ & _ & Hi).
    destruct Hj as (? & ? & ? & ? & _ & _ & _ & Hj).
    cbn in Hi, Hj. congruence. }
  apply Hok in Hi, Hj. congruence.
Qed.

Lemma add_entry_mutual_exclusion_witness :
  let σ :=
    {| buckets := replicate 4 [];
       owners := {[3%nat := 0%nat]};
       threads := [{| point_of := at_find; calls := [(100, 1)] |};
                   {| point_of := at_lock; calls := [(300, 2)] |}] |} in
  exec (base := example_base) bucket_lock example_memory [(0%nat, true)]
    (start (replicate 4 []) example_todo) = Returns σ
  ∧ holds (base := example_base) bucket_lock example_memory σ 0 3
  ∧ 0%nat = 0%nat.
Proof.
  assert (holds (base := example_base) bucket_lock example_memory
            {| buckets := replicate 4 [];
               owners := {[3%nat := 0%nat]};
               threads := [{| point_of := at_find; calls := [(100, 1)] |};
                           {| point_of := at_lock; calls := [(300, 2)] |}]
            |} 0 3) as Hholds.
  { exists {| point_of := at_find; calls := [(100, 1)] |}, 100, 1, [].
    split_and!; [reflexivity|discriminate|reflexivity|reflexivity]. }
  split_and!; [reflexivity|exact Hholds|].
  apply (add_entry_mutual_exclusion (base := example_base) bucket_lock
           example_memory (replicate 4 []) example_todo [(0%nat, true)] _
           0 0 3 3
           eq_refl Hholds Hholds).
  right. reflexivity.
Defined.

(** X12: two threads that start an insertion one after the other on a
    table whose mutexes are free: the first takes its mutex and goes on to
    search its chain; the second waits in variant 1 whatever its key, and
    in variant 2 if and only if its key falls in the bucket of the
    first. *)
Theorem second_thread_waits_for_the_same_mutex {base : hash_table_base}
    (m : memory) (chains0 : list (list list_entry))
    (todo : list (list (Z * Z))) (i j : nat) (ci cj : bool)
    (ki vi kj vj : Z) (ri rj : list (Z * Z)) (si sj : string) :
  i ≠ j →
  todo !! i = Some ((ki, vi) :: ri) →
  todo !! j = Some ((kj, vj) :: rj) →
  string_at m ki = Some si →
  string_at m kj = Some sj →
  (∃ σ, exec table_lock m [(i, ci); (j, cj)] (start chains0 todo)
        = Returns σ
        ∧ point_at σ i = Some at_find
        ∧ point_at σ j = Some at_lock)
  ∧ (∃ σ, exec bucket_lock m [(i, ci); (j, cj)] (start chains0 todo)
          = Returns σ
          ∧ point_at σ i = Some at_find
          ∧ point_at σ j
            = Some (if decide (bucket_index si = bucket_index sj)
                    then at_lock else at_find)).
Proof.
  intros Hne Hi Hj Hsi Hsj. split.
  - by apply (two_threads_start table_lock m chains0 todo i j ci cj ki vi
                kj vj ri rj si sj).
  - by apply (two_threads_start bucket_lock m chains0 todo i j ci cj ki vi
                kj vj ri rj si sj).
Qed.

Lemma second_thread_waits_for_the_same_mutex_witness :
  (∃ σ, exec (base := example_base) table_lock example_memory
          [(0%nat, true); (1%nat, true)]
          (start (replicate 4 []) example_todo) = Returns σ
        ∧ point_at σ 0 = Some at_find
        ∧ point_at σ 1 = Some at_lock)
  ∧ (∃ σ, exec (base := example_base) bucket_lock example_memory
            [(0%nat, true); (1%nat, true)]
            (start (replicate 4 []) example_todo)
          = Returns σ
          ∧ point_at σ 0 = Some at_find
          ∧ point_at σ 1 = Some at_find).
Proof.
  apply (second_thread_waits_for_the_same_mutex (base := example_base)
           example_memory (replicate 4 []) example_todo 0 1 true true
           100 1 300 2 [] [] "alice" "bob");
    first [reflexivity | discriminate].
Defined.

(** * One thread alone makes the call of the sequential code *)

Section Solo.
Context {base : hash_table_base} (m : memory) (i : nat) (ths : list thread)
  (k v : Z) (rest : list (Z * Z)).
Hypothesis thread_i : (i < length ths)%nat.

Lemma step_at_lock (d : locking) (calloc_ok : bool)
    (b : list (list list_entry)) (o : gmap nat nat) (mu : nat) :
  guard_of d m k = Returns mu → o !! mu = None →
  step d m calloc_ok i (at_point b o ths i at_lock ((k, v) :: rest))
  = Some (Returns (at_point b (<[mu := i]> o) ths i at_find ((k, v) :: rest))).
Proof using thread_i.
  intros Hmu Ho. unfold step, at_point. cbn.
  rewrite list_lookup_insert_eq by done. cbn. rewrite Hmu, Ho.
  unfold move, put_owners, put_chain. cbn.
  by rewrite list_insert_insert_eq.
Qed.

Lemma step_at_find (d : locking) (calloc_ok : bool)
    (b : list (list list_entry)) (o : gmap nat nat) :
  step d m calloc_ok i (at_point b o ths i at_find ((k, v) :: rest))
  = Some (index ← bucket_of m k;
          l ← (match b !! index with
               | Some l => Returns l
               | None => Undefined
               end);
          r ← list_foreach m k l;
          mret (at_point b o ths i (match r with
                          | Some pos => at_update pos
                          | None => at_insert
                          end) ((k, v) :: rest))).
Proof using thread_i.
  unfold step, at_point. cbn.
  rewrite list_lookup_insert_eq by done. cbn. f_equal.
  destruct (bucket_of m k) as [index| | | |]; cbn; try done.
  unfold chain_at. cbn. destruct (b !! index) as [l|]; cbn; try done.
  destruct (list_foreach m k l) as [[pos|]| | | |]; cbn; try done;
    unfold move; cbn; by rewrite list_insert_insert_eq.
Qed.

Lemma step_at_update (d : locking) (calloc_ok : bool)
    (b : list (list list_entry)) (o : gmap nat nat) (pos index : nat)
    (l : list list_entry) :
  bucket_of m k = Returns index → b !! index = Some l →
  step d m calloc_ok i (at_point b o ths i (at_update pos) ((k, v) :: rest))
  = Some (Returns
            (at_point (<[index := alter (store_value v) pos l]> b)
               o ths i at_unlock ((k, v) :: rest))).
Proof using thread_i.
  intros Hb Hl. unfold step, at_point. cbn.
  rewrite list_lookup_insert_eq by done.
  cbn. rewrite Hb. cbn. unfold chain_at. cbn. rewrite Hl. cbn.
  unfold move, put_owners, put_chain. cbn.
  by rewrite list_insert_insert_eq.
Qed.

Lemma step_at_insert (d : locking) (calloc_ok : bool)
    (b : list (list list_entry)) (o : gmap nat nat) (index : nat)
    (l : list list_entry) :
  bucket_of m k = Returns index → b !! index = Some l →
  step d m calloc_ok i (at_point b o ths i at_insert ((k, v) :: rest))
  = Some (if calloc_ok then Returns
      (at_point b o ths i (at_link l) ((k, v) :: rest))
          else Undefined).
Proof using thread_i.
  intros Hb Hl. unfold step, at_point. cbn.
  rewrite list_lookup_insert_eq by done.
  cbn. rewrite Hb. cbn. destruct calloc_ok; cbn; [|done].
  unfold chain_at. cbn. rewrite Hl. cbn. unfold move. cbn.
  by rewrite list_insert_insert_eq.
Qed.

Lemma step_at_link (d : locking) (calloc_ok : bool)
    (b : list (list list_entry)) (o : gmap nat nat) (index : nat)
    (next : list list_entry) :
  bucket_of m k = Returns index →
  step d m calloc_ok i (at_point b o ths i (at_link next) ((k, v) :: rest))
  = Some (Returns
            (at_point (<[index := {| key := k; value := v |} :: next]> b)
               o ths i at_unlock ((k, v) :: rest))).
Proof using thread_i.
  intros Hb. unfold step, at_point. cbn. rewrite list_lookup_insert_eq by done.
  cbn. rewrite Hb. cbn. unfold move, put_chain. cbn.
  by rewrite list_insert_insert_eq.
Qed.

Lemma step_at_unlock (d : locking) (calloc_ok : bool)
    (b : list (list list_entry)) (o : gmap nat nat) (mu : nat) :
  guard_of d m k = Returns mu → o !! mu = None →
  step d m calloc_ok i
      (at_point b (<[mu := i]> o) ths i at_unlock ((k, v) :: rest))
  = Some (Returns
            (at_point b o ths i at_lock rest)).
Proof using thread_i.
  intros Hmu Ho. unfold step, at_point. cbn.
  rewrite list_lookup_insert_eq by done.
  cbn. rewrite Hmu. cbn. rewrite decide_True by apply lookup_insert_eq.
  cbn. unfold move, put_owners. cbn.
  by rewrite list_insert_insert_eq, delete_insert_id.
Qed.

(** The steps of the call from the search on, and the call of the
    sequential code from the search on: [found] is the table the
    sequential code returns for the chain it wrote. *)
Lemma solo_from_find (d : locking) (calloc_ok : bool)
    (b : list (list list_entry)) (o : gmap nat nat) (mu index : nat)
    (l : list list_entry) (T : Type) (found : list list_entry → T)
    (table_chains : T → list (list list_entry)) :
  guard_of d m k = Returns mu → o !! mu = None →
  bucket_of m k = Returns index → b !! index = Some l →
  (∀ l', table_chains (found l') = <[index := l']> b) →
  ∃ n, exec d m (replicate n (i, calloc_ok))
      (at_point b (<[mu := i]> o) ths i at_find ((k, v) :: rest))
       = (t' ← (list_entry ← list_foreach m k l;
                match list_entry with
                | Some pos => mret (found (alter (store_value v) pos l))
                | None =>
                    match calloc_list_entry calloc_ok with
                    | None => Undefined
                    | Some _ =>
                        mret (found ({| key := k; value := v |} :: l))
                    end
                end);
          mret (at_point (table_chains t') o ths i at_lock rest)).
Proof using thread_i.
  intros Hmu Ho Hb Hl Hfound.
  destruct (list_foreach m k l) as [[pos|]| | | |] eqn:Hf; cbn.
  - exists 3%nat. cbn [replicate exec].
    rewrite step_at_find, Hb. cbn. rewrite Hl. cbn. rewrite Hf. cbn.
    rewrite (step_at_update d calloc_ok b _ pos index l Hb Hl). cbn.
    rewrite (step_at_unlock d calloc_ok _ o mu Hmu Ho). cbn.
    by rewrite Hfound.
  - destruct calloc_ok; cbn.
    + exists 4%nat. cbn [replicate exec].
      rewrite step_at_find, Hb. cbn. rewrite Hl. cbn. rewrite Hf. cbn.
      rewrite (step_at_insert d true b _ index l Hb Hl). cbn.
      rewrite (step_at_link d true b _ index l Hb). cbn.
      rewrite (step_at_unlock d true _ o mu Hmu Ho). cbn.
      by rewrite Hfound.
    + exists 2%nat. cbn [replicate exec].
      rewrite step_at_find, Hb. cbn. rewrite Hl. cbn. rewrite Hf. cbn.
      by rewrite (step_at_insert d false b _ index l Hb Hl).
  - exists 1%nat. cbn [replicate exec].
    rewrite step_at_find, Hb. cbn. rewrite Hl. cbn. by rewrite Hf.
  - exists 1%nat. cbn [replicate exec].
    rewrite step_at_find, Hb. cbn. rewrite Hl. cbn. by rewrite Hf.
  - exists 1%nat. cbn [replicate exec].
    rewrite step_at_find, Hb. cbn. rewrite Hl. cbn. by rewrite Hf.
  - exists 1%nat. cbn [replicate exec].
    rewrite step_at_find, Hb. cbn. rewrite Hl. cbn. by rewrite Hf.
Qed.

Lemma bucket_of_not_NULL (index : nat) :
  bucket_of m k = Returns index → bool_decide (k ≠ NULL) = true.
Proof using Type.
  unfold bucket_of. by destruct (bool_decide (k ≠ NULL)).
Qed.

Lemma solo_call_v1 (calloc_ok : bool) (b : list (list list_entry))
    (o : gmap nat nat) :
  o !! 0%nat = None →
  ∃ n, exec table_lock m (replicate n (i, calloc_ok))
      (at_point b o ths i at_lock ((k, v) :: rest))
       = (t' ← V1.hash_table_v1_add_entry m calloc_ok (v1_table b) k v;
          mret (at_point (v1_chains t') o ths i at_lock rest)).
Proof using thread_i.
  intros Ho.
  pose proof (step_at_lock table_lock calloc_ok b o 0%nat eq_refl Ho)
    as Hlock.
  unfold V1.hash_table_v1_add_entry. cbn [V1.mutex v1_table].
  rewrite lock_free. cbn [mbind outcome_bind].
  change (V1.get_hash_table_entry m _ k) with (bucket_of m k).
  destruct (bucket_of m k) as [index| | | |] eqn:Hb; cbn;
    [|exists 2%nat; cbn [replicate exec]; rewrite Hlock; cbn;
      by rewrite step_at_find, Hb..].
  unfold V1.bucket. cbn. rewrite list_lookup_fmap.
  destruct (b !! index) as [l|] eqn:Hl; cbn;
    [|exists 2%nat; cbn [replicate exec]; rewrite Hlock; cbn;
      rewrite step_at_find, Hb; cbn; by rewrite Hl].
  unfold V1.get_list_entry. rewrite (bucket_of_not_NULL index Hb). cbn.
  destruct (solo_from_find table_lock calloc_ok b o 0%nat index l _
              (λ l', V1.with_mutex
                       (V1.with_chain
                          (V1.with_mutex (v1_table b) mutex_held) index l')
                       mutex_free)
              v1_chains eq_refl Ho Hb Hl) as [n Hn].
  { intros l'. unfold v1_chains. cbn. rewrite list_fmap_insert. cbn.
    f_equal. rewrite <- list_fmap_compose.
    rewrite <- (list_fmap_id b) at 2. by apply list_fmap_ext. }
  exists (S n). cbn [replicate exec]. rewrite Hlock. cbn. rewrite Hn.
  destruct (list_foreach m k l) as [[pos|]| | | |]; cbn; try done.
  by destruct calloc_ok.
Qed.

Lemma solo_call_v2 (calloc_ok : bool) (b : list (list list_entry))
    (o : gmap nat nat) :
  (∀ index, bucket_of m k = Returns index → o !! index = None) →
  ∃ n, exec bucket_lock m (replicate n (i, calloc_ok))
      (at_point b o ths i at_lock ((k, v) :: rest))
       = (t' ← V2.hash_table_v2_add_entry m calloc_ok (v2_table b) k v;
          mret (at_point (v2_chains t') o ths i at_lock rest)).
Proof using thread_i.
  intros Ho.
  unfold V2.hash_table_v2_add_entry.
  change (V2.get_hash_table_entry m _ k) with (bucket_of m k).
  destruct (bucket_of m k) as [index| | | |] eqn:Hb; cbn;
    [|exists 1%nat; cbn [replicate exec]; unfold step, at_point; cbn;
      rewrite list_lookup_insert_eq by done; cbn; by rewrite Hb..].
  specialize (Ho index eq_refl).
  pose proof (step_at_lock bucket_lock calloc_ok b o index Hb Ho) as Hlock.
  unfold V2.bucket. cbn. rewrite list_lookup_fmap.
  destruct (b !! index) as [l|] eqn:Hl; cbn;
    [|exists 2%nat; cbn [replicate exec]; rewrite Hlock; cbn;
      rewrite step_at_find, Hb; cbn; by rewrite Hl].
  unfold V2.get_list_entry. rewrite (bucket_of_not_NULL index Hb). cbn.
  destruct (solo_from_find bucket_lock calloc_ok b o index index l _
              (λ l', V2.with_bucket
                       (V2.with_bucket (v2_table b) index
                          {| V2.list_head := l; V2.mutex := mutex_held |})
                       index
                       {| V2.list_head := l'; V2.mutex := mutex_free |})
              v2_chains Hb Ho Hb Hl) as [n Hn].
  { intros l'. unfold v2_chains. cbn.
    rewrite list_insert_insert_eq, list_fmap_insert. cbn.
    f_equal. rewrite <- list_fmap_compose.
    rewrite <- (list_fmap_id b) at 2. by apply list_fmap_ext. }
  exists (S n). cbn [replicate exec]. rewrite Hlock. cbn. rewrite Hn.
  rewrite decide_False by (by intros ?). cbn.
  destruct (list_foreach m k l) as [[pos|]| | | |]; cbn; try done.
  by destruct calloc_ok.
Qed.
End Solo.

(** X13: a thread that makes a call of [add_entry] on the machine while no
    other thread moves, its mutex free, does what the sequential code does
    on the table with the same chains.  For every key, valid or not, every
    table and every answer of [calloc], the steps of the call under the
    table-wide mutex end as the call of variant 1 ends, and under the
    mutexes of the buckets as the call of variant 2 ends: with the chains
    the call returns, the mutex free again and the thread at its next
    call, or with the process stopped in the same way. *)
Theorem solo_call_is_add_entry {base : hash_table_base} (m : memory)
    (i : nat) (ths : list thread) (k v : Z) (rest : list (Z * Z))
    (calloc_ok : bool) (b : list (list list_entry)) (o : gmap nat nat) :
  (i < length ths)%nat →
  o !! 0%nat = None →
  (∀ index, bucket_of m k = Returns index → o !! index = None) →
  (∃ n, exec table_lock m (replicate n (i, calloc_ok))
          (at_point b o ths i at_lock ((k, v) :: rest))
        = (t' ← V1.hash_table_v1_add_entry m calloc_ok (v1_table b) k v;
           mret (at_point (v1_chains t') o ths i at_lock rest)))
  ∧ (∃ n, exec bucket_lock m (replicate n (i, calloc_ok))
            (at_point b o ths i at_lock ((k, v) :: rest))
          = (t' ← V2.hash_table_v2_add_entry m calloc_ok (v2_table b) k v;
             mret (at_point (v2_chains t') o ths i at_lock rest))).
Proof.
  intros Hi Ho1 Ho2. split.
  - by apply solo_call_v1.
  - by apply solo_call_v2.
Qed.

Lemma solo_call_is_add_entry_witness :
  let ths :=
    [{| point_of := at_lock; calls := [(100, 1)] |};
     {| point_of := at_lock; calls := [(300, 2)] |}] in
  let b : list (list list_entry) := replicate 4 [] in
  (∃ n, exec (base := example_base) table_lock example_memory
          (replicate n (0%nat, false))
          (at_point b ∅ ths 0 at_lock [(100, 1)])
        = (t' ← V1.hash_table_v1_add_entry (base := example_base)
                  example_memory false (v1_table b) 100 1;
           mret (at_point (v1_chains t') ∅ ths 0 at_lock [])))
  ∧ (∃ n, exec (base := example_base) bucket_lock example_memory
            (replicate n (0%nat, false))
            (at_point b ∅ ths 0 at_lock [(100, 1)])
          = (t' ← V2.hash_table_v2_add_entry (base := example_base)
                    example_memory false (v2_table b) 100 1;
             mret (at_point (v2_chains t') ∅ ths 0 at_lock []))).
Proof.
  apply (solo_call_is_add_entry (base := example_base) example_memory 0
           [{| point_of := at_lock; calls := [(100, 1)] |};
            {| point_of := at_lock; calls := [(300, 2)] |}]
           100 1 [] false (replicate 4 []) ∅);
    [cbn; lia|reflexivity|intros index _; reflexivity].
Defined.
